(** * rellx: the base store, the middleware store and the reactive store

    A shallow embedding of [core/utils.ts] (deepEqual), [core/storeCore.ts]
    (StoreCore), [core/reactive.ts] (ReactiveStore) and [full/full.ts]
    (StoreFull, loggerMiddleware), followed by the properties of the
    specification that were checked against them.

    JavaScript values live in a heap of plain objects and arrays; the Proxy
    objects the reactive store creates live in a table of their own, since
    every Proxy it creates is over a value that has just been tested not to
    be reactive.  Code runs in a state-and-exception monad over a [world]
    that holds the heap, the fields of the store and a trace of every call
    to a listener, a hook or the console.  The recursion of deepEqual is
    bounded by the room left on the call stack, a field of the world; when
    it runs out the engine throws its RangeError.

    Scope of the model: numbers are the integers and NaN; property keys are
    strings (no symbols); functions are not state values; objects are
    extensible and their properties writable (nothing is frozen); members
    inherited from Object.prototype and Array.prototype are not properties
    (the seven mutating methods of Array.prototype are modelled as calls);
    listeners and hooks are callbacks that return or throw and do not call
    back into the store; an updater or a comparator is any computation of
    the monad.  A run that leaves this scope ends in [Unmodelled]. *)

From Stdlib Require Import ZArith String Ascii List Bool Lia.
From Stdlib Require Import DecimalString DecimalN DecimalPos.
From stdpp Require Import base list gmap strings.

Open Scope string_scope.
Open Scope list_scope.

(** ** JavaScript values *)

Inductive value : Type :=
| VUndef
| VNull
| VBool (b : bool)
| VNum (n : Z)
| VNaN
| VStr (s : string)
| VRef (l : nat)      (* the plain object or array at heap address l *)
| VProxy (p : nat)    (* the p-th Proxy created by the store *)
| VStore.             (* the store instance itself (what __store yields) *)

Inductive js_type := TUndefined | TObject | TBoolean | TNumber | TString.

Definition typeof (v : value) : js_type :=
  match v with
  | VUndef => TUndefined
  | VNull | VRef _ | VProxy _ | VStore => TObject
  | VBool _ => TBoolean
  | VNum _ | VNaN => TNumber
  | VStr _ => TString
  end.

Definition is_object_type (v : value) : bool :=
  match typeof v with TObject => true | _ => false end.

(** [a === b] *)
Definition strict_eq (a b : value) : bool :=
  match a, b with
  | VUndef, VUndef | VNull, VNull | VStore, VStore => true
  | VBool x, VBool y => Bool.eqb x y
  | VNum x, VNum y => Z.eqb x y
  | VStr x, VStr y => String.eqb x y
  | VRef x, VRef y => Nat.eqb x y
  | VProxy x, VProxy y => Nat.eqb x y
  | _, _ => false
  end.

(** [v == null] *)
Definition is_nullish (v : value) : bool :=
  match v with VUndef | VNull => true | _ => false end.

(** ToBoolean *)
Definition truthy (v : value) : bool :=
  match v with
  | VUndef | VNull | VNaN => false
  | VBool b => b
  | VNum n => negb (Z.eqb n 0)
  | VStr s => negb (String.eqb s EmptyString)
  | VRef _ | VProxy _ | VStore => true
  end.

(** ** Property keys *)

(** The key of array index [n]: its decimal numeral. *)
Definition index_key (n : nat) : string :=
  NilEmpty.string_of_uint (N.to_uint (N.of_nat n)).

(** The array index a key denotes, when the key is a canonical numeral. *)
Definition key_index (k : string) : option nat :=
  match NilEmpty.uint_of_string k with
  | Some d =>
      let n := N.of_uint d in
      if String.eqb (NilEmpty.string_of_uint (N.to_uint n)) k
      then if (n <? 4294967295)%N then Some (N.to_nat n) else None
      else None
  | None => None
  end.

Definition is_digit (c : ascii) : bool :=
  let n := nat_of_ascii c in ((48 <=? n) && (n <=? 57))%nat.

Definition is_hex_digit (c : ascii) : bool :=
  let n := nat_of_ascii c in
  is_digit c || ((65 <=? n) && (n <=? 70))%nat || ((97 <=? n) && (n <=? 102))%nat.

Definition is_oct_digit (c : ascii) : bool :=
  let n := nat_of_ascii c in ((48 <=? n) && (n <=? 55))%nat.

Definition is_bin_digit (c : ascii) : bool :=
  let n := nat_of_ascii c in ((48 <=? n) && (n <=? 49))%nat.

(** StrWhiteSpaceChar, ASCII part: tab, LF, VT, FF, CR, space. *)
Definition is_space (c : ascii) : bool :=
  let n := nat_of_ascii c in (((9 <=? n) && (n <=? 13)) || (n =? 32))%nat.

Fixpoint drop_spaces (l : list ascii) : list ascii :=
  match l with
  | c :: l' => if is_space c then drop_spaces l' else l
  | [] => []
  end.

Definition trim (l : list ascii) : list ascii :=
  rev (drop_spaces (rev (drop_spaces l))).

(** The longest prefix of [l] made of characters in [P], as its length and
    the rest. *)
Fixpoint span (P : ascii -> bool) (l : list ascii) : nat * list ascii :=
  match l with
  | c :: l' => if P c then let '(n, r) := span P l' in (S n, r) else (0, l)
  | [] => (0, [])
  end.

Definition skip_sign (l : list ascii) : list ascii :=
  match l with
  | c :: l' => if (Ascii.eqb c "+" || Ascii.eqb c "-")%char then l' else l
  | [] => []
  end.

Definition all_of (P : ascii -> bool) (l : list ascii) : bool :=
  match l with [] => false | _ => forallb P l end.

(** ExponentPart, optional, up to the end of the literal. *)
Definition exponent_ok (l : list ascii) : bool :=
  match l with
  | [] => true
  | c :: l' =>
      if (Ascii.eqb c "e" || Ascii.eqb c "E")%char
      then all_of is_digit (skip_sign l')
      else false
  end.

(** StrUnsignedDecimalLiteral *)
Definition unsigned_decimal (l : list ascii) : bool :=
  if bool_decide (l = list_ascii_of_string "Infinity") then true
  else
    let '(n1, r1) := span is_digit l in
    match r1 with
    | c :: r =>
        if Ascii.eqb c "."%char
        then let '(n2, r2) := span is_digit r in
             (0 <? n1 + n2)%nat && exponent_ok r2
        else (0 <? n1)%nat && exponent_ok r1
    | [] => (0 <? n1)%nat
    end.

(** Whether [Number(s)] is a number, that is, whether [s] is a
    StringNumericLiteral: [!isNaN(Number(s))]. *)
Definition string_is_numeric (s : string) : bool :=
  match trim (list_ascii_of_string s) with
  | [] => true
  | (c1 :: c2 :: rest) as l =>
      if (Ascii.eqb c1 "0")%char && (Ascii.eqb c2 "x" || Ascii.eqb c2 "X")%char
      then all_of is_hex_digit rest
      else if (Ascii.eqb c1 "0")%char && (Ascii.eqb c2 "o" || Ascii.eqb c2 "O")%char
      then all_of is_oct_digit rest
      else if (Ascii.eqb c1 "0")%char && (Ascii.eqb c2 "b" || Ascii.eqb c2 "B")%char
      then all_of is_bin_digit rest
      else unsigned_decimal (skip_sign l)
  | l => unsigned_decimal (skip_sign l)
  end.

(** ** Plain objects and arrays *)

Record obj : Type := Obj {
  o_isArray : bool;                    (* Array.isArray *)
  o_length : nat;                      (* the length of an array *)
  o_props : list (string * value);     (* own enumerable properties, in insertion order *)
  o_exotic : bool                      (* new Proxy(o, _) throws on this object *)
}.

Definition empty_obj : obj := Obj false 0 [] false.

Fixpoint alist_get (k : string) (ps : list (string * value)) : option value :=
  match ps with
  | (k', v) :: ps' => if String.eqb k k' then Some v else alist_get k ps'
  | [] => None
  end.

Fixpoint alist_set (k : string) (v : value) (ps : list (string * value))
  : list (string * value) :=
  match ps with
  | (k', v') :: ps' =>
      if String.eqb k k' then (k', v) :: ps' else (k', v') :: alist_set k v ps'
  | [] => [(k, v)]
  end.

Fixpoint alist_remove (k : string) (ps : list (string * value))
  : list (string * value) :=
  match ps with
  | (k', v') :: ps' =>
      if String.eqb k k' then ps' else (k', v') :: alist_remove k ps'
  | [] => []
  end.

(** [o[k]] on a plain object *)
Definition own_get (o : obj) (k : string) : value :=
  if o_isArray o && String.eqb k "length" then VNum (Z.of_nat (o_length o))
  else default VUndef (alist_get k (o_props o)).

(** [k in o] *)
Definition own_has (o : obj) (k : string) : bool :=
  (o_isArray o && String.eqb k "length") || bool_decide (is_Some (alist_get k (o_props o))).

(** Elements at index [n] and above are dropped when an array shrinks. *)
Definition below (n : nat) (kv : string * value) : bool :=
  match key_index (fst kv) with
  | Some i => (i <? n)%nat
  | None => true
  end.

(** [o[k] = v] on a plain object; [None] is the RangeError raised for an
    array length that is not an integer in range. *)
Definition own_set (o : obj) (k : string) (v : value) : option obj :=
  if o_isArray o then
    if String.eqb k "length" then
      match v with
      | VNum n =>
          if ((0 <=? n) && (n <? 4294967296))%Z
          then Some (Obj true (Z.to_nat n)
                       (List.filter (below (Z.to_nat n)) (o_props o)) (o_exotic o))
          else None
      | _ => None
      end
    else
      match key_index k with
      | Some i => Some (Obj true (Nat.max (o_length o) (S i))
                          (alist_set k v (o_props o)) (o_exotic o))
      | None => Some (Obj true (o_length o) (alist_set k v (o_props o)) (o_exotic o))
      end
  else Some (Obj false (o_length o) (alist_set k v (o_props o)) (o_exotic o)).

(** [delete o[k]] in strict code; [None] is the TypeError raised for the
    length of an array, which cannot be deleted. *)
Definition own_delete (o : obj) (k : string) : option obj :=
  if o_isArray o && String.eqb k "length" then None
  else Some (Obj (o_isArray o) (o_length o) (alist_remove k (o_props o)) (o_exotic o)).

Fixpoint insert_sorted (n : nat) (l : list nat) : list nat :=
  match l with
  | m :: l' => if (n <=? m)%nat then n :: l else m :: insert_sorted n l'
  | [] => [n]
  end.

(** [Object.keys(o)]: the index keys in ascending order, then the other
    keys in insertion order. *)
Definition own_keys (o : obj) : list string :=
  let ks := map fst (o_props o) in
  map index_key (foldr insert_sorted [] (omap key_index ks))
  ++ List.filter (fun k => negb (bool_decide (is_Some (key_index k)))) ks.

(** ** Proxies, callbacks and the world *)

(** A Proxy the store created: its target (a plain object), whether it is
    the Level-0 proxy of [createReactiveState] or a nested one of
    [makeReactive], and the [isArray] constant its handler closed over. *)
Record proxy : Type := Proxy {
  p_target : nat;
  p_root : bool;
  p_isArray : bool
}.

Inductive exn : Type :=
| Error (msg : string)
| TypeError
| RangeError
| UserError (n : nat).

(** What a callback does when it is called. *)
Inductive hook_result : Type :=
| Returns (v : value)
| Throws (e : exn).

Record listener : Type := Listener {
  l_id : nat;
  l_body : value -> hook_result
}.

(** StorePlugin: every hook is optional. *)
Record plugin : Type := Plugin {
  pl_id : nat;
  onInit : option hook_result;
  onBeforeUpdate : option (value -> value -> hook_result);
  onAfterUpdate : option (value -> value -> hook_result);
  onSubscribe : option (nat -> hook_result);
  onDestroy : option hook_result
}.

Inductive event : Type :=
| ListenerCall (id : nat) (arg : value)
| InitCall (pid : nat)
| BeforeUpdateCall (pid : nat) (newState oldState : value)
| AfterUpdateCall (pid : nat) (newState oldState : value)
| SubscribeCall (pid : nat) (lid : nat)
| TeardownCall (pid : nat)
| DestroyCall (pid : nat)
| ConsoleError (msg : string)
| ConsoleLog (msg : string) (v : value).

Record world : Type := World {
  heap : list obj;               (* plain objects and arrays, by address *)
  proxies : list proxy;          (* the Proxy objects, by number *)
  proxyCache : gmap nat nat;     (* ReactiveStore.proxyCache: address to proxy *)
  state : value;                 (* StoreCore.state *)
  reactiveState : value;         (* ReactiveStore.reactiveState *)
  listeners : list listener;     (* StoreCore.listeners, in insertion order *)
  plugins : list plugin;         (* StoreCore.plugins *)
  stack : nat;                   (* call-stack room left for recursion *)
  trace : list event             (* calls made so far, oldest first *)
}.

Definition set_heap (h : list obj) (w : world) : world :=
  World h (proxies w) (proxyCache w) (state w) (reactiveState w)
        (listeners w) (plugins w) (stack w) (trace w).

Definition set_proxies (ps : list proxy) (w : world) : world :=
  World (heap w) ps (proxyCache w) (state w) (reactiveState w)
        (listeners w) (plugins w) (stack w) (trace w).

Definition set_proxyCache (c : gmap nat nat) (w : world) : world :=
  World (heap w) (proxies w) c (state w) (reactiveState w)
        (listeners w) (plugins w) (stack w) (trace w).

Definition set_state (s : value) (w : world) : world :=
  World (heap w) (proxies w) (proxyCache w) s (reactiveState w)
        (listeners w) (plugins w) (stack w) (trace w).

Definition set_reactiveState (s : value) (w : world) : world :=
  World (heap w) (proxies w) (proxyCache w) (state w) s
        (listeners w) (plugins w) (stack w) (trace w).

Definition set_listeners (ls : list listener) (w : world) : world :=
  World (heap w) (proxies w) (proxyCache w) (state w) (reactiveState w)
        ls (plugins w) (stack w) (trace w).

Definition set_plugins (ps : list plugin) (w : world) : world :=
  World (heap w) (proxies w) (proxyCache w) (state w) (reactiveState w)
        (listeners w) ps (stack w) (trace w).

Definition emit (e : event) (w : world) : world :=
  World (heap w) (proxies w) (proxyCache w) (state w) (reactiveState w)
        (listeners w) (plugins w) (stack w) (trace w ++ [e]).

(** ** The monad of store code *)

(** A run returns, throws, or leaves the model ([Unmodelled]: the code
    touched something the model does not describe). *)
Inductive result (A : Type) : Type :=
| Ok (a : A) (w : world)
| Throw (e : exn) (w : world)
| Unmodelled.

Arguments Ok {A} a w.
Arguments Throw {A} e w.
Arguments Unmodelled {A}.

Definition M (A : Type) : Type := world -> result A.

Definition ret {A} (a : A) : M A := fun w => Ok a w.

Definition bind {A B} (m : M A) (f : A -> M B) : M B :=
  fun w =>
    match m w with
    | Ok a w' => f a w'
    | Throw e w' => Throw e w'
    | Unmodelled => Unmodelled
    end.

Definition throw {A} (e : exn) : M A := fun w => Throw e w.

Definition unmodelled {A} : M A := fun _ => Unmodelled.

(** [try { m } catch (error) { h error }] *)
Definition try_catch {A} (m : M A) (h : exn -> M A) : M A :=
  fun w =>
    match m w with
    | Throw e w' => h e w'
    | r => r
    end.

Definition gets {A} (f : world -> A) : M A := fun w => Ok (f w) w.

Definition modify (f : world -> world) : M unit := fun w => Ok tt (f w).

Declare Scope js_scope.
Delimit Scope js_scope with js.
Notation "x <- m ;; k" := (bind m (fun x => k))
  (at level 100, m at next level, right associativity) : js_scope.
Notation "m ;;; k" := (bind m (fun _ => k))
  (at level 100, right associativity) : js_scope.
Open Scope js_scope.

Definition console_error (msg : string) : M unit := modify (emit (ConsoleError msg)).

Definition console_log (msg : string) (v : value) : M unit :=
  modify (emit (ConsoleLog msg v)).

(** [for (const x of xs) body(x)] *)
Fixpoint for_each {A} (xs : list A) (body : A -> M unit) : M unit :=
  match xs with
  | x :: xs' => body x ;;; for_each xs' body
  | [] => ret tt
  end.

(** Calling a callback: the call is traced, then it returns or throws. *)
Definition call (e : event) (r : hook_result) : M value :=
  modify (emit e) ;;;
  match r with
  | Returns v => ret v
  | Throws x => throw x
  end.

(** ** Raw access to the heap *)

Definition heap_obj (w : world) (l : nat) : obj := default empty_obj (heap w !! l).

(** [target[prop]] *)
Definition raw_get (l : nat) (prop : string) : M value :=
  gets (fun w => own_get (heap_obj w l) prop).

(** A value whose conversion to an array length the model does not
    describe: anything but a number or undefined. *)
Definition odd_length (v : value) : bool :=
  match v with
  | VNum _ | VNaN | VUndef => false
  | _ => true
  end.

(** [target[prop] = v] *)
Definition raw_set (l : nat) (prop : string) (v : value) : M unit :=
  fun w =>
    if o_isArray (heap_obj w l) && String.eqb prop "length" && odd_length v
    then Unmodelled
    else
      match own_set (heap_obj w l) prop v with
      | Some o => Ok tt (set_heap (<[l := o]> (heap w)) w)
      | None => Throw RangeError w
      end.

(** [prop in target] *)
Definition raw_has (l : nat) (prop : string) : M bool :=
  gets (fun w => own_has (heap_obj w l) prop).

(** [delete target[prop]] *)
Definition raw_delete (l : nat) (prop : string) : M bool :=
  fun w =>
    match own_delete (heap_obj w l) prop with
    | Some o => Ok true (set_heap (<[l := o]> (heap w)) w)
    | None => Throw TypeError w
    end.

(** [new Object]: a fresh plain object or array with the given properties. *)
Definition alloc (o : obj) : M value :=
  fun w => Ok (VRef (length (heap w))) (set_heap (heap w ++ [o]) w).

(** ** reactive.ts: wrapping and the get traps *)

(** [new Proxy(target, handler)]: throws a TypeError on an object that
    cannot be proxied, otherwise yields a fresh Proxy. *)
Definition new_Proxy (target : nat) (root isArray : bool) : M nat :=
  fun w =>
    if o_exotic (heap_obj w target) then Throw TypeError w
    else Ok (length (proxies w)) (set_proxies (proxies w ++ [Proxy target root isArray]) w).

Definition proxy_of (p : nat) : M proxy :=
  fun w =>
    match proxies w !! p with
    | Some pr => Ok pr w
    | None => Unmodelled
    end.

(** [(value as ReactiveObject).__isReactive] for an object [value]: a
    Proxy of the store answers true from its get trap, a plain object
    answers with its own property. *)
Definition read_isReactive (val : value) : M value :=
  match val with
  | VProxy p => proxy_of p ;;; ret (VBool true)
  | VRef l => raw_get l "__isReactive"
  | _ => ret VUndef
  end.

(** [value && typeof value === 'object' && !value.__isReactive] *)
Definition needs_wrap (val : value) : M bool :=
  if truthy val && is_object_type val
  then r <- read_isReactive val ;; ret (negb (truthy r))
  else ret false.

(** ReactiveStore.makeReactive.  A Proxy over a Proxy or over the store
    instance is outside the model; no call site passes one, each tests
    [__isReactive] first. *)
Definition makeReactive (obj : value) : M value :=
  if negb (truthy obj) || negb (is_object_type obj) then ret obj
  else
    match obj with
    | VRef l =>
        cached <- gets (fun w => proxyCache w !! l) ;;
        match cached with
        | Some p => ret (VProxy p)
        | None =>
            try_catch
              (isArray <- gets (fun w => o_isArray (heap_obj w l)) ;;
               proxy <- new_Proxy l false isArray ;;
               modify (fun w => set_proxyCache (<[l := proxy]> (proxyCache w)) w) ;;;
               ret (VProxy proxy))
              (fun error =>
                 console_error "[ReactiveStore] Failed to make object reactive:" ;;;
                 ret obj)
        end
    | _ => unmodelled
    end.

(** The seven methods the get trap of [makeReactive] intercepts. *)
Definition is_mutating_method (prop : string) : bool :=
  String.eqb prop "push" || String.eqb prop "pop" || String.eqb prop "shift"
  || String.eqb prop "unshift" || String.eqb prop "splice"
  || String.eqb prop "sort" || String.eqb prop "reverse".

(** The get trap of the Level-0 proxy. *)
Definition createReactiveState_get (pr : proxy) (prop : string) : M value :=
  if String.eqb prop "__isReactive" then ret (VBool true)
  else if String.eqb prop "__store" then ret VStore
  else
    value <- raw_get (p_target pr) prop ;;
    wrap <- needs_wrap value ;;
    if wrap then
      reactiveValue <- makeReactive value ;;
      raw_set (p_target pr) prop reactiveValue ;;;
      ret reactiveValue
    else ret value.

(** The get trap of a nested proxy.  Reading one of the seven methods of
    an array yields a function, which is not a value of the model: calls
    of these methods are [call_method] below. *)
Definition makeReactive_get (pr : proxy) (prop : string) : M value :=
  if String.eqb prop "__isReactive" then ret (VBool true)
  else if p_isArray pr && is_mutating_method prop then unmodelled
  else
    value <- raw_get (p_target pr) prop ;;
    wrap <- needs_wrap value ;;
    if wrap then
      reactiveValue <- makeReactive value ;;
      raw_set (p_target pr) prop reactiveValue ;;;
      ret reactiveValue
    else ret value.

(** [v[prop]] *)
Definition Get (v : value) (prop : string) : M value :=
  match v with
  | VRef l => raw_get l prop
  | VProxy p =>
      pr <- proxy_of p ;;
      if p_root pr then createReactiveState_get pr prop else makeReactive_get pr prop
  | VUndef | VNull => throw TypeError
  | VBool _ | VNum _ | VNaN => ret VUndef
  | VStr _ | VStore => unmodelled
  end.

(** [Object.keys(v)]; the handlers have no ownKeys trap, so a Proxy lists
    the keys of its target. *)
Definition Object_keys (v : value) : M (list string) :=
  match v with
  | VRef l => gets (fun w => own_keys (heap_obj w l))
  | VProxy p => pr <- proxy_of p ;; gets (fun w => own_keys (heap_obj w (p_target pr)))
  | VUndef | VNull => throw TypeError
  | VBool _ | VNum _ | VNaN => ret []
  | VStr _ | VStore => unmodelled
  end.

(** [Array.isArray(v)], which looks through a Proxy. *)
Definition Array_isArray (v : value) : M bool :=
  match v with
  | VRef l => gets (fun w => o_isArray (heap_obj w l))
  | VProxy p => pr <- proxy_of p ;; gets (fun w => o_isArray (heap_obj w (p_target pr)))
  | _ => ret false
  end.

(** ** utils.ts *)

Definition includes (keys : list string) (key : string) : bool :=
  existsb (String.eqb key) keys.

(** deepEqual with room for [depth] nested calls; with no room left the
    engine raises its RangeError for an exhausted call stack. *)
Fixpoint deepEqual_depth (depth : nat) (a b : value) : M bool :=
  match depth with
  | O => throw RangeError
  | S depth' =>
      if strict_eq a b then ret true
      else if is_nullish a || is_nullish b then ret false
      else if negb (is_object_type a) || negb (is_object_type b) then ret false
      else
        arrA <- Array_isArray a ;;
        arrB <- Array_isArray b ;;
        if negb (Bool.eqb arrA arrB) then ret false
        else
          keysA <- Object_keys a ;;
          keysB <- Object_keys b ;;
          if negb (length keysA =? length keysB)%nat then ret false
          else
            (fix loop (keys : list string) : M bool :=
               match keys with
               | [] => ret true
               | key :: keys' =>
                   if negb (includes keysB key) then ret false
                   else
                     valueA <- Get a key ;;
                     valueB <- Get b key ;;
                     eq <- deepEqual_depth depth' valueA valueB ;;
                     if negb eq then ret false else loop keys'
               end) keysA
  end.

Definition deepEqual (a b : value) : M bool :=
  depth <- gets stack ;;
  deepEqual_depth depth a b.

(** ** storeCore.ts *)

Definition updater : Type := value -> M value.

Module StoreCore.

(** [new StoreCore(initialState, plugins)], over a heap that holds the
    initial state; plugin factories are taken as already applied. *)
Definition create (h : list obj) (initialState : value) (ps : list plugin)
           (room : nat) : result unit :=
  for_each ps
    (fun plugin =>
       match onInit plugin with
       | Some r => call (InitCall (pl_id plugin)) r ;;; ret tt
       | None => ret tt
       end)
    (World h [] ∅ initialState VUndef [] ps room []).

Definition getState : M value := gets state.

(** The loop over [this.plugins] that calls [onBeforeUpdate]. *)
Fixpoint before_update (ps : list plugin) (newState oldState : value) : M value :=
  match ps with
  | [] => ret newState
  | plugin :: ps' =>
      newState' <-
        try_catch
          (match onBeforeUpdate plugin with
           | Some f =>
               result <- call (BeforeUpdateCall (pl_id plugin) newState oldState)
                              (f newState oldState) ;;
               ret (if negb (strict_eq result VUndef) then result else newState)
           | None => ret newState
           end)
          (fun error =>
             console_error "[StoreCore] Error in plugin onBeforeUpdate:" ;;;
             throw error) ;;
      before_update ps' newState' oldState
  end.

(** [typeof newState === 'object' && newState !== null
      ? !deepEqual(newState, oldState) : newState !== oldState] *)
Definition hasChanged (newState oldState : value) : M bool :=
  if is_object_type newState && negb (strict_eq newState VNull)
  then eq <- deepEqual newState oldState ;; ret (negb eq)
  else ret (negb (strict_eq newState oldState)).

Definition setState (updater : updater) : M unit :=
  try_catch
    (oldState <- gets state ;;
     newState <- updater oldState ;;
     (if is_nullish newState
      then throw (Error "State cannot be null or undefined")
      else ret tt) ;;;
     ps <- gets plugins ;;
     newState <- before_update ps newState oldState ;;
     hasChanged <- hasChanged newState oldState ;;
     if hasChanged then
       modify (set_state newState) ;;;
       try_catch
         (ls <- gets listeners ;;
          for_each ls
            (fun listener =>
               try_catch
                 (call (ListenerCall (l_id listener) newState)
                       (l_body listener newState) ;;; ret tt)
                 (fun error => console_error "[StoreCore] Error in listener:")))
         (fun error => console_error "[StoreCore] Error notifying listeners:") ;;;
       ps <- gets plugins ;;
       for_each ps
         (fun p =>
            try_catch
              (match onAfterUpdate p with
               | Some f =>
                   call (AfterUpdateCall (pl_id p) newState oldState)
                        (f newState oldState) ;;; ret tt
               | None => ret tt
               end)
              (fun error => console_error "[StoreCore] Error in plugin onAfterUpdate:"))
     else ret tt)
    (fun error =>
       console_error "[StoreCore] Error in setState:" ;;;
       throw error).

(** [subscribe] yields the unsubscribe closure, given here by what it
    closed over: the plugins whose [onSubscribe] returned a teardown. *)
Definition subscribe (listener : listener) : M (list nat) :=
  modify (fun w =>
            if existsb (fun l => Nat.eqb (l_id l) (l_id listener)) (listeners w)
            then w
            else set_listeners (listeners w ++ [listener]) w) ;;;
  ps <- gets plugins ;;
  (fix map_hooks (ps : list plugin) : M (list nat) :=
     match ps with
     | [] => ret []
     | plugin :: ps' =>
         r <- match onSubscribe plugin with
              | Some f => call (SubscribeCall (pl_id plugin) (l_id listener))
                               (f (l_id listener))
              | None => ret VUndef
              end ;;
         rest <- map_hooks ps' ;;
         ret (if truthy r then pl_id plugin :: rest else rest)
     end) ps.

(** The closure [subscribe] returned. *)
Definition unsubscribe (listener : listener) (pluginUnsubscribes : list nat) : M unit :=
  modify (fun w =>
            set_listeners
              (List.filter (fun l => negb (Nat.eqb (l_id l) (l_id listener))) (listeners w))
              w) ;;;
  for_each pluginUnsubscribes (fun pid => modify (emit (TeardownCall pid))).

Definition destroy : M unit :=
  modify (set_listeners []) ;;;
  ps <- gets plugins ;;
  for_each ps
    (fun plugin =>
       match onDestroy plugin with
       | Some r => call (DestroyCall (pl_id plugin)) r ;;; ret tt
       | None => ret tt
       end).

Definition notifyListeners : M unit :=
  ls <- gets listeners ;;
  for_each ls
    (fun listener =>
       s <- gets state ;;
       call (ListenerCall (l_id listener) s) (l_body listener s) ;;; ret tt).

End StoreCore.

(** light.ts *)
Definition createLightStore (h : list obj) (initialState : value) (room : nat)
  : result unit :=
  StoreCore.create h initialState [] room.

(** ** reactive.ts: the set and deleteProperty traps *)

(** The set trap of the Level-0 proxy. *)
Definition createReactiveState_set (pr : proxy) (prop : string) (val : value) : M bool :=
  oldValue <- raw_get (p_target pr) prop ;;
  wrap <- needs_wrap val ;;
  reactiveValue <- (if wrap then makeReactive val else ret val) ;;
  raw_set (p_target pr) prop reactiveValue ;;;
  eq <- deepEqual oldValue reactiveValue ;;
  (if negb eq then StoreCore.notifyListeners else ret tt) ;;;
  ret true.

(** [typeof prop === 'string' && !isNaN(Number(prop)) && prop !== 'NaN'];
    every key of the model is a string. *)
Definition isNumericIndex (prop : string) : bool :=
  string_is_numeric prop && negb (String.eqb prop "NaN").

(** The set trap of a nested proxy. *)
Definition makeReactive_set (pr : proxy) (prop : string) (val : value) : M bool :=
  oldValue <- raw_get (p_target pr) prop ;;
  wrap <- needs_wrap val ;;
  reactiveValue <- (if wrap then makeReactive val else ret val) ;;
  raw_set (p_target pr) prop reactiveValue ;;;
  shouldNotify <-
    (if p_isArray pr
     then if isNumericIndex prop then ret true
          else eq <- deepEqual oldValue reactiveValue ;; ret (negb eq)
     else eq <- deepEqual oldValue reactiveValue ;; ret (negb eq)) ;;
  (if shouldNotify then StoreCore.notifyListeners else ret tt) ;;;
  ret true.

(** The deleteProperty trap, the same in both handlers. *)
Definition handler_deleteProperty (pr : proxy) (prop : string) : M bool :=
  hasProperty <- raw_has (p_target pr) prop ;;
  result <- raw_delete (p_target pr) prop ;;
  (if hasProperty && result then StoreCore.notifyListeners else ret tt) ;;;
  ret result.

(** [v[prop] = val] in strict code *)
Definition Set_ (v : value) (prop : string) (val : value) : M unit :=
  match v with
  | VRef l => raw_set l prop val
  | VProxy p =>
      pr <- proxy_of p ;;
      ok <- (if p_root pr then createReactiveState_set pr prop val
             else makeReactive_set pr prop val) ;;
      if ok then ret tt else throw TypeError
  | VStore => unmodelled
  | _ => throw TypeError
  end.

(** [delete v[prop]] in strict code *)
Definition Delete (v : value) (prop : string) : M unit :=
  match v with
  | VRef l => raw_delete l prop ;;; ret tt
  | VProxy p =>
      pr <- proxy_of p ;;
      ok <- handler_deleteProperty pr prop ;;
      if ok then ret tt else throw TypeError
  | VUndef | VNull => throw TypeError
  | VBool _ | VNum _ | VNaN => ret tt
  | VStr _ | VStore => unmodelled
  end.

(** [prop in v]; the handlers have no has trap. *)
Definition Has (v : value) (prop : string) : M bool :=
  match v with
  | VRef l => raw_has l prop
  | VProxy p => pr <- proxy_of p ;; raw_has (p_target pr) prop
  | VStore => unmodelled
  | _ => throw TypeError
  end.

(** ** The mutating methods of Array.prototype

    Each method is the algorithm of the language standard over the
    operations Get, Set, Delete and Has of its receiver, so that it runs on
    a plain array and on a Proxy alike. *)

Definition comparator : Type := value -> value -> M Z.

Inductive array_call : Type :=
| push (items : list value)
| pop
| shift
| unshift (items : list value)
| splice (start : Z) (deleteCount : option Z) (items : list value)
| sort (comparefn : option comparator)
| reverse.

Definition method_name (c : array_call) : string :=
  match c with
  | push _ => "push"
  | pop => "pop"
  | shift => "shift"
  | unshift _ => "unshift"
  | splice _ _ _ => "splice"
  | sort _ => "sort"
  | reverse => "reverse"
  end.

Definition ToLength (v : value) : M nat :=
  match v with
  | VNum n => ret (Z.to_nat n)
  | VUndef | VNull | VNaN => ret 0
  | VBool b => ret (if b then 1 else 0)
  | _ => unmodelled
  end.

Definition LengthOfArrayLike (O : value) : M nat :=
  v <- Get O "length" ;; ToLength v.

Definition set_length (O : value) (n : nat) : M unit :=
  Set_ O "length" (VNum (Z.of_nat n)).

Fixpoint set_items (O : value) (k : nat) (items : list value) : M unit :=
  match items with
  | [] => ret tt
  | E :: items' => Set_ O (index_key k) E ;;; set_items O (S k) items'
  end.

(** One step of a shifting loop: copy index [from] to index [to], or
    delete [to] when [from] is a hole. *)
Definition move (O : value) (from to : nat) : M unit :=
  fromPresent <- Has O (index_key from) ;;
  if fromPresent
  then fromValue <- Get O (index_key from) ;; Set_ O (index_key to) fromValue
  else Delete O (index_key to).

Definition Array_push (O : value) (items : list value) : M value :=
  len <- LengthOfArrayLike O ;;
  set_items O len items ;;;
  set_length O (len + length items) ;;;
  ret (VNum (Z.of_nat (len + length items))).

Definition Array_pop (O : value) : M value :=
  len <- LengthOfArrayLike O ;;
  match len with
  | 0 => set_length O 0 ;;; ret VUndef
  | S newLen =>
      element <- Get O (index_key newLen) ;;
      Delete O (index_key newLen) ;;;
      set_length O newLen ;;;
      ret element
  end.

Definition Array_shift (O : value) : M value :=
  len <- LengthOfArrayLike O ;;
  match len with
  | 0 => set_length O 0 ;;; ret VUndef
  | S n =>
      first <- Get O (index_key 0) ;;
      for_each (seq 1 n) (fun k => move O k (k - 1)) ;;;
      Delete O (index_key n) ;;;
      set_length O n ;;;
      ret first
  end.

Definition Array_unshift (O : value) (items : list value) : M value :=
  len <- LengthOfArrayLike O ;;
  let argCount := length items in
  (if (0 <? argCount)%nat
   then for_each (rev (seq 1 len)) (fun k => move O (k - 1) (k + argCount - 1)) ;;;
        set_items O 0 items
   else ret tt) ;;;
  set_length O (len + argCount) ;;;
  ret (VNum (Z.of_nat (len + argCount))).

Definition Array_reverse (O : value) : M value :=
  len <- LengthOfArrayLike O ;;
  for_each (seq 0 (len / 2))
    (fun lower =>
       let upper := len - lower - 1 in
       lowerExists <- Has O (index_key lower) ;;
       lowerValue <- (if lowerExists then Get O (index_key lower) else ret VUndef) ;;
       upperExists <- Has O (index_key upper) ;;
       upperValue <- (if upperExists then Get O (index_key upper) else ret VUndef) ;;
       match lowerExists, upperExists with
       | true, true =>
           Set_ O (index_key lower) upperValue ;;; Set_ O (index_key upper) lowerValue
       | false, true =>
           Set_ O (index_key lower) upperValue ;;; Delete O (index_key upper)
       | true, false =>
           Delete O (index_key lower) ;;; Set_ O (index_key upper) lowerValue
       | false, false => ret tt
       end) ;;;
  ret O.

Definition Array_splice (O : value) (start : Z) (deleteCount : option Z)
           (items : list value) : M value :=
  len <- LengthOfArrayLike O ;;
  let actualStart :=
    if (start <? 0)%Z then Z.to_nat (Z.max (Z.of_nat len + start) 0)
    else Nat.min (Z.to_nat start) len in
  let itemCount := length items in
  let actualDeleteCount :=
    match deleteCount with
    | None => len - actualStart
    | Some dc => Nat.min (Z.to_nat (Z.max dc 0)) (len - actualStart)
    end in
  A <- alloc (Obj true 0 [] false) ;;
  for_each (seq 0 actualDeleteCount)
    (fun k =>
       fromPresent <- Has O (index_key (actualStart + k)) ;;
       if fromPresent
       then fromValue <- Get O (index_key (actualStart + k)) ;;
            Set_ A (index_key k) fromValue
       else ret tt) ;;;
  set_length A actualDeleteCount ;;;
  (if (itemCount <? actualDeleteCount)%nat then
     for_each (seq actualStart (len - actualDeleteCount - actualStart))
       (fun k => move O (k + actualDeleteCount) (k + itemCount)) ;;;
     for_each (rev (seq (len - actualDeleteCount + itemCount) (actualDeleteCount - itemCount)))
       (fun k => Delete O (index_key k))
   else if (actualDeleteCount <? itemCount)%nat then
     for_each (rev (seq (S actualStart) (len - actualDeleteCount - actualStart)))
       (fun k => move O (k + actualDeleteCount - 1) (k + itemCount - 1))
   else ret tt) ;;;
  set_items O actualStart items ;;;
  set_length O (len - actualDeleteCount + itemCount) ;;;
  ret A.

(** ToString, for the default order of [sort]. *)
Definition ToString (v : value) : M string :=
  match v with
  | VUndef => ret "undefined"
  | VNull => ret "null"
  | VBool b => ret (if b then "true" else "false")
  | VNum n => ret (NilEmpty.string_of_int (Z.to_int n))
  | VNaN => ret "NaN"
  | VStr s => ret s
  | _ => unmodelled
  end.

Fixpoint string_ltb (s t : string) : bool :=
  match s, t with
  | EmptyString, String _ _ => true
  | String c s', String d t' =>
      (nat_of_ascii c <? nat_of_ascii d)%nat
      || ((nat_of_ascii c =? nat_of_ascii d)%nat && string_ltb s' t')
  | _, _ => false
  end.

(** SortCompare *)
Definition SortCompare (comparefn : option comparator) (x y : value) : M Z :=
  match x, y with
  | VUndef, VUndef => ret 0%Z
  | VUndef, _ => ret 1%Z
  | _, VUndef => ret (-1)%Z
  | _, _ =>
      match comparefn with
      | Some f => f x y
      | None =>
          xs <- ToString x ;;
          ys <- ToString y ;;
          ret (if string_ltb xs ys then (-1)%Z else if string_ltb ys xs then 1%Z else 0%Z)
      end
  end.

Fixpoint sort_insert (comparefn : option comparator) (x : value) (l : list value)
  : M (list value) :=
  match l with
  | [] => ret [x]
  | y :: l' =>
      c <- SortCompare comparefn x y ;;
      if (c <=? 0)%Z then ret (x :: l)
      else rest <- sort_insert comparefn x l' ;; ret (y :: rest)
  end.

(** A stable sort; the standard leaves the sequence of comparisons to the
    engine. *)
Fixpoint sort_list (comparefn : option comparator) (l : list value) : M (list value) :=
  match l with
  | [] => ret []
  | x :: l' => sorted <- sort_list comparefn l' ;; sort_insert comparefn x sorted
  end.

Fixpoint collect (O : value) (ks : list nat) : M (list value) :=
  match ks with
  | [] => ret []
  | k :: ks' =>
      present <- Has O (index_key k) ;;
      if present
      then kValue <- Get O (index_key k) ;; rest <- collect O ks' ;; ret (kValue :: rest)
      else collect O ks'
  end.

Definition Array_sort (O : value) (comparefn : option comparator) : M value :=
  len <- LengthOfArrayLike O ;;
  items <- collect O (seq 0 len) ;;
  sorted <- sort_list comparefn items ;;
  set_items O 0 sorted ;;;
  for_each (seq (length sorted) (len - length sorted)) (fun j => Delete O (index_key j)) ;;;
  ret O.

(** [Array.prototype[name].apply(this, args)] *)
Definition apply_method (c : array_call) (this : value) : M value :=
  match c with
  | push items => Array_push this items
  | pop => Array_pop this
  | shift => Array_shift this
  | unshift items => Array_unshift this items
  | splice start deleteCount items => Array_splice this start deleteCount items
  | sort comparefn => Array_sort this comparefn
  | reverse => Array_reverse this
  end.

(** [recv.name(...args)] for one of the seven methods.  On a nested proxy
    of an array the get trap answers with its wrapper, which applies the
    original method to the target and then notifies.  The get trap of the
    Level-0 proxy answers with [target[prop]], the method itself, which is
    then called with the proxy as [this]. *)
Definition call_method (recv : value) (c : array_call) : M value :=
  match recv with
  | VRef l =>
      isArray <- Array_isArray recv ;;
      if isArray then apply_method c recv else throw TypeError
  | VProxy p =>
      pr <- proxy_of p ;;
      if p_root pr then
        isArray <- Array_isArray recv ;;
        if isArray then apply_method c recv else throw TypeError
      else if p_isArray pr && is_mutating_method (method_name c) then
        result <- apply_method c (VRef (p_target pr)) ;;
        StoreCore.notifyListeners ;;;
        ret result
      else throw TypeError
  | VStore => unmodelled
  | _ => throw TypeError
  end.

(** ** reactive.ts: the store *)

Module ReactiveStore.

Definition createReactiveState (st : value) : M value :=
  try_catch
    (isArray <- Array_isArray st ;;
     match st with
     | VRef l => proxy <- new_Proxy l true isArray ;; ret (VProxy proxy)
     | VProxy _ | VStore => unmodelled
     | _ => throw TypeError
     end)
    (fun error =>
       console_error "[ReactiveStore] Failed to create reactive state:" ;;;
       ret st).

(** [new ReactiveStore(initialState)] *)
Definition create (h : list obj) (initialState : value) (room : nat) : result unit :=
  match StoreCore.create h initialState [] room with
  | Ok _ w =>
      (rs <- createReactiveState initialState ;;
       modify (set_reactiveState rs)) w
  | r => r
  end.

Definition getState : M value := gets reactiveState.

(** The body of [Object.keys(newState).forEach], over the keys left. *)
Fixpoint write_keys (keys : list string) (newState : value) (hasChanges : bool)
  : M bool :=
  match keys with
  | [] => ret hasChanges
  | key :: keys' =>
      rs <- gets reactiveState ;;
      oldValue <- Get rs key ;;
      newValue <- Get newState key ;;
      eq <- deepEqual oldValue newValue ;;
      hasChanges' <-
        (if negb eq
         then rs <- gets reactiveState ;; Set_ rs key newValue ;;; ret true
         else ret hasChanges) ;;
      write_keys keys' newState hasChanges'
  end.

Definition setState (updater : updater) : M unit :=
  try_catch
    (rs <- gets reactiveState ;;
     newState <- updater rs ;;
     keys <- Object_keys newState ;;
     hasChanges <- write_keys keys newState false ;;
     if hasChanges then StoreCore.notifyListeners else ret tt)
    (fun error =>
       console_error "[ReactiveStore] Error in setState:" ;;;
       throw error).

Definition reactive : M value := gets reactiveState.

Definition setProperty (key : string) (val : value) : M unit :=
  rs <- gets reactiveState ;; Set_ rs key val.

Definition getProperty (key : string) : M value :=
  rs <- gets reactiveState ;; Get rs key.

End ReactiveStore.

Definition createReactiveStore := ReactiveStore.create.

(** ** full.ts and middleware.ts *)

Definition NextFn : Type := updater -> M unit.
Definition MiddlewareFn : Type := NextFn -> NextFn.

(** The body of a middleware, [(updater) => { ... }] with its store and its
    [next] in scope, as the sequence of what it does: read the state of the
    store, write to the console, call [next], throw, return. *)
Inductive mw_script : Type :=
| mw_return
| mw_throw (e : exn)
| mw_getState (k : value -> mw_script)
| mw_log (msg : string) (v : value) (k : mw_script)
| mw_next (u : updater) (k : mw_script).

Definition Middleware : Type := updater -> mw_script.

Fixpoint run_script (s : mw_script) (next : NextFn) : M unit :=
  match s with
  | mw_return => ret tt
  | mw_throw e => throw e
  | mw_getState k => st <- StoreCore.getState ;; run_script (k st) next
  | mw_log msg v k => console_log msg v ;;; run_script k next
  | mw_next u k => next u ;;; run_script k next
  end.

(** [mw(store)], a MiddlewareFn *)
Definition bind_store (mw : Middleware) : MiddlewareFn :=
  fun next updater => run_script (mw updater) next.

Definition loggerMiddleware : Middleware :=
  fun updater =>
    mw_getState (fun before =>
    mw_log "Previous state:" before
    (mw_next updater
    (mw_getState (fun after =>
    mw_log "Next state:" after
    mw_return)))).

Module StoreFull.

Record t : Type := Make {
  core : world;                       (* the fields of StoreCore *)
  middlewares : list Middleware
}.

Definition create (h : list obj) (initialState : value) (room : nat) : result unit :=
  StoreCore.create h initialState [] room.

Definition use (middleware : Middleware) (s : t) : t :=
  Make (core s) (middlewares s ++ [middleware]).

Definition setState (updater : updater) (s : t) : result unit :=
  if (length (middlewares s) =? 0)%nat then StoreCore.setState updater (core s)
  else
    let chain := map bind_store (middlewares s) in
    let composed := foldr (fun mw next => mw next) StoreCore.setState chain in
    composed updater (core s).

End StoreFull.

Definition createFullStore := StoreFull.create.

(** ** Observations on a run *)

Definition add_trace (evs : list event) (w : world) : world :=
  World (heap w) (proxies w) (proxyCache w) (state w) (reactiveState w)
        (listeners w) (plugins w) (stack w) (trace w ++ evs).

Definition is_listener_call (e : event) : bool :=
  match e with ListenerCall _ _ => true | _ => false end.

Definition is_console_error (e : event) : bool :=
  match e with ConsoleError _ => true | _ => false end.

Definition is_hook_call (e : event) : bool :=
  match e with
  | BeforeUpdateCall _ _ _ | AfterUpdateCall _ _ _ => true
  | _ => false
  end.

(** The calls to listeners in a trace, in order. *)
Definition listener_calls (tr : list event) : list event :=
  List.filter is_listener_call tr.

(** How often listener [id] was called. *)
Definition times_called (id : nat) (tr : list event) : nat :=
  length (List.filter (fun e => match e with
                                | ListenerCall i _ => Nat.eqb i id
                                | _ => false
                                end) tr).

(** What the notification loop of [StoreCore.setState] leaves in the
    trace: every listener is called with the new state, and one that
    throws is reported. *)
Definition listener_events (newState : value) (ls : list listener) : list event :=
  flat_map
    (fun l =>
       ListenerCall (l_id l) newState ::
       match l_body l newState with
       | Throws _ => [ConsoleError "[StoreCore] Error in listener:"]
       | Returns _ => []
       end) ls.

Definition after_events (ps : list plugin) (newState oldState : value) : list event :=
  flat_map
    (fun p =>
       match onAfterUpdate p with
       | Some f =>
           AfterUpdateCall (pl_id p) newState oldState ::
           match f newState oldState with
           | Throws _ => [ConsoleError "[StoreCore] Error in plugin onAfterUpdate:"]
           | Returns _ => []
           end
       | None => []
       end) ps.

(** What the [onBeforeUpdate] loop does: the calls it makes and the state
    it hands on, or the exception of the first hook that throws. *)
Fixpoint before_run (ps : list plugin) (newState oldState : value)
  : list event * (value + exn) :=
  match ps with
  | [] => ([], inl newState)
  | p :: ps' =>
      match onBeforeUpdate p with
      | Some f =>
          let c := BeforeUpdateCall (pl_id p) newState oldState in
          match f newState oldState with
          | Returns r =>
              let '(evs, out) :=
                before_run ps' (if negb (strict_eq r VUndef) then r else newState) oldState in
              (c :: evs, out)
          | Throws e =>
              ([c; ConsoleError "[StoreCore] Error in plugin onBeforeUpdate:"], inr e)
          end
      | None => before_run ps' newState oldState
      end
  end.

(** What [destroy] does with the hooks: the calls it makes, and the
    exception of the first [onDestroy] that throws. *)
Fixpoint destroy_run (ps : list plugin) : list event * option exn :=
  match ps with
  | [] => ([], None)
  | p :: ps' =>
      match onDestroy p with
      | Some (Returns _) =>
          let '(evs, out) := destroy_run ps' in (DestroyCall (pl_id p) :: evs, out)
      | Some (Throws e) => ([DestroyCall (pl_id p)], Some e)
      | None => destroy_run ps'
      end
  end.

(** A callback that only works on the heap: it may allocate and mutate
    objects but leaves the fields of the store and the trace alone. *)
Definition heap_only {A} (m : M A) : Prop :=
  forall w,
    match m w with
    | Ok _ w' | Throw _ w' => exists h, w' = set_heap h w
    | Unmodelled => True
    end.


(** The invariant of the proxy cache: a cached entry is a nested proxy of
    its key, and every nested proxy is the cached entry of its target. *)
Definition cache_wf (w : world) : Prop :=
  (forall l p, proxyCache w !! l = Some p ->
               exists a, proxies w !! p = Some (Proxy l false a))
  /\ (forall p pr, proxies w !! p = Some pr -> p_root pr = false ->
                   proxyCache w !! p_target pr = Some p).

(** A run that leaves the fields of the store alone and adds nothing to
    the trace but console errors. *)
Definition quiet (w w' : world) : Prop :=
  state w' = state w /\ reactiveState w' = reactiveState w
  /\ listeners w' = listeners w /\ plugins w' = plugins w
  /\ stack w' = stack w
  /\ exists evs, trace w' = trace w ++ evs /\ forallb is_console_error evs = true.

(** The events a run added to the trace it started from. *)
Definition new_events (w w' : world) : list event :=
  drop (length (trace w)) (trace w').

Definition throwing_listeners (newState : value) (ls : list listener) : list listener :=
  List.filter (fun l => match l_body l newState with Throws _ => true | Returns _ => false end) ls.

Definition is_listener_error (e : event) : bool :=
  match e with
  | ConsoleError msg => String.eqb msg "[StoreCore] Error in listener:"
  | _ => false
  end.

(** Every [onAfterUpdate] hook returns on these arguments. *)
Definition after_returns (ps : list plugin) (newState oldState : value) : bool :=
  forallb
    (fun p =>
       match onAfterUpdate p with
       | Some f => match f newState oldState with Returns _ => true | Throws _ => false end
       | None => true
       end) ps.

(** ** Example stores *)

Definition empty_world : world := World [] [] ∅ VUndef VUndef [] [] 0 [].

Definition world_of {A} (r : result A) : world :=
  match r with
  | Ok _ w | Throw _ w => w
  | Unmodelled => empty_world
  end.

(** [r] and then [m], when [r] returned. *)
Definition and_then {A B} (r : result A) (m : M B) : result B :=
  match r with
  | Ok _ w => m w
  | Throw e w => Throw e w
  | Unmodelled => Unmodelled
  end.

Fixpoint read_all (s : value) (keys : list string) : M (list (string * value)) :=
  match keys with
  | [] => ret []
  | key :: keys' =>
      v <- Get s key ;;
      rest <- read_all s keys' ;;
      ret ((key, v) :: rest)
  end.

(** [({...s, [key]: val})] *)
Definition spread_with (s : value) (key : string) (val : value) : M value :=
  keys <- Object_keys s ;;
  props <- read_all s keys ;;
  alloc (Obj false 0 (alist_set key val props) false).

(** [s => ({...s, count: n})] *)
Definition set_count (n : Z) : updater := fun s => spread_with s "count" (VNum n).

Definition quiet_listener (id : nat) : listener :=
  Listener id (fun _ => Returns VUndef).

Definition failing_listener (id : nat) : listener :=
  Listener id (fun _ => Throws (UserError id)).

(** The state [{count: 0}]. *)
Definition counter_heap : list obj := [Obj false 0 [("count", VNum 0)] false].

(** [createLightStore({count: 0})] with one listener. *)
Definition light_counter : world :=
  world_of (and_then (createLightStore counter_heap (VRef 0) 16)
                     (StoreCore.subscribe (quiet_listener 1))).

(** [createLightStore({count: 0})] with a listener that throws, then one
    that does not. *)
Definition light_counter_two : world :=
  world_of (and_then (and_then (createLightStore counter_heap (VRef 0) 16)
                               (StoreCore.subscribe (failing_listener 1)))
                     (StoreCore.subscribe (quiet_listener 2))).

(** A plugin with all the update hooks and an [onDestroy]. *)
Definition watcher : plugin :=
  Plugin 7 None
         (Some (fun _ _ => Returns VUndef))
         (Some (fun _ _ => Returns VUndef))
         None
         (Some (Returns VUndef)).

(** [new StoreCore({count: 0}, [watcher])] with one listener. *)
Definition watched_counter : world :=
  world_of (and_then (StoreCore.create counter_heap (VRef 0) [watcher] 16)
                     (StoreCore.subscribe (quiet_listener 1))).

(** A run that changes nothing when the world it starts from has no
    proxies. *)
Definition unless_proxies (w w' : world) : Prop := proxies w = [] -> w' = w.

(** The state [{count: 0, label: "a"}]. *)
Definition labelled_heap : list obj :=
  [Obj false 0 [("count", VNum 0); ("label", VStr "a")] false].

(** [createReactiveStore({count: 0, label: "a"})] with one listener. *)
Definition reactive_counter : world :=
  world_of (and_then (createReactiveStore labelled_heap (VRef 0) 16)
                     (StoreCore.subscribe (quiet_listener 1))).

(** The state [[1, 2, 3]]. *)
Definition numbers_heap : list obj :=
  [Obj true 3 [("0", VNum 1); ("1", VNum 2); ("2", VNum 3)] false].

(** [createReactiveStore([1, 2, 3])] with one listener. *)
Definition reactive_numbers : world :=
  world_of (and_then (createReactiveStore numbers_heap (VRef 0) 16)
                     (StoreCore.subscribe (quiet_listener 1))).

(** The state [{items: [1, 2, 3]}]. *)
Definition items_heap : list obj :=
  [Obj false 0 [("items", VRef 1)] false;
   Obj true 3 [("0", VNum 1); ("1", VNum 2); ("2", VNum 3)] false].

(** [createReactiveStore({items: [1, 2, 3]})] with one listener. *)
Definition reactive_items : world :=
  world_of (and_then (createReactiveStore items_heap (VRef 0) 16)
                     (StoreCore.subscribe (quiet_listener 1))).






(** A middleware body that never calls [next]. *)
Fixpoint never_calls_next (s : mw_script) : Prop :=
  match s with
  | mw_return | mw_throw _ => True
  | mw_getState k => forall v, never_calls_next (k v)
  | mw_log _ _ k => never_calls_next k
  | mw_next _ _ => False
  end.

(** A middleware body that never throws. *)
Fixpoint never_throws (s : mw_script) : Prop :=
  match s with
  | mw_return => True
  | mw_throw _ => False
  | mw_getState k => forall v, never_throws (k v)
  | mw_log _ _ k => never_throws k
  | mw_next _ k => never_throws k
  end.

Definition is_console_log (e : event) : bool :=
  match e with ConsoleLog _ _ => true | _ => false end.

(** A continuation that only writes to the console, whether it returns or
    throws. *)
Definition inert (n : M unit) : Prop :=
  forall w, exists logs,
    forallb is_console_log logs = true
    /\ (n w = Ok tt (add_trace logs w) \/ exists e, n w = Throw e (add_trace logs w)).

(** A continuation that only writes to the console and returns. *)
Definition inert_ok (n : M unit) : Prop :=
  forall w, exists logs,
    forallb is_console_log logs = true /\ n w = Ok tt (add_trace logs w).

(** [(next) => (updater) => {}]: a middleware that cancels every update. *)
Definition blockingMiddleware : Middleware := fun _ => mw_return.

(** [createFullStore({count: 0})] with one listener, then
    [use(loggerMiddleware)], [use(blockingMiddleware)],
    [use(loggerMiddleware)]. *)
Definition blocked_counter : StoreFull.t :=
  StoreFull.use loggerMiddleware
    (StoreFull.use blockingMiddleware
       (StoreFull.use loggerMiddleware
          (StoreFull.Make
             (world_of (and_then (createFullStore counter_heap (VRef 0) 16)
                                 (StoreCore.subscribe (quiet_listener 1))))
             []))).

(** What the two get traps share once the key is an ordinary one: read
    the property of the target and wrap its value when it is an object
    that is not reactive yet. *)
Definition wrap_on_read (target : nat) (prop : string) : M value :=
  value <- raw_get target prop ;;
  wrap <- needs_wrap value ;;
  if wrap then
    reactiveValue <- makeReactive value ;;
    raw_set target prop reactiveValue ;;;
    ret reactiveValue
  else ret value.

Definition keeps_cache (w w' : world) : Prop := cache_wf w -> cache_wf w'.

(** The proxy table and the cache only grow. *)
Definition grows (w w' : world) : Prop :=
  (exists more, proxies w' = proxies w ++ more)
  /\ (forall l p, proxyCache w !! l = Some p -> proxyCache w' !! l = Some p).

(** [createReactiveStore({items: [1, 2, 3]})], before anything is read. *)
Definition fresh_items : world :=
  world_of (createReactiveStore items_heap (VRef 0) 16).

(** A run keeps the relation [P] between the world it starts from and
    the world it ends in, whether it returns or throws. *)
Definition pres (P : world -> world -> Prop) {A} (m : M A) : Prop :=
  forall w,
    match m w with
    | Ok _ w' | Throw _ w' => P w w'
    | Unmodelled => True
    end.

(** The [onDestroy] calls of a [destroy] in which no hook throws. *)
Definition destroy_calls (ps : list plugin) : list event :=
  flat_map
    (fun p => match onDestroy p with
              | Some _ => [DestroyCall (pl_id p)]
              | None => []
              end) ps.

(** ** The earlier StoreCore

    The repository also holds an earlier copy of storeCore.ts, from before
    utils.ts existed: its setState compares by reference and calls the
    listeners and the hooks without any try/catch. *)

Module EarlierStoreCore.

Fixpoint before_update (ps : list plugin) (newState oldState : value) : M value :=
  match ps with
  | [] => ret newState
  | plugin :: ps' =>
      newState' <-
        match onBeforeUpdate plugin with
        | Some f =>
            result <- call (BeforeUpdateCall (pl_id plugin) newState oldState)
                           (f newState oldState) ;;
            ret (if negb (strict_eq result VUndef) then result else newState)
        | None => ret newState
        end ;;
      before_update ps' newState' oldState
  end.

Definition setState (updater : updater) : M unit :=
  oldState <- gets state ;;
  newState <- updater oldState ;;
  ps <- gets plugins ;;
  newState <- before_update ps newState oldState ;;
  if negb (strict_eq newState oldState) then
    modify (set_state newState) ;;;
    ls <- gets listeners ;;
    for_each ls
      (fun listener =>
         call (ListenerCall (l_id listener) newState) (l_body listener newState) ;;;
         ret tt) ;;;
    ps <- gets plugins ;;
    for_each ps
      (fun p =>
         match onAfterUpdate p with
         | Some f =>
             call (AfterUpdateCall (pl_id p) newState oldState) (f newState oldState) ;;;
             ret tt
         | None => ret tt
         end)
  else ret tt.

End EarlierStoreCore.

(** ** Observations on the base store *)

(** The listener set after [this.listeners.add(listener)]. *)
Definition add_listener (l : listener) (w : world) : world :=
  if existsb (fun l' => Nat.eqb (l_id l') (l_id l)) (listeners w)
  then w
  else set_listeners (listeners w ++ [l]) w.

(** What [subscribe] does with the [onSubscribe] hooks: the calls it makes
    and the plugins that handed back a teardown, or the exception of the
    first hook that throws. *)
Fixpoint subscribe_run (ps : list plugin) (lid : nat) : list event * (list nat + exn) :=
  match ps with
  | [] => ([], inl [])
  | p :: ps' =>
      match onSubscribe p with
      | Some f =>
          let c := SubscribeCall (pl_id p) lid in
          match f lid with
          | Returns r =>
              match subscribe_run ps' lid with
              | (evs, inl ids) => (c :: evs, inl (if truthy r then pl_id p :: ids else ids))
              | (evs, inr e) => (c :: evs, inr e)
              end
          | Throws e => ([c], inr e)
          end
      | None => subscribe_run ps' lid
      end
  end.

(** Whether a listener with this identity is in the set. *)
Definition subscribed (lid : nat) (w : world) : bool :=
  existsb (fun l => Nat.eqb (l_id l) lid) (listeners w).

(** The calls a constructor makes when no [onInit] throws. *)
Definition init_calls (ps : list plugin) : list event :=
  flat_map
    (fun p => match onInit p with
              | Some _ => [InitCall (pl_id p)]
              | None => []
              end) ps.

Definition init_returns (p : plugin) : bool :=
  match onInit p with
  | Some (Throws _) => false
  | _ => true
  end.

Definition is_after_call (e : event) : bool :=
  match e with AfterUpdateCall _ _ _ => true | _ => false end.

Definition is_before_call (e : event) : bool :=
  match e with BeforeUpdateCall _ _ _ => true | _ => false end.

Definition is_after_error (e : event) : bool :=
  match e with
  | ConsoleError msg => String.eqb msg "[StoreCore] Error in plugin onAfterUpdate:"
  | _ => false
  end.

Definition has_after (p : plugin) : bool :=
  match onAfterUpdate p with Some _ => true | None => false end.

Definition throwing_after (newState oldState : value) (ps : list plugin) : list plugin :=
  List.filter
    (fun p => match onAfterUpdate p with
              | Some f => match f newState oldState with Throws _ => true | Returns _ => false end
              | None => false
              end) ps.

(** A plugin whose [onBeforeUpdate] throws. *)
Definition censor : plugin :=
  Plugin 8 None (Some (fun _ _ => Throws (UserError 8))) None None None.

(** [new StoreCore({count: 0}, [watcher, censor, watcher])] with one
    listener. *)
Definition censored_counter : world :=
  world_of (and_then (StoreCore.create counter_heap (VRef 0) [watcher; censor; watcher] 16)
                     (StoreCore.subscribe (quiet_listener 1))).

(** A plugin whose [onBeforeUpdate] returns null. *)
Definition nuller : plugin :=
  Plugin 9 None (Some (fun _ _ => Returns VNull)) None None None.

(** [new StoreCore({count: 0}, [nuller])] with one listener. *)
Definition nulled_counter : world :=
  world_of (and_then (StoreCore.create counter_heap (VRef 0) [nuller] 16)
                     (StoreCore.subscribe (quiet_listener 1))).

(** A plugin whose [onAfterUpdate] and [onDestroy] throw. *)
Definition grumpy : plugin :=
  Plugin 10 None None (Some (fun _ _ => Throws (UserError 10))) None
         (Some (Throws (UserError 10))).

(** [new StoreCore({count: 0}, [grumpy, watcher])] with one listener. *)
Definition grumpy_counter : world :=
  world_of (and_then (StoreCore.create counter_heap (VRef 0) [grumpy; watcher] 16)
                     (StoreCore.subscribe (quiet_listener 1))).

(** Two objects [a] and [b] with [a.self = a] and [b.self = b], in a base
    store whose state is [a]. *)
Definition two_cycles : world :=
  World [Obj false 0 [("self", VRef 0)] false; Obj false 0 [("self", VRef 1)] false]
        [] ∅ (VRef 0) VUndef [] [] 16 [].

(** A plugin whose [onSubscribe] throws. *)
Definition bouncer : plugin :=
  Plugin 11 None None None (Some (fun _ => Throws (UserError 11))) None.

(** [new StoreCore({count: 0}, [bouncer, watcher])]. *)
Definition bouncer_counter : world :=
  world_of (StoreCore.create counter_heap (VRef 0) [bouncer; watcher] 16).

(** ** Observations on the reactive store *)

(** A value that is not an object: [typeof v !== 'object' || v === null]. *)
Definition is_primitive (v : value) : bool :=
  match v with
  | VRef _ | VProxy _ | VStore => false
  | _ => true
  end.

(** What [notifyListeners] does: it calls the listeners in order with
    [this.state] and stops at the first one that throws. *)
Fixpoint notify_run (s : value) (ls : list listener) : list event * option exn :=
  match ls with
  | [] => ([], None)
  | l :: ls' =>
      match l_body l s with
      | Returns _ =>
          let '(evs, out) := notify_run s ls' in (ListenerCall (l_id l) s :: evs, out)
      | Throws e => ([ListenerCall (l_id l) s], Some e)
      end
  end.

(** Every listener returns when it is called with [s]. *)
Definition listeners_return (s : value) (ls : list listener) : bool :=
  forallb (fun l => match l_body l s with Returns _ => true | Throws _ => false end) ls.

(** One round of notification. *)
Definition round (s : value) (ls : list listener) : list event :=
  map (fun l => ListenerCall (l_id l) s) ls.




(** A key the get trap has no rule of its own for. *)
Definition ordinary_key (pr : proxy) (prop : string) : bool :=
  negb (String.eqb prop "__isReactive")
  && (if p_root pr then negb (String.eqb prop "__store")
      else negb (p_isArray pr && is_mutating_method prop)).



(** A run that assigns none of the fields of the store. *)
Definition same_store (w w' : world) : Prop :=
  state w' = state w /\ reactiveState w' = reactiveState w
  /\ listeners w' = listeners w /\ plugins w' = plugins w.

(** A run that only works on the heap. *)
Definition heap_step (w w' : world) : Prop := exists h, w' = set_heap h w.

(** The properties of the object at [t] hold values whose reading the
    model describes, and none of them is NaN, the one value that is not
    identical to itself. *)
Definition readable (w : world) (t : nat) : Prop :=
  forall key,
    match own_get (heap_obj w t) key with
    | VNaN | VStore => False
    | VProxy q => is_Some (proxies w !! q)
    | _ => True
    end.

(** A reactive store whose state is the Level-0 proxy [p], in which the
    cache is as it should be, the stack has room and the state can be
    read. *)
Definition steady (p : nat) (pr : proxy) (w : world) : Prop :=
  cache_wf w /\ proxies w !! p = Some pr /\ reactiveState w = VProxy p
  /\ 0 < stack w /\ readable w (p_target pr).




(** ** Observations on the middleware store *)

(** A middleware of the shape of [loggerMiddleware], with labels of its
    own: it logs the state under [pre], calls [next] with the updater it
    was given and logs the state under [post]. *)
Definition log_around (pre post : string) : Middleware :=
  fun updater =>
    mw_getState (fun before =>
    mw_log pre before
    (mw_next updater
    (mw_getState (fun after =>
    mw_log post after
    mw_return)))).

(** [store.use(m1); store.use(m2); ...] *)
Definition use_all (mws : list Middleware) (s : StoreFull.t) : StoreFull.t :=
  fold_left (fun s mw => StoreFull.use mw s) mws s.

(** ** The states a reactive store can reach *)

(** What the holder of a reactive store and of the values read from it
    can do. *)
Inductive reactive_op : Type :=
| op_read (v : value) (prop : string)
| op_write (v : value) (prop : string) (val : value)
| op_delete (v : value) (prop : string)
| op_method (recv : value) (c : array_call)
| op_setState (u : updater)
| op_setProperty (key : string) (val : value)
| op_getProperty (key : string)
| op_subscribe (l : listener)
| op_destroy.

Definition run_op (op : reactive_op) : M unit :=
  match op with
  | op_read v prop => Get v prop ;;; ret tt
  | op_write v prop val => Set_ v prop val
  | op_delete v prop => Delete v prop
  | op_method recv c => call_method recv c ;;; ret tt
  | op_setState u => ReactiveStore.setState u
  | op_setProperty key val => ReactiveStore.setProperty key val
  | op_getProperty key => ReactiveStore.getProperty key ;;; ret tt
  | op_subscribe l => StoreCore.subscribe l ;;; ret tt
  | op_destroy => StoreCore.destroy
  end.

(** The callbacks of an operation leave the cache as the invariant wants
    it; the cache is private to the store. *)
Definition callbacks_keep_cache (op : reactive_op) : Prop :=
  match op with
  | op_method _ (sort (Some f)) => forall a b, pres keeps_cache (f a b)
  | op_setState u => forall v, pres keeps_cache (u v)
  | _ => True
  end.

(** The worlds a store reaches from [w0] by operations that return or
    throw. *)
Inductive reachable (w0 : world) : world -> Prop :=
| reach_start : reachable w0 w0
| reach_return w op w' :
    reachable w0 w -> callbacks_keep_cache op -> run_op op w = Ok tt w' ->
    reachable w0 w'
| reach_throw w op e w' :
    reachable w0 w -> callbacks_keep_cache op -> run_op op w = Throw e w' ->
    reachable w0 w'.

(** * Properties *)

(** ** The monad *)

Lemma add_trace_nil w : add_trace [] w = w.
Proof. destruct w; unfold add_trace; simpl. by rewrite app_nil_r. Qed.

Lemma add_trace_app evs1 evs2 w :
  add_trace evs2 (add_trace evs1 w) = add_trace (evs1 ++ evs2) w.
Proof. unfold add_trace; simpl. by rewrite app_assoc. Qed.

Lemma emit_add_trace e w : emit e w = add_trace [e] w.
Proof. reflexivity. Qed.

Ltac run_monad :=
  unfold bind, ret, gets, modify, throw, try_catch, call, console_error, console_log;
  simpl.

(** ** The loops of StoreCore.setState *)

Lemma listeners_loop newState ls w :
  for_each ls
    (fun listener =>
       try_catch
         (call (ListenerCall (l_id listener) newState)
               (l_body listener newState) ;;; ret tt)
         (fun error => console_error "[StoreCore] Error in listener:")) w
  = Ok tt (add_trace (listener_events newState ls) w).
Proof.
  revert w. induction ls as [|l ls IH]; intros w; simpl.
  - by rewrite add_trace_nil.
  - unfold bind at 1. unfold try_catch at 1. run_monad.
    destruct (l_body l newState); simpl.
    + rewrite IH, emit_add_trace, add_trace_app. reflexivity.
    + rewrite IH, !emit_add_trace, !add_trace_app. reflexivity.
Qed.

Lemma after_loop newState oldState ps w :
  for_each ps
    (fun p =>
       try_catch
         (match onAfterUpdate p with
          | Some f =>
              call (AfterUpdateCall (pl_id p) newState oldState)
                   (f newState oldState) ;;; ret tt
          | None => ret tt
          end)
         (fun error => console_error "[StoreCore] Error in plugin onAfterUpdate:")) w
  = Ok tt (add_trace (after_events ps newState oldState) w).
Proof.
  revert w. induction ps as [|p ps IH]; intros w; simpl.
  - by rewrite add_trace_nil.
  - unfold bind at 1. unfold try_catch at 1.
    destruct (onAfterUpdate p) as [f|]; run_monad.
    + destruct (f newState oldState); simpl.
      * rewrite IH, emit_add_trace, add_trace_app. reflexivity.
      * rewrite IH, !emit_add_trace, !add_trace_app. reflexivity.
    + apply IH.
Qed.

Lemma before_update_run ps newState oldState w :
  StoreCore.before_update ps newState oldState w =
  match before_run ps newState oldState with
  | (evs, inl ns) => Ok ns (add_trace evs w)
  | (evs, inr e) => Throw e (add_trace evs w)
  end.
Proof.
  revert newState w. induction ps as [|p ps IH]; intros newState w; simpl.
  - by rewrite add_trace_nil.
  - unfold bind at 1. unfold try_catch at 1.
    destruct (onBeforeUpdate p) as [f|]; run_monad.
    + destruct (f newState oldState) as [r|e]; simpl.
      * rewrite IH.
        destruct (before_run ps _ oldState) as [evs [ns|e]];
          rewrite emit_add_trace, add_trace_app; reflexivity.
      * rewrite !emit_add_trace, add_trace_app. reflexivity.
    + rewrite IH. destruct (before_run ps newState oldState) as [evs [ns|e]]; reflexivity.
Qed.

(** ** StoreCore.setState in closed form *)

Lemma setState_run (u : updater) w newState w1 :
  u (state w) w = Ok newState w1 ->
  is_nullish newState = false ->
  StoreCore.setState u w =
  match before_run (plugins w1) newState (state w) with
  | (evs, inr e) =>
      Throw e (add_trace (evs ++ [ConsoleError "[StoreCore] Error in setState:"]) w1)
  | (evs, inl ns) =>
      match StoreCore.hasChanged ns (state w) (add_trace evs w1) with
      | Ok true w3 =>
          Ok tt (add_trace (listener_events ns (listeners w3)
                            ++ after_events (plugins w3) ns (state w))
                           (set_state ns w3))
      | Ok false w3 => Ok tt w3
      | Throw e w3 => Throw e (add_trace [ConsoleError "[StoreCore] Error in setState:"] w3)
      | Unmodelled => Unmodelled
      end
  end.
Proof.
  intros Hu Hnn. unfold StoreCore.setState.
  unfold try_catch at 1. unfold bind at 1. unfold gets at 1.
  unfold bind at 1. rewrite Hu. rewrite Hnn.
  unfold bind at 1. unfold ret at 1.
  unfold bind at 1. unfold gets at 1.
  unfold bind at 1. rewrite before_update_run.
  destruct (before_run (plugins w1) newState (state w)) as [evs [ns|e]].
  - unfold bind at 1.
    destruct (StoreCore.hasChanged ns (state w) (add_trace evs w1)) as [[|] w3|e w3|].
    + unfold bind at 1. unfold modify at 1.
      unfold bind at 1. unfold try_catch at 1.
      unfold bind at 1. unfold gets at 1.
      rewrite listeners_loop.
      unfold bind at 1. unfold gets at 1.
      rewrite after_loop. simpl. rewrite add_trace_app. reflexivity.
    + reflexivity.
    + run_monad. reflexivity.
    + reflexivity.
  - run_monad. rewrite emit_add_trace, add_trace_app. reflexivity.
Qed.

(** ** What the reactive operations preserve

    A relation between the world before and after a run that holds of the
    steps a run is made of holds of the whole run.  It is used twice below:
    for the fields of the store together with the calls in the trace, and
    for the invariant of the proxy cache. *)

Section Preservation.

Variable P : world -> world -> Prop.
Hypothesis P_refl : forall w, P w w.
Hypothesis P_trans : forall a b c, P a b -> P b c -> P a c.
Hypothesis P_heap : forall w h, P w (set_heap h w).
Hypothesis P_emit : forall w e, P w (emit e w).
Hypothesis P_makeReactive :
  forall obj w,
    match makeReactive obj w with
    | Ok _ w' | Throw _ w' => P w w'
    | Unmodelled => True
    end.

Lemma pres_ret {A} (a : A) : pres P (ret a).
Proof using P_refl. intros w. apply P_refl. Qed.

Lemma pres_throw {A} e : pres P (@throw A e).
Proof using P_refl. intros w. apply P_refl. Qed.

Lemma pres_unmodelled {A} : pres P (@unmodelled A).
Proof. intros w. exact I. Qed.

Lemma pres_gets {A} (f : world -> A) : pres P (gets f).
Proof using P_refl. intros w. apply P_refl. Qed.

Lemma pres_bind {A B} (m : M A) (f : A -> M B) :
  pres P m -> (forall a, pres P (f a)) -> pres P (bind m f).
Proof using P_trans.
  intros Hm Hf w. unfold bind. specialize (Hm w).
  destruct (m w) as [a w1|e w1|]; try done.
  specialize (Hf a w1). destruct (f a w1); try done; eapply P_trans; eauto.
Qed.

Lemma pres_try_catch {A} (m : M A) (h : exn -> M A) :
  pres P m -> (forall e, pres P (h e)) -> pres P (try_catch m h).
Proof using P_trans.
  intros Hm Hh w. unfold try_catch. specialize (Hm w).
  destruct (m w) as [a w1|e w1|]; try done.
  specialize (Hh e w1). destruct (h e w1); try done; eapply P_trans; eauto.
Qed.

Lemma pres_for_each {A} (xs : list A) (body : A -> M unit) :
  (forall x, pres P (body x)) -> pres P (for_each xs body).
Proof using P_refl P_trans.
  intros Hb. induction xs as [|x xs IH]; simpl.
  - apply pres_ret.
  - apply pres_bind; auto.
Qed.

Lemma pres_if {A} (b : bool) (m1 m2 : M A) :
  pres P m1 -> pres P m2 -> pres P (if b then m1 else m2).
Proof. by destruct b. Qed.

Lemma pres_raw_get l prop : pres P (raw_get l prop).
Proof using P_refl. apply pres_gets. Qed.

Lemma pres_raw_has l prop : pres P (raw_has l prop).
Proof using P_refl. apply pres_gets. Qed.

Lemma pres_raw_set l prop v : pres P (raw_set l prop v).
Proof using P_refl P_heap.
  intros w. unfold raw_set. destruct (_ && _ && _); [exact I|].
  destruct (own_set _ _ _); [apply P_heap | apply P_refl].
Qed.

Lemma pres_raw_delete l prop : pres P (raw_delete l prop).
Proof using P_refl P_heap.
  intros w. unfold raw_delete. destruct (own_delete _ _); [apply P_heap | apply P_refl].
Qed.

Lemma pres_alloc o : pres P (alloc o).
Proof using P_heap. intros w. apply P_heap. Qed.

Lemma pres_proxy_of p : pres P (proxy_of p).
Proof using P_refl. intros w. unfold proxy_of. destruct (_ !! _); [apply P_refl | exact I]. Qed.

Lemma pres_makeReactive obj : pres P (makeReactive obj).
Proof using P_makeReactive. intros w. apply P_makeReactive. Qed.

Create HintDb pres.

Hint Resolve pres_ret pres_throw pres_unmodelled pres_gets pres_raw_get
  pres_raw_has pres_raw_set pres_raw_delete pres_alloc pres_proxy_of
  pres_makeReactive : pres.

Ltac pres_step :=
  first [ solve [auto with pres]
        | apply pres_bind; [|intros ?]
        | apply pres_try_catch; [|intros ?]
        | apply pres_if
        | apply pres_for_each; intros ? ].

Lemma pres_needs_wrap v : pres P (needs_wrap v).
Proof using P_refl P_trans.
  unfold needs_wrap, read_isReactive.
  destruct (truthy v && is_object_type v); [|auto with pres].
  destruct v; repeat pres_step.
Qed.

Hint Resolve pres_needs_wrap : pres.

Lemma pres_createReactiveState_get pr prop : pres P (createReactiveState_get pr prop).
Proof using P_refl P_trans P_heap P_makeReactive.
  unfold createReactiveState_get. repeat pres_step.
Qed.

Lemma pres_makeReactive_get pr prop : pres P (makeReactive_get pr prop).
Proof using P_refl P_trans P_heap P_makeReactive.
  unfold makeReactive_get. repeat pres_step.
Qed.

Hint Resolve pres_createReactiveState_get pres_makeReactive_get : pres.

Lemma pres_Get v prop : pres P (Get v prop).
Proof using P_refl P_trans P_heap P_makeReactive.
  destruct v; simpl; repeat pres_step.
Qed.

Lemma pres_Object_keys v : pres P (Object_keys v).
Proof using P_refl P_trans. destruct v; simpl; repeat pres_step. Qed.

Lemma pres_Array_isArray v : pres P (Array_isArray v).
Proof using P_refl P_trans. destruct v; simpl; repeat pres_step. Qed.

Lemma pres_Has v prop : pres P (Has v prop).
Proof using P_refl P_trans. destruct v; simpl; repeat pres_step. Qed.

Hint Resolve pres_Get pres_Object_keys pres_Array_isArray pres_Has : pres.

Lemma pres_deepEqual_depth_from_Get depth a b :
  (forall v prop, pres P (Get v prop)) -> pres P (deepEqual_depth depth a b).
Proof using P_refl P_trans.
  intros HGet. revert a b. induction depth as [|d IH]; intros a b; simpl.
  - auto with pres.
  - repeat (first [ apply pres_if | apply pres_bind; [|intros ?] | solve [auto with pres] ]).
    match goal with |- pres P (_ ?keys) => induction keys as [|key keys IHk] end;
      repeat (first [ apply pres_if | apply pres_bind; [|intros ?] | solve [auto with pres] ]);
      auto.
Qed.

Lemma pres_deepEqual a b : pres P (deepEqual a b).
Proof using P_refl P_trans P_heap P_makeReactive.
  unfold deepEqual. apply pres_bind; [auto with pres|]. intros d.
  apply pres_deepEqual_depth_from_Get. intros. apply pres_Get.
Qed.

Lemma pres_emit e : pres P (modify (emit e)).
Proof using P_emit. intros w. apply P_emit. Qed.

Lemma pres_console_error msg : pres P (console_error msg).
Proof using P_emit. apply pres_emit. Qed.

Lemma pres_call e r : pres P (call e r).
Proof using P_refl P_trans P_emit.
  unfold call. apply pres_bind; [apply pres_emit|]. intros _.
  destruct r; auto with pres.
Qed.

Hint Resolve pres_emit pres_console_error pres_call pres_deepEqual : pres.

Lemma pres_notifyListeners : pres P StoreCore.notifyListeners.
Proof using P_refl P_trans P_emit.
  unfold StoreCore.notifyListeners. repeat pres_step.
Qed.

Hint Resolve pres_notifyListeners : pres.

Lemma pres_createReactiveState_set pr prop val :
  pres P (createReactiveState_set pr prop val).
Proof using P_refl P_trans P_heap P_emit P_makeReactive.
  unfold createReactiveState_set. repeat pres_step.
Qed.

Lemma pres_makeReactive_set pr prop val : pres P (makeReactive_set pr prop val).
Proof using P_refl P_trans P_heap P_emit P_makeReactive.
  unfold makeReactive_set. repeat pres_step.
Qed.

Lemma pres_handler_deleteProperty pr prop : pres P (handler_deleteProperty pr prop).
Proof using P_refl P_trans P_heap P_emit.
  unfold handler_deleteProperty. repeat pres_step.
Qed.

Hint Resolve pres_createReactiveState_set pres_makeReactive_set
  pres_handler_deleteProperty : pres.

Lemma pres_Set v prop val : pres P (Set_ v prop val).
Proof using P_refl P_trans P_heap P_emit P_makeReactive.
  destruct v; simpl; repeat pres_step.
Qed.

Lemma pres_Delete v prop : pres P (Delete v prop).
Proof using P_refl P_trans P_heap P_emit P_makeReactive.
  destruct v; simpl; repeat pres_step.
Qed.

Hint Resolve pres_Set pres_Delete : pres.

Lemma pres_ToLength v : pres P (ToLength v).
Proof using P_refl. destruct v; simpl; auto with pres. Qed.

Lemma pres_ToString v : pres P (ToString v).
Proof using P_refl. destruct v; simpl; auto with pres. Qed.

Hint Resolve pres_ToLength pres_ToString : pres.

Lemma pres_LengthOfArrayLike O : pres P (LengthOfArrayLike O).
Proof using P_refl P_trans P_heap P_makeReactive.
  unfold LengthOfArrayLike. repeat pres_step.
Qed.

Lemma pres_set_length O n : pres P (set_length O n).
Proof using P_refl P_trans P_heap P_emit P_makeReactive.
  unfold set_length. auto with pres.
Qed.

Lemma pres_set_items O k items : pres P (set_items O k items).
Proof using P_refl P_trans P_heap P_emit P_makeReactive.
  revert k. induction items as [|E items IH]; intros k; simpl; repeat pres_step; auto.
Qed.

Lemma pres_move O from to : pres P (move O from to).
Proof using P_refl P_trans P_heap P_emit P_makeReactive.
  unfold move. repeat pres_step.
Qed.

Hint Resolve pres_LengthOfArrayLike pres_set_length pres_set_items pres_move : pres.

Lemma pres_collect O ks : pres P (collect O ks).
Proof using P_refl P_trans P_heap P_makeReactive.
  induction ks as [|k ks IH]; simpl; repeat pres_step; auto.
Qed.

Lemma pres_SortCompare comparefn x y :
  (forall f a b, comparefn = Some f -> pres P (f a b)) ->
  pres P (SortCompare comparefn x y).
Proof using P_refl P_trans.
  intros Hf. unfold SortCompare.
  assert (pres P match comparefn with
               | Some f => f x y
               | None =>
                   xs <- ToString x ;;
                   ys <- ToString y ;;
                   ret (if string_ltb xs ys then (-1)%Z
                        else if string_ltb ys xs then 1%Z else 0%Z)
               end) as H.
  { destruct comparefn as [f|]; [by apply Hf | repeat pres_step]. }
  destruct x, y; auto with pres.
Qed.

Lemma pres_sort_insert comparefn x l :
  (forall f a b, comparefn = Some f -> pres P (f a b)) ->
  pres P (sort_insert comparefn x l).
Proof using P_refl P_trans.
  intros Hf. induction l as [|y l IH]; simpl; [auto with pres|].
  apply pres_bind; [by apply pres_SortCompare|]. intros c.
  repeat pres_step; auto.
Qed.

Lemma pres_sort_list comparefn l :
  (forall f a b, comparefn = Some f -> pres P (f a b)) ->
  pres P (sort_list comparefn l).
Proof using P_refl P_trans.
  intros Hf. induction l as [|x l IH]; simpl; [auto with pres|].
  apply pres_bind; [exact IH|]. intros sorted. by apply pres_sort_insert.
Qed.

Lemma pres_apply_method c this :
  (forall f a b, c = sort (Some f) -> pres P (f a b)) ->
  pres P (apply_method c this).
Proof using P_refl P_trans P_heap P_emit P_makeReactive.
  intros Hf. destruct c; simpl.
  - unfold Array_push. repeat pres_step.
  - unfold Array_pop. repeat pres_step.
    match goal with |- pres P (match ?n with _ => _ end) => destruct n end;
      repeat pres_step.
  - unfold Array_shift. repeat pres_step.
    match goal with |- pres P (match ?n with _ => _ end) => destruct n end;
      repeat pres_step.
  - unfold Array_unshift. repeat pres_step.
  - unfold Array_splice. repeat pres_step.
  - assert (pres P (fun w => Array_sort this comparefn w)) as H; [|exact H].
    unfold Array_sort. repeat pres_step.
    + apply pres_collect.
    + apply pres_sort_list. intros f x y ->. by apply Hf.
  - unfold Array_reverse. repeat pres_step.
Qed.

Lemma pres_call_method recv c :
  (forall f a b, c = sort (Some f) -> pres P (f a b)) ->
  pres P (call_method recv c).
Proof using P_refl P_trans P_heap P_emit P_makeReactive.
  intros Hf. pose proof (fun this => pres_apply_method c this Hf) as Ha.
  destruct recv; simpl; repeat pres_step.
Qed.

Lemma pres_write_keys keys newState hasChanges :
  pres P (ReactiveStore.write_keys keys newState hasChanges).
Proof using P_refl P_trans P_heap P_emit P_makeReactive.
  revert hasChanges. induction keys as [|key keys IH]; intros hasChanges; simpl;
    repeat pres_step; auto.
Qed.

Lemma pres_reactive_setState (u : updater) :
  (forall v, pres P (u v)) -> pres P (ReactiveStore.setState u).
Proof using P_refl P_trans P_heap P_emit P_makeReactive.
  intros Hu. pose proof pres_write_keys.
  unfold ReactiveStore.setState. repeat pres_step.
Qed.

Lemma pres_getProperty key : pres P (ReactiveStore.getProperty key).
Proof using P_refl P_trans P_heap P_makeReactive.
  unfold ReactiveStore.getProperty. repeat pres_step.
Qed.

Lemma pres_setProperty key val : pres P (ReactiveStore.setProperty key val).
Proof using P_refl P_trans P_heap P_emit P_makeReactive.
  unfold ReactiveStore.setProperty. repeat pres_step.
Qed.

End Preservation.

(** ** Runs that are quiet *)

Lemma quiet_refl w : quiet w w.
Proof.
  repeat split; try reflexivity. exists []. by rewrite app_nil_r.
Qed.

Lemma quiet_trans a b c : quiet a b -> quiet b c -> quiet a c.
Proof.
  intros (H1 & H2 & H3 & H4 & H5 & e1 & H6 & H7) (G1 & G2 & G3 & G4 & G5 & e2 & G6 & G7).
  repeat split; try congruence.
  exists (e1 ++ e2). rewrite G6, H6, app_assoc. split; [done|].
  rewrite forallb_app. by rewrite H7, G7.
Qed.

Lemma quiet_heap w h : quiet w (set_heap h w).
Proof. repeat split; try reflexivity. exists []. by rewrite app_nil_r. Qed.

Lemma quiet_makeReactive obj w :
  match makeReactive obj w with
  | Ok _ w' | Throw _ w' => quiet w w'
  | Unmodelled => True
  end.
Proof.
  unfold makeReactive.
  destruct (negb (truthy obj) || negb (is_object_type obj)); [apply quiet_refl|].
  destruct obj; try exact I. run_monad.
  destruct (proxyCache w !! l); [apply quiet_refl|].
  unfold new_Proxy. destruct (o_exotic (heap_obj w l)); simpl.
  - repeat split; try reflexivity. by eexists [_].
  - repeat split; try reflexivity. exists []. by rewrite app_nil_r.
Qed.

Lemma deepEqual_quiet a b w :
  match deepEqual a b w with
  | Ok _ w' | Throw _ w' => quiet w w'
  | Unmodelled => True
  end.
Proof.
  apply (pres_deepEqual quiet quiet_refl quiet_trans quiet_heap quiet_makeReactive).
Qed.

Lemma hasChanged_quiet a b w :
  match StoreCore.hasChanged a b w with
  | Ok _ w' | Throw _ w' => quiet w w'
  | Unmodelled => True
  end.
Proof.
  unfold StoreCore.hasChanged.
  destruct (is_object_type a && negb (strict_eq a VNull)); [|apply quiet_refl].
  unfold bind. pose proof (deepEqual_quiet a b w) as H.
  destruct (deepEqual a b w); simpl; done.
Qed.

Lemma listener_calls_app tr1 tr2 :
  listener_calls (tr1 ++ tr2) = listener_calls tr1 ++ listener_calls tr2.
Proof. unfold listener_calls. apply List.filter_app. Qed.

Lemma listener_calls_console evs :
  forallb is_console_error evs = true -> listener_calls evs = [].
Proof.
  induction evs as [|e evs IH]; simpl; [done|].
  intros [He H]%andb_true_iff. destruct e; try discriminate. simpl. auto.
Qed.

Lemma quiet_listener_calls w w' :
  quiet w w' -> listener_calls (trace w') = listener_calls (trace w).
Proof.
  intros (_ & _ & _ & _ & _ & evs & -> & H).
  rewrite listener_calls_app, (listener_calls_console _ H). apply app_nil_r.
Qed.

Lemma before_run_no_listener_calls ps newState oldState :
  listener_calls (fst (before_run ps newState oldState)) = [].
Proof.
  revert newState. induction ps as [|p ps IH]; intros newState; simpl; [done|].
  destruct (onBeforeUpdate p) as [f|]; [|apply IH].
  destruct (f newState oldState) as [r|e]; [|done].
  specialize (IH (if negb (strict_eq r VUndef) then r else newState)).
  destruct (before_run ps _ oldState). simpl in *. done.
Qed.

Lemma listener_calls_listener_events newState ls :
  listener_calls (listener_events newState ls)
  = map (fun l => ListenerCall (l_id l) newState) ls.
Proof.
  induction ls as [|l ls IH]; simpl; [done|].
  destruct (l_body l newState); simpl; unfold listener_calls in *; simpl.
  - by rewrite IH.
  - by rewrite IH.
Qed.

Lemma listener_calls_after_events ps newState oldState :
  listener_calls (after_events ps newState oldState) = [].
Proof.
  induction ps as [|p ps IH]; simpl; [done|].
  destruct (onAfterUpdate p) as [f|]; [|apply IH].
  destruct (f newState oldState); unfold listener_calls in *; simpl; done.
Qed.

Lemma new_events_app w w' evs : trace w' = trace w ++ evs -> new_events w w' = evs.
Proof. intros H. unfold new_events. rewrite H. by rewrite drop_app_length. Qed.

(** ** The base store *)

Lemma hasChanged_object newState oldState w :
  is_object_type newState && negb (strict_eq newState VNull) = true ->
  StoreCore.hasChanged newState oldState w =
  match deepEqual newState oldState w with
  | Ok same w' => Ok (negb same) w'
  | Throw e w' => Throw e w'
  | Unmodelled => Unmodelled
  end.
Proof.
  intros H. unfold StoreCore.hasChanged. rewrite H. unfold bind.
  destruct (deepEqual newState oldState w); reflexivity.
Qed.

Lemma hasChanged_primitive newState oldState w :
  is_object_type newState && negb (strict_eq newState VNull) = false ->
  StoreCore.hasChanged newState oldState w = Ok (negb (strict_eq newState oldState)) w.
Proof. intros H. unfold StoreCore.hasChanged. by rewrite H. Qed.


(** C6.  When the updater returns null or undefined, StoreCore.setState
    throws to its caller, and beyond what the updater itself did it only
    reports the error on the console: the stored state is the one the
    updater left, and no listener and no hook is called. *)
Theorem setState_rejects_nullish (u : updater) (w w1 : world) (v : value) :
  u (state w) w = Ok v w1 ->
  is_nullish v = true ->
  exists w',
    StoreCore.setState u w = Throw (Error "State cannot be null or undefined") w'
    /\ w' = add_trace [ConsoleError "[StoreCore] Error in setState:"] w1
    /\ state w' = state w1
    /\ listener_calls (trace w') = listener_calls (trace w1)
    /\ List.filter is_hook_call (trace w') = List.filter is_hook_call (trace w1).
Proof.
  intros Hu Hn. eexists. split; [|split; [reflexivity|]].
  - unfold StoreCore.setState.
    unfold try_catch at 1. unfold bind at 1. unfold gets at 1.
    unfold bind at 1. rewrite Hu, Hn. run_monad. reflexivity.
  - simpl. split; [done|]. unfold listener_calls.
    rewrite !List.filter_app. simpl. by rewrite !app_nil_r.
Qed.

(** C7.  When StoreCore.setState commits, whatever the listeners do: the
    call returns, the new state stays stored, every subscribed listener is
    called once with the new state, in order, and every listener that
    threw is reported on the console. *)
Theorem listener_exception_is_isolated
  (u : updater) (w w1 w3 : world) (newState ns : value) (evs : list event) :
  u (state w) w = Ok newState w1 ->
  is_nullish newState = false ->
  before_run (plugins w1) newState (state w) = (evs, inl ns) ->
  StoreCore.hasChanged ns (state w) (add_trace evs w1) = Ok true w3 ->
  exists w', StoreCore.setState u w = Ok tt w'
    /\ state w' = ns
    /\ listener_calls (new_events w3 w')
       = map (fun l => ListenerCall (l_id l) ns) (listeners w3)
    /\ length (List.filter is_listener_error (new_events w3 w'))
       = length (throwing_listeners ns (listeners w3)).
Proof.
  intros Hu Hnn Hb Hc. rewrite (setState_run u w newState w1 Hu Hnn), Hb, Hc.
  eexists. split; [reflexivity|]. split; [reflexivity|].
  rewrite (new_events_app w3 _ (listener_events ns (listeners w3)
                                ++ after_events (plugins w3) ns (state w)))
    by reflexivity.
  split.
  - rewrite listener_calls_app, listener_calls_listener_events,
      listener_calls_after_events. apply app_nil_r.
  - rewrite List.filter_app, length_app.
    assert (List.filter is_listener_error (after_events (plugins w3) ns (state w)) = []) as ->.
    { induction (plugins w3) as [|p ps IH]; simpl; [done|].
      destruct (onAfterUpdate p) as [f|]; [|done].
      destruct (f ns (state w)); simpl; done. }
    simpl. rewrite Nat.add_0_r.
    induction (listeners w3) as [|l ls IH]; simpl; [done|].
    unfold throwing_listeners in *. simpl.
    destruct (l_body l ns); simpl; [done|]. by rewrite IH.
Qed.


(** [setState(() => null)] on [{count: 0}]. *)
Lemma setState_rejects_nullish_witness :
  exists w',
    StoreCore.setState (fun _ => ret VNull) light_counter
    = Throw (Error "State cannot be null or undefined") w'
    /\ state w' = VRef 0
    /\ listener_calls (trace w') = [].
Proof.
  destruct (setState_rejects_nullish (fun _ => ret VNull) light_counter light_counter VNull
              eq_refl eq_refl) as (w' & Hs & _ & Hst & Hl & _).
  exists w'. split; [exact Hs|]. split.
  - rewrite Hst. vm_compute. reflexivity.
  - rewrite Hl. vm_compute. reflexivity.
Defined.

(** [setState(s => ({...s, count: 1}))] with a listener that throws and
    one subscribed after it. *)
Lemma listener_exception_is_isolated_witness :
  l_body (failing_listener 1) (VRef 1) = Throws (UserError 1)
  /\ exists w', StoreCore.setState (set_count 1) light_counter_two = Ok tt w'
                /\ state w' = VRef 1
                /\ listener_calls (trace w')
                   = [ListenerCall 1 (VRef 1); ListenerCall 2 (VRef 1)].
Proof.
  split; [reflexivity|].
  assert (H1 : set_count 1 (state light_counter_two) light_counter_two
               = Ok (VRef 1) (world_of (set_count 1 (VRef 0) light_counter_two)))
    by (vm_compute; reflexivity).
  assert (H2 : StoreCore.hasChanged (VRef 1) (state light_counter_two)
                 (add_trace [] (world_of (set_count 1 (VRef 0) light_counter_two)))
               = Ok true (world_of (set_count 1 (VRef 0) light_counter_two)))
    by (vm_compute; reflexivity).
  destruct (listener_exception_is_isolated
              (set_count 1) light_counter_two _ _ (VRef 1) (VRef 1) [] H1 eq_refl eq_refl H2)
    as (w' & Hs & Hst & Hl & _).
  exists w'. split; [exact Hs|]. split; [exact Hst|].
  pose proof Hs as Hrun. vm_compute in Hrun. injection Hrun as <-.
  vm_compute. reflexivity.
Defined.

(** ** A store without proxies *)

Lemma unless_proxies_refl w : unless_proxies w w.
Proof. by intros _. Qed.

Lemma unless_proxies_trans a b c :
  unless_proxies a b -> unless_proxies b c -> unless_proxies a c.
Proof. intros H1 H2 Ha. pose proof (H1 Ha) as ->. by apply H2. Qed.

Lemma Get_no_proxies v prop : pres unless_proxies (Get v prop).
Proof.
  intros w. destruct v; simpl; try apply unless_proxies_refl; try exact I.
  unfold bind, proxy_of. destruct (proxies w) as [|pr ps] eqn:E.
  - by rewrite lookup_nil.
  - destruct (_ !! _); [|exact I].
    match goal with |- match ?r with _ => _ end => destruct r end;
      try exact I; intros Hnil; congruence.
Qed.

Lemma deepEqual_no_proxies a b w :
  proxies w = [] ->
  match deepEqual a b w with
  | Ok _ w' | Throw _ w' => w' = w
  | Unmodelled => True
  end.
Proof.
  intros Hnil.
  assert (pres unless_proxies (deepEqual a b)) as H.
  { unfold deepEqual. apply pres_bind.
    - apply unless_proxies_trans.
    - apply pres_gets, unless_proxies_refl.
    - intros d.
      apply (pres_deepEqual_depth_from_Get unless_proxies
               unless_proxies_refl unless_proxies_trans d a b Get_no_proxies). }
  specialize (H w). destruct (deepEqual a b w); auto.
Qed.

Lemma hasChanged_no_proxies a b w r w' :
  proxies w = [] -> StoreCore.hasChanged a b w = Ok r w' -> w' = w.
Proof.
  intros Hnil. unfold StoreCore.hasChanged.
  destruct (is_object_type a && negb (strict_eq a VNull)).
  - unfold bind. pose proof (deepEqual_no_proxies a b w Hnil) as H.
    destruct (deepEqual a b w); try discriminate. intros [= _ <-]. done.
  - by intros [= _ <-].
Qed.

Lemma destroy_run_spec w :
  StoreCore.destroy w =
  match destroy_run (plugins w) with
  | (evs, None) => Ok tt (add_trace evs (set_listeners [] w))
  | (evs, Some e) => Throw e (add_trace evs (set_listeners [] w))
  end.
Proof.
  unfold StoreCore.destroy. unfold bind at 1. unfold modify at 1.
  unfold bind at 1. unfold gets at 1. simpl.
  generalize (set_listeners [] w) as w0. generalize (plugins w) as ps.
  induction ps as [|p ps IH]; intros w0; simpl.
  - by rewrite add_trace_nil.
  - destruct (onDestroy p) as [[r|e]|]; run_monad.
    + rewrite IH. destruct (destroy_run ps) as [evs [e|]];
        rewrite emit_add_trace, add_trace_app; reflexivity.
    + rewrite emit_add_trace. reflexivity.
    + apply IH.
Qed.

Lemma before_run_hook_calls ps newState oldState evs ns :
  before_run ps newState oldState = (evs, inl ns) -> forallb is_hook_call evs = true.
Proof.
  revert newState evs. induction ps as [|p ps IH]; intros newState evs; simpl.
  - by intros [= <- _].
  - destruct (onBeforeUpdate p) as [f|]; [|apply IH].
    destruct (f newState oldState) as [r|e]; [|discriminate].
    destruct (before_run ps _ oldState) as [evs' out] eqn:E.
    intros [= <- ->]. simpl. eapply IH, E.
Qed.

Lemma after_events_hook_calls ps newState oldState :
  after_returns ps newState oldState = true ->
  forallb is_hook_call (after_events ps newState oldState) = true.
Proof.
  induction ps as [|p ps IH]; simpl; [done|].
  destruct (onAfterUpdate p) as [f|]; [|done].
  destruct (f newState oldState); simpl; [done|discriminate].
Qed.

Lemma destroy_run_calls ps :
  snd (destroy_run ps) = None -> fst (destroy_run ps) = destroy_calls ps.
Proof.
  induction ps as [|p ps IH]; simpl; [done|].
  destruct (onDestroy p) as [[r|e]|]; simpl; [|discriminate|exact IH].
  destruct (destroy_run ps) as [evs out]. simpl in *.
  intros H. by rewrite (IH H).
Qed.

(** C10.  StoreCore.destroy, when no onDestroy hook throws, empties the
    listener set and calls every onDestroy hook, and changes nothing else:
    the state stays.  The store still works afterwards: a setState whose
    updater produces a changed value returns, stores the new value (getState
    yields it), and calls the onBeforeUpdate and onAfterUpdate hooks;
    nothing else is called and nothing is written to the console. *)
Theorem destroy_leaves_store_usable (w : world) :
  snd (destroy_run (plugins w)) = None ->
  exists wd, StoreCore.destroy w = Ok tt wd
    /\ wd = add_trace (destroy_calls (plugins w)) (set_listeners [] w)
    /\ state wd = state w
    /\ listeners wd = []
    /\ forall (u : updater) newState w1 evs ns w3,
         proxies w = [] ->
         heap_only (u (state w)) ->
         u (state w) wd = Ok newState w1 ->
         is_nullish newState = false ->
         before_run (plugins w) newState (state w) = (evs, inl ns) ->
         after_returns (plugins w) ns (state w) = true ->
         StoreCore.hasChanged ns (state w) (add_trace evs w1) = Ok true w3 ->
         exists w', StoreCore.setState u wd = Ok tt w'
           /\ StoreCore.getState w' = Ok ns w'
           /\ new_events wd w' = evs ++ after_events (plugins w) ns (state w)
           /\ forallb is_hook_call (new_events wd w') = true.
Proof.
  intros Hnone. rewrite destroy_run_spec.
  pose proof (destroy_run_calls _ Hnone) as Hcalls.
  destruct (destroy_run (plugins w)) as [devs [e|]]; [discriminate|].
  simpl in Hcalls. subst devs.
  eexists. split; [reflexivity|]. split; [reflexivity|].
  split; [reflexivity|]. split; [reflexivity|].
  intros u newState w1 evs ns w3 Hnil Hheap Hu Hnn Hb Ha Hc.
  set (wd := add_trace (destroy_calls (plugins w)) (set_listeners [] w)) in *.
  specialize (Hheap wd). rewrite Hu in Hheap. destruct Hheap as [h ->].
  assert (w3 = add_trace evs (set_heap h wd)) as ->
      by (eapply hasChanged_no_proxies; [|exact Hc]; exact Hnil).
  rewrite (setState_run u wd newState (set_heap h wd) Hu Hnn). simpl.
  rewrite Hb. simpl in Hc. rewrite Hc. simpl.
  eexists. split; [reflexivity|]. split; [reflexivity|].
  assert (new_events wd
            (add_trace (after_events (plugins w) ns (state w))
               (set_state ns (add_trace evs (set_heap h wd))))
          = evs ++ after_events (plugins w) ns (state w)) as ->.
  { apply new_events_app. simpl. by rewrite app_assoc. }
  split; [reflexivity|].
  rewrite forallb_app, (before_run_hook_calls _ _ _ _ _ Hb).
  by rewrite after_events_hook_calls.
Qed.

Lemma read_all_plain l keys w :
  exists props, read_all (VRef l) keys w = Ok props w.
Proof.
  induction keys as [|key keys [props IH]]; simpl.
  - by eexists.
  - unfold bind, raw_get, gets in *. rewrite IH. by eexists.
Qed.

Lemma spread_with_heap_only l key val : heap_only (spread_with (VRef l) key val).
Proof.
  intros w. unfold spread_with, bind. simpl. unfold gets.
  destruct (read_all_plain l (own_keys (heap_obj w l)) w) as [props ->].
  simpl. by eexists.
Qed.

(** [destroy()] and then [setState(s => ({...s, count: 1}))] on a store
    with one plugin and one listener. *)
Lemma destroy_leaves_store_usable_witness :
  exists wd, StoreCore.destroy watched_counter = Ok tt wd
    /\ new_events watched_counter wd = [DestroyCall 7]
    /\ state wd = VRef 0
    /\ listeners wd = []
    /\ exists w', StoreCore.setState (set_count 1) wd = Ok tt w'
         /\ StoreCore.getState w' = Ok (VRef 1) w'
         /\ new_events wd w'
            = [BeforeUpdateCall 7 (VRef 1) (VRef 0); AfterUpdateCall 7 (VRef 1) (VRef 0)].
Proof.
  destruct (destroy_leaves_store_usable watched_counter eq_refl)
    as (wd & Hd & Hwd & Hst & Hls & Hnext).
  exists wd. split; [exact Hd|].
  split; [rewrite Hwd; reflexivity|]. split; [rewrite Hst; reflexivity|].
  split; [exact Hls|].
  assert (Hpure : heap_only (set_count 1 (state watched_counter)))
    by apply spread_with_heap_only.
  assert (H1 : set_count 1 (state watched_counter) wd
               = Ok (VRef 1) (world_of (set_count 1 (VRef 0) wd)))
    by (rewrite Hwd; vm_compute; reflexivity).
  assert (H2 : StoreCore.hasChanged (VRef 1) (state watched_counter)
                 (add_trace [BeforeUpdateCall 7 (VRef 1) (VRef 0)]
                            (world_of (set_count 1 (VRef 0) wd)))
               = Ok true (add_trace [BeforeUpdateCall 7 (VRef 1) (VRef 0)]
                                    (world_of (set_count 1 (VRef 0) wd))))
    by (rewrite Hwd; vm_compute; reflexivity).
  destruct (Hnext (set_count 1) (VRef 1) _ _ (VRef 1) _
              eq_refl Hpure H1 eq_refl eq_refl eq_refl H2)
    as (w' & Hs & Hg & Hev & _).
  exists w'. split; [exact Hs|]. split; [exact Hg|]. exact Hev.
Defined.

(** ** The reactive store on concrete states *)

(** C1.  On the store [{count: 0, label: "a"}] with one listener,
    [setState(s => ({...s, count: 1}))] changes one top-level key and
    calls the listener twice: once from the set trap of the Level-0 proxy,
    when the key is written, and once from the notification that ends
    setState. *)
Theorem reactive_setState_notifies_twice :
  exists w', ReactiveStore.setState (set_count 1) reactive_counter = Ok tt w'
    /\ heap_obj w' 0 = Obj false 0 [("count", VNum 1); ("label", VStr "a")] false
    /\ listener_calls (new_events reactive_counter w')
       = [ListenerCall 1 (VRef 0); ListenerCall 1 (VRef 0)]
    /\ times_called 1 (new_events reactive_counter w') = 2.
Proof.
  eexists. split; [vm_compute; reflexivity|].
  split; [vm_compute; reflexivity|]. split; vm_compute; reflexivity.
Qed.

(** C3.  On the store whose state is the array [[1, 2, 3]] itself, the
    assignment [reactive[0] = 1] of the value already there calls no
    listener: the set trap of the Level-0 proxy has no rule for numeric
    indices and compares with deepEqual only. *)
Theorem root_array_index_assignment_is_silent :
  exists w', (rs <- ReactiveStore.reactive ;; Set_ rs (index_key 0) (VNum 1)) reactive_numbers
             = Ok tt w'
    /\ listener_calls (new_events reactive_numbers w') = [].
Proof.
  eexists. split; [vm_compute; reflexivity|]. vm_compute; reflexivity.
Qed.

(** The same assignment on the nested array of [{items: [1, 2, 3]}] calls
    the listener. *)
Lemma nested_array_index_assignment_notifies :
  exists w', (rs <- ReactiveStore.reactive ;;
              items <- Get rs "items" ;;
              Set_ items (index_key 0) (VNum 1)) reactive_items
             = Ok tt w'
    /\ listener_calls (new_events reactive_items w') = [ListenerCall 1 (VRef 0)].
Proof.
  eexists. split; [vm_compute; reflexivity|]. vm_compute; reflexivity.
Qed.

(** C4.  On the store whose state is the array [[1, 2, 3]] itself,
    [reactive.pop()] runs with the Level-0 proxy as its receiver and calls
    the listener twice, once for the deleted element and once for the new
    length: the get trap of the Level-0 proxy does not intercept the
    mutating methods. *)
Theorem root_array_pop_notifies_twice :
  exists w', (rs <- ReactiveStore.reactive ;; call_method rs pop) reactive_numbers
             = Ok (VNum 3) w'
    /\ heap_obj w' 0 = Obj true 2 [("0", VNum 1); ("1", VNum 2)] false
    /\ listener_calls (new_events reactive_numbers w')
       = [ListenerCall 1 (VRef 0); ListenerCall 1 (VRef 0)].
Proof.
  eexists. split; [vm_compute; reflexivity|].
  split; vm_compute; reflexivity.
Qed.

(** The same call on the nested array of [{items: [1, 2, 3]}] calls the
    listener once. *)
Lemma nested_array_pop_notifies_once :
  exists w', (rs <- ReactiveStore.reactive ;;
              items <- Get rs "items" ;;
              call_method items pop) reactive_items
             = Ok (VNum 3) w'
    /\ heap_obj w' 1 = Obj true 2 [("0", VNum 1); ("1", VNum 2)] false
    /\ listener_calls (new_events reactive_items w') = [ListenerCall 1 (VRef 0)].
Proof.
  eexists. split; [vm_compute; reflexivity|].
  split; vm_compute; reflexivity.
Qed.


(** ** Values that cannot be proxied *)

Lemma own_set_of_object o prop l v :
  own_get o prop = VRef l -> exists o', own_set o prop v = Some o'.
Proof.
  unfold own_get, own_set. destruct (o_isArray o); simpl.
  - destruct (String.eqb prop "length"); [discriminate|].
    destruct (key_index prop); by eexists.
  - by eexists.
Qed.

Lemma own_get_object_key o prop l :
  own_get o prop = VRef l -> o_isArray o && String.eqb prop "length" = false.
Proof.
  unfold own_get. destruct (o_isArray o && String.eqb prop "length"); [discriminate|done].
Qed.

(** Writing to a property that holds an object succeeds. *)
Lemma raw_set_stored t prop v w :
  (exists l, own_get (heap_obj w t) prop = VRef l) ->
  exists o',
    own_set (heap_obj w t) prop v = Some o'
    /\ raw_set t prop v w = Ok tt (set_heap (<[t := o']> (heap w)) w).
Proof.
  intros [l Hl]. destruct (own_set_of_object _ _ _ v Hl) as [o' Ho'].
  exists o'. split; [exact Ho'|].
  unfold raw_set. by rewrite (own_get_object_key _ _ _ Hl), Ho'.
Qed.



(** ** The middleware chain *)

Lemma blocked_script_inert (s : mw_script) (next : NextFn) :
  never_calls_next s -> inert (run_script s next).
Proof.
  induction s as [|e|k IH|msg v k IH|u k IH]; simpl; intros Hs w.
  - exists []. split; [done|]. left. by rewrite add_trace_nil.
  - exists []. split; [done|]. right. exists e. by rewrite add_trace_nil.
  - unfold bind, StoreCore.getState, gets. apply IH, Hs.
  - unfold bind, console_log, modify.
    destruct (IH Hs (emit (ConsoleLog msg v) w)) as (logs & Hl & Hr).
    exists (ConsoleLog msg v :: logs). split; [done|].
    rewrite emit_add_trace, add_trace_app in Hr. exact Hr.
  - destruct Hs.
Qed.

Lemma script_over_inert (s : mw_script) (next : NextFn) :
  (forall u, inert (next u)) -> inert (run_script s next).
Proof.
  intros Hn. induction s as [|e|k IH|msg v k IH|u k IH]; simpl; intros w.
  - exists []. split; [done|]. left. by rewrite add_trace_nil.
  - exists []. split; [done|]. right. exists e. by rewrite add_trace_nil.
  - unfold bind, StoreCore.getState, gets. apply IH.
  - unfold bind, console_log, modify.
    destruct (IH (emit (ConsoleLog msg v) w)) as (logs & Hl & Hr).
    exists (ConsoleLog msg v :: logs). split; [done|].
    rewrite emit_add_trace, add_trace_app in Hr. exact Hr.
  - unfold bind. destruct (Hn u w) as (logs1 & Hl1 & [Hr1|[e Hr1]]); rewrite Hr1.
    + destruct (IH (add_trace logs1 w)) as (logs2 & Hl2 & Hr2).
      exists (logs1 ++ logs2). split; [by rewrite forallb_app, Hl1, Hl2|].
      rewrite add_trace_app in Hr2. exact Hr2.
    + exists logs1. split; [done|]. right. by exists e.
Qed.

Lemma blocked_script_returns (s : mw_script) (next : NextFn) :
  never_calls_next s -> never_throws s -> inert_ok (run_script s next).
Proof.
  induction s as [|e|k IH|msg v k IH|u k IH]; simpl; intros Hs Ht w.
  - exists []. split; [done|]. by rewrite add_trace_nil.
  - destruct Ht.
  - unfold bind, StoreCore.getState, gets. apply IH; [apply Hs | apply Ht].
  - unfold bind, console_log, modify.
    destruct (IH Hs Ht (emit (ConsoleLog msg v) w)) as (logs & Hl & Hr).
    exists (ConsoleLog msg v :: logs). split; [done|].
    rewrite emit_add_trace, add_trace_app in Hr. exact Hr.
  - destruct Hs.
Qed.

Lemma script_over_inert_returns (s : mw_script) (next : NextFn) :
  (forall u, inert_ok (next u)) -> never_throws s -> inert_ok (run_script s next).
Proof.
  intros Hn. induction s as [|e|k IH|msg v k IH|u k IH]; simpl; intros Ht w.
  - exists []. split; [done|]. by rewrite add_trace_nil.
  - destruct Ht.
  - unfold bind, StoreCore.getState, gets. apply IH, Ht.
  - unfold bind, console_log, modify.
    destruct (IH Ht (emit (ConsoleLog msg v) w)) as (logs & Hl & Hr).
    exists (ConsoleLog msg v :: logs). split; [done|].
    rewrite emit_add_trace, add_trace_app in Hr. exact Hr.
  - unfold bind. destruct (Hn u w) as (logs1 & Hl1 & Hr1); rewrite Hr1.
    destruct (IH Ht (add_trace logs1 w)) as (logs2 & Hl2 & Hr2).
    exists (logs1 ++ logs2). split; [by rewrite forallb_app, Hl1, Hl2|].
    rewrite add_trace_app in Hr2. exact Hr2.
Qed.

Lemma chain_blocked (pre post : list Middleware) (blocker : Middleware) (base : NextFn) :
  (forall u, never_calls_next (blocker u)) ->
  forall u,
    inert (foldr (fun mw next => mw next) base
                 (map bind_store (pre ++ blocker :: post)) u).
Proof.
  intros Hb. induction pre as [|mw pre IH]; simpl; intros u.
  - apply blocked_script_inert, Hb.
  - apply script_over_inert, IH.
Qed.

Lemma chain_blocked_returns (pre post : list Middleware) (blocker : Middleware)
      (base : NextFn) :
  (forall u, never_calls_next (blocker u)) ->
  (forall u, never_throws (blocker u)) ->
  Forall (fun mw : Middleware => forall u, never_throws (mw u)) pre ->
  forall u,
    inert_ok (foldr (fun mw next => mw next) base
                    (map bind_store (pre ++ blocker :: post)) u).
Proof.
  intros Hb Ht Hpre. induction Hpre as [|mw pre Hmw Hpre IH]; simpl; intros u.
  - apply blocked_script_returns; [apply Hb | apply Ht].
  - apply script_over_inert_returns; [apply IH | apply Hmw].
Qed.

(** C9.  StoreFull.setState with a registered middleware that never calls
    its [next]: whether the call returns or a middleware throws, nothing
    happens but writes of console.log, so the stored state is unchanged and
    no listener is called; and when neither that middleware nor one
    registered before it throws, the call returns. *)
Theorem blocking_middleware_suppresses_update
  (s : StoreFull.t) (pre post : list Middleware) (blocker : Middleware) (u : updater) :
  StoreFull.middlewares s = pre ++ blocker :: post ->
  (forall u', never_calls_next (blocker u')) ->
  (exists logs,
     forallb is_console_log logs = true
     /\ (StoreFull.setState u s = Ok tt (add_trace logs (StoreFull.core s))
         \/ exists e, StoreFull.setState u s = Throw e (add_trace logs (StoreFull.core s))))
  /\ ((forall u', never_throws (blocker u')) ->
      Forall (fun mw : Middleware => forall u', never_throws (mw u')) pre ->
      exists w', StoreFull.setState u s = Ok tt w'
        /\ state w' = state (StoreFull.core s)
        /\ heap w' = heap (StoreFull.core s)
        /\ listeners w' = listeners (StoreFull.core s)
        /\ listener_calls (new_events (StoreFull.core s) w') = []
        /\ forallb is_console_log (new_events (StoreFull.core s) w') = true).
Proof.
  intros Hm Hb. unfold StoreFull.setState. rewrite Hm.
  replace (length (pre ++ blocker :: post) =? 0)%nat with false
    by (symmetry; apply Nat.eqb_neq; rewrite length_app; simpl; lia).
  cbv zeta. split.
  - destruct (chain_blocked pre post blocker StoreCore.setState Hb u
                (StoreFull.core s)) as (logs & Hl & Hr).
    exists logs. split; [exact Hl | exact Hr].
  - intros Ht Hpre.
    destruct (chain_blocked_returns pre post blocker StoreCore.setState Hb Ht Hpre u
                (StoreFull.core s)) as (logs & Hl & Hr).
    exists (add_trace logs (StoreFull.core s)). split; [exact Hr|].
    split; [reflexivity|]. split; [reflexivity|]. split; [reflexivity|].
    rewrite (new_events_app _ _ logs) by reflexivity. split; [|exact Hl].
    clear -Hl. induction logs as [|e logs IH]; simpl in *; [done|].
    apply andb_true_iff in Hl as [He Hl]. destruct e; try discriminate. simpl. auto.
Qed.

(** A blocking middleware between two logger middlewares: the outer logger
    writes its two lines, the inner one never runs. *)
Lemma blocking_middleware_suppresses_update_witness :
  exists w', StoreFull.setState (set_count 1) blocked_counter = Ok tt w'
    /\ state w' = VRef 0
    /\ heap w' = counter_heap
    /\ listener_calls (new_events (StoreFull.core blocked_counter) w') = []
    /\ new_events (StoreFull.core blocked_counter) w'
       = [ConsoleLog "Previous state:" (VRef 0); ConsoleLog "Next state:" (VRef 0)].
Proof.
  destruct (blocking_middleware_suppresses_update blocked_counter
              [loggerMiddleware] [loggerMiddleware] blockingMiddleware (set_count 1)
              eq_refl (fun _ => I)) as [_ Hret].
  assert (Ht : forall u', never_throws (blockingMiddleware u')) by (intros; exact I).
  assert (Hpre : Forall (fun mw : Middleware => forall u', never_throws (mw u'))
                        [loggerMiddleware])
    by (constructor; [intros; simpl; auto | constructor]).
  destruct (Hret Ht Hpre) as (w' & Hs & Hst & Hh & _ & Hl & _).
  exists w'. split; [exact Hs|]. split; [rewrite Hst; reflexivity|].
  split; [rewrite Hh; reflexivity|]. split; [exact Hl|].
  pose proof Hs as Hrun. vm_compute in Hrun. injection Hrun as <-.
  vm_compute. reflexivity.
Defined.

(** ** The proxy cache *)

Lemma makeReactive_ref l w :
  makeReactive (VRef l) w =
  match proxyCache w !! l with
  | Some p => Ok (VProxy p) w
  | None =>
      if o_exotic (heap_obj w l)
      then Ok (VRef l)
              (add_trace [ConsoleError "[ReactiveStore] Failed to make object reactive:"] w)
      else Ok (VProxy (length (proxies w)))
              (set_proxyCache (<[l := length (proxies w)]> (proxyCache w))
                 (set_proxies (proxies w ++ [Proxy l false (o_isArray (heap_obj w l))]) w))
  end.
Proof.
  unfold makeReactive. simpl. unfold bind at 1. unfold gets at 1.
  destruct (proxyCache w !! l); [reflexivity|].
  unfold try_catch, bind, gets, new_Proxy.
  destruct (o_exotic (heap_obj w l)); reflexivity.
Qed.

Lemma makeReactive_cases obj w :
  (makeReactive obj w = Ok obj w /\ forall l, obj <> VRef l)
  \/ makeReactive obj w = Unmodelled
  \/ exists l, obj = VRef l.
Proof.
  destruct obj;
    try (left; split;
         [unfold makeReactive; simpl; rewrite ?orb_true_r; reflexivity | congruence]).
  - right. right. by eexists.
  - right. left. reflexivity.
  - right. left. reflexivity.
Qed.

Lemma keeps_cache_refl w : keeps_cache w w.
Proof. by intros H. Qed.

Lemma keeps_cache_trans a b c : keeps_cache a b -> keeps_cache b c -> keeps_cache a c.
Proof. unfold keeps_cache. auto. Qed.

Lemma keeps_cache_heap w h : keeps_cache w (set_heap h w).
Proof. by intros H. Qed.

Lemma keeps_cache_emit w e : keeps_cache w (emit e w).
Proof. by intros H. Qed.

Lemma cache_wf_extend w l a :
  cache_wf w -> proxyCache w !! l = None ->
  cache_wf (set_proxyCache (<[l := length (proxies w)]> (proxyCache w))
              (set_proxies (proxies w ++ [Proxy l false a]) w)).
Proof.
  intros [H1 H2] Hnone. split; simpl.
  - intros l' p'. destruct (decide (l = l')) as [<-|Hne].
    + rewrite lookup_insert_eq. intros [= <-]. exists a.
      by rewrite lookup_app_r, Nat.sub_diag.
    + rewrite lookup_insert_ne by done. intros Hc.
      destruct (H1 _ _ Hc) as [a' Ha']. exists a'.
      by rewrite lookup_app_l by (eapply lookup_lt_Some; eauto).
  - intros p' pr Hp Hroot.
    destruct (decide (p' < length (proxies w))) as [Hlt|Hge].
    + rewrite lookup_app_l in Hp by done.
      pose proof (H2 _ _ Hp Hroot) as Hc.
      destruct (decide (l = p_target pr)) as [->|Hne]; [congruence|].
      by rewrite lookup_insert_ne.
    + rewrite lookup_app_r in Hp by lia.
      destruct (p' - length (proxies w)) as [|k] eqn:E; simpl in Hp; [|done].
      injection Hp as <-. simpl. rewrite lookup_insert_eq. f_equal. lia.
Qed.

Lemma keeps_cache_makeReactive obj w :
  match makeReactive obj w with
  | Ok _ w' | Throw _ w' => keeps_cache w w'
  | Unmodelled => True
  end.
Proof.
  destruct (makeReactive_cases obj w) as [[-> _]|[->|[l ->]]];
    [apply keeps_cache_refl | exact I |].
  rewrite makeReactive_ref.
  destruct (proxyCache w !! l) eqn:Hc; [apply keeps_cache_refl|].
  destruct (o_exotic (heap_obj w l)); [by intros H|].
  intros H. by apply cache_wf_extend.
Qed.

Lemma grows_refl w : grows w w.
Proof. split; [exists []; by rewrite app_nil_r | auto]. Qed.

Lemma grows_trans a b c : grows a b -> grows b c -> grows a c.
Proof.
  intros [[m1 H1] G1] [[m2 H2] G2]. split; [|auto].
  exists (m1 ++ m2). by rewrite H2, H1, app_assoc.
Qed.

Lemma grows_heap w h : grows w (set_heap h w).
Proof. split; [exists []; simpl; by rewrite app_nil_r | auto]. Qed.

Lemma grows_emit w e : grows w (emit e w).
Proof. split; [exists []; simpl; by rewrite app_nil_r | auto]. Qed.

Lemma grows_makeReactive obj w :
  match makeReactive obj w with
  | Ok _ w' | Throw _ w' => grows w w'
  | Unmodelled => True
  end.
Proof.
  destruct (makeReactive_cases obj w) as [[-> _]|[->|[l ->]]];
    [apply grows_refl | exact I |].
  rewrite makeReactive_ref.
  destruct (proxyCache w !! l) eqn:Hc; [apply grows_refl|].
  destruct (o_exotic (heap_obj w l)); [apply grows_emit|].
  split; simpl; [by eexists|].
  intros l' p' Hl'. rewrite lookup_insert_ne; [done|congruence].
Qed.

Lemma createReactiveState_run st w :
  ReactiveStore.createReactiveState st w =
  match st with
  | VRef l =>
      if o_exotic (heap_obj w l)
      then Ok st (add_trace [ConsoleError "[ReactiveStore] Failed to create reactive state:"] w)
      else Ok (VProxy (length (proxies w)))
              (set_proxies (proxies w ++ [Proxy l true (o_isArray (heap_obj w l))]) w)
  | VProxy _ | VStore => Unmodelled
  | _ => Ok st (add_trace [ConsoleError "[ReactiveStore] Failed to create reactive state:"] w)
  end.
Proof.
  unfold ReactiveStore.createReactiveState, try_catch, bind.
  destruct st; simpl; try reflexivity.
  - unfold gets, new_Proxy. destruct (o_exotic (heap_obj w l)); reflexivity.
  - unfold bind, proxy_of. destruct (proxies w !! p); reflexivity.
Qed.

Lemma cache_wf_no_nested w :
  proxyCache w = ∅ ->
  (forall p pr, proxies w !! p = Some pr -> p_root pr = true) ->
  cache_wf w.
Proof.
  intros Hc Hp. split.
  - intros l p. by rewrite Hc, lookup_empty.
  - intros p pr Hl Hr. rewrite (Hp _ _ Hl) in Hr. discriminate.
Qed.

(** A store starts with a well-formed cache. *)
Lemma create_cache_wf h initialState room w :
  ReactiveStore.create h initialState room = Ok tt w -> cache_wf w.
Proof.
  unfold ReactiveStore.create, StoreCore.create. simpl.
  unfold ret, bind. rewrite createReactiveState_run. unfold modify.
  destruct initialState; simpl; try discriminate;
    try (intros [= <-]; apply cache_wf_no_nested; [reflexivity|]; simpl; intros *;
         by rewrite lookup_nil).
  destruct (o_exotic _); simpl; intros [= <-]; apply cache_wf_no_nested;
    try reflexivity; simpl.
  - intros *. by rewrite lookup_nil.
  - intros [|p] pr; simpl; [|by rewrite lookup_nil]. by intros [= <-].
Qed.

(** ** Reading a property twice *)

Lemma alist_get_set_same k v ps : alist_get k (alist_set k v ps) = Some v.
Proof.
  induction ps as [|[k' v'] ps IH]; simpl.
  - by rewrite String.eqb_refl.
  - destruct (String.eqb k k') eqn:E; simpl; rewrite E; [reflexivity | exact IH].
Qed.

Lemma alist_get_set_other k k' v ps :
  String.eqb k' k = false -> alist_get k' (alist_set k v ps) = alist_get k' ps.
Proof.
  intros Hne. induction ps as [|[k0 v0] ps IH]; simpl.
  - by rewrite Hne.
  - destruct (String.eqb k k0) eqn:E; simpl.
    + apply String.eqb_eq in E as <-. by rewrite Hne.
    + by rewrite IH.
Qed.

Lemma alist_get_filter_below k n ps :
  key_index k = None -> alist_get k (List.filter (below n) ps) = alist_get k ps.
Proof.
  intros Hk. induction ps as [|[k0 v0] ps IH]; simpl; [done|].
  unfold below at 1. simpl.
  destruct (key_index k0) as [i|] eqn:E.
  - assert (String.eqb k k0 = false) as Hne.
    { apply String.eqb_neq. intros ->. congruence. }
    destruct (i <? n)%nat; simpl; rewrite Hne; exact IH.
  - simpl. by rewrite IH.
Qed.

Lemma own_get_set_same o k v o' : own_set o k v = Some o' -> own_get o' k = v.
Proof.
  unfold own_set, own_get. destruct (o_isArray o) eqn:Harr.
  - destruct (String.eqb k "length") eqn:Hlen.
    + destruct v; try discriminate.
      destruct ((0 <=? n)%Z && (n <? 4294967296)%Z) eqn:Hr; [|discriminate].
      intros [= <-]. simpl. f_equal. apply andb_true_iff in Hr as [Hr _].
      apply Z2Nat.id. lia.
    + destruct (key_index k); intros [= <-]; simpl; by rewrite alist_get_set_same.
  - intros [= <-]. simpl. by rewrite alist_get_set_same.
Qed.

Lemma own_get_isReactive_set o k v o' :
  String.eqb k "__isReactive" = false ->
  own_set o k v = Some o' ->
  own_get o' "__isReactive" = own_get o "__isReactive".
Proof.
  intros Hk. rewrite String.eqb_sym in Hk.
  unfold own_set, own_get. destruct (o_isArray o) eqn:Harr; simpl.
  - destruct (String.eqb k "length") eqn:Hlen.
    + destruct v; try discriminate.
      destruct ((0 <=? n)%Z && (n <? 4294967296)%Z); [|discriminate].
      intros [= <-]. simpl. by rewrite alist_get_filter_below.
    + destruct (key_index k); intros [= <-]; simpl; by rewrite alist_get_set_other.
  - intros [= <-]. simpl. by rewrite alist_get_set_other.
Qed.

Lemma own_set_exotic o k v o' : own_set o k v = Some o' -> o_exotic o' = o_exotic o.
Proof.
  unfold own_set. destruct (o_isArray o).
  - destruct (String.eqb k "length").
    + destruct v; try discriminate.
      destruct ((0 <=? n)%Z && (n <? 4294967296)%Z); [|discriminate]. by intros [= <-].
    + destruct (key_index k); by intros [= <-].
  - by intros [= <-].
Qed.

Lemma heap_obj_stored w t o :
  t < length (heap w) -> heap_obj (set_heap (<[t := o]> (heap w)) w) t = o.
Proof. intros Hlt. unfold heap_obj. simpl. by rewrite list_lookup_insert_eq. Qed.

Lemma heap_obj_other w t o l :
  t <> l -> heap_obj (set_heap (<[t := o]> (heap w)) w) l = heap_obj w l.
Proof. intros Hne. unfold heap_obj. simpl. by rewrite list_lookup_insert_ne. Qed.

Lemma own_get_allocated w t prop l :
  own_get (heap_obj w t) prop = VRef l -> t < length (heap w).
Proof.
  intros H. destruct (decide (t < length (heap w))) as [|Hge]; [done|].
  unfold heap_obj in H. rewrite lookup_ge_None_2 in H by lia. discriminate.
Qed.

Lemma needs_wrap_run v w :
  needs_wrap v w =
  match v with
  | VRef l => Ok (negb (truthy (own_get (heap_obj w l) "__isReactive"))) w
  | VProxy q => match proxies w !! q with Some _ => Ok false w | None => Unmodelled end
  | VStore => Ok true w
  | _ => Ok false w
  end.
Proof.
  unfold needs_wrap.
  destruct v; simpl; rewrite ?andb_false_r; try reflexivity.
  unfold bind, proxy_of. destruct (proxies w !! p); reflexivity.
Qed.

Lemma wrap_on_read_of_proxy t prop q w :
  own_get (heap_obj w t) prop = VProxy q ->
  is_Some (proxies w !! q) ->
  wrap_on_read t prop w = Ok (VProxy q) w.
Proof.
  intros Hv [pr Hq]. unfold wrap_on_read, bind, raw_get, gets.
  rewrite Hv, needs_wrap_run, Hq. reflexivity.
Qed.

Lemma wrap_on_read_twice t prop w r w1 :
  cache_wf w ->
  String.eqb prop "__isReactive" = false ->
  wrap_on_read t prop w = Ok r w1 ->
  exists w2, wrap_on_read t prop w1 = Ok r w2 /\ proxies w2 = proxies w1.
Proof.
  intros [Hwf1 Hwf2] Hprop.
  unfold wrap_on_read at 1. unfold bind at 1. unfold raw_get at 1. unfold gets at 1.
  unfold bind at 1. rewrite needs_wrap_run.
  destruct (own_get (heap_obj w t) prop) as [| |b|n| |s|l|q|] eqn:Hv.
  all: try (intros [= <- <-]; exists w; split; [|reflexivity];
            unfold wrap_on_read, bind, raw_get, gets; rewrite Hv, needs_wrap_run;
            reflexivity).
  - pose proof (own_get_allocated _ _ _ _ Hv) as Ht.
    destruct (truthy (own_get (heap_obj w l) "__isReactive")) eqn:Hr; simpl.
    { intros [= <- <-]. exists w. split; [|reflexivity].
      unfold wrap_on_read, bind, raw_get, gets. rewrite Hv, needs_wrap_run, Hr.
      reflexivity. }
    unfold bind at 1. rewrite makeReactive_ref.
    destruct (proxyCache w !! l) as [q|] eqn:Hc.
    + (* cached *)
      destruct (raw_set_stored t prop (VProxy q) w) as (o' & Hs & Hset); [by exists l|].
      unfold bind. rewrite Hset.
      intros [= <- <-]. eexists. split; [|reflexivity].
      apply wrap_on_read_of_proxy.
      * rewrite heap_obj_stored by done. eapply own_get_set_same, Hs.
      * simpl. destruct (Hwf1 _ _ Hc) as [a ->]. by eexists.
    + destruct (o_exotic (heap_obj w l)) eqn:Hex.
      * (* the object cannot be proxied *)
        set (wm := add_trace
                     [ConsoleError "[ReactiveStore] Failed to make object reactive:"] w).
        destruct (raw_set_stored t prop (VRef l) wm) as (o' & Hs & Hset); [by exists l|].
        unfold bind. rewrite Hset. intros [= <- <-].
        match goal with |- context [wrap_on_read t prop ?x] => set (w1 := x) end.
        assert (Hobj_t : heap_obj w1 t = o').
        { unfold w1, heap_obj. simpl. by rewrite list_lookup_insert_eq. }
        assert (Hobj_l : own_get (heap_obj w1 l) "__isReactive"
                         = own_get (heap_obj w l) "__isReactive"
                         /\ o_exotic (heap_obj w1 l) = true).
        { destruct (decide (t = l)) as [->|Hne].
          - rewrite Hobj_t. split.
            + eapply own_get_isReactive_set; eauto.
            + by rewrite (own_set_exotic _ _ _ _ Hs).
          - unfold w1, heap_obj. simpl. rewrite list_lookup_insert_ne by done.
            split; [reflexivity | exact Hex]. }
        destruct Hobj_l as [Hisr Hex1].
        assert (Hv1 : own_get (heap_obj w1 t) prop = VRef l)
          by (rewrite Hobj_t; eapply own_get_set_same, Hs).
        set (wm1 := add_trace
                      [ConsoleError "[ReactiveStore] Failed to make object reactive:"] w1).
        destruct (raw_set_stored t prop (VRef l) wm1) as (o'' & _ & Hset1);
          [by exists l|].
        unfold wrap_on_read, bind, raw_get, gets.
        rewrite Hv1, needs_wrap_run, Hisr, Hr. simpl.
        rewrite makeReactive_ref.
        change (proxyCache w1) with (proxyCache w). rewrite Hc, Hex1.
        fold wm1. rewrite Hset1. eexists. split; reflexivity.
      * (* a new proxy *)
        set (wm := set_proxyCache (<[l:=length (proxies w)]> (proxyCache w))
                     (set_proxies
                        (proxies w ++ [Proxy l false (o_isArray (heap_obj w l))]) w)).
        destruct (raw_set_stored t prop (VProxy (length (proxies w))) wm)
          as (o' & Hs & Hset); [by exists l|].
        unfold bind. rewrite Hset.
        intros [= <- <-]. eexists. split; [|reflexivity].
        apply wrap_on_read_of_proxy.
        -- unfold heap_obj. simpl. rewrite list_lookup_insert_eq by done. simpl.
           eapply own_get_set_same, Hs.
        -- simpl. rewrite lookup_app_r by lia. rewrite Nat.sub_diag. by eexists.
  - destruct (proxies w !! q) eqn:Hq; [|discriminate].
    intros [= <- <-]. exists w. split; [|reflexivity].
    apply wrap_on_read_of_proxy; [exact Hv | by eexists].
  - unfold bind. discriminate.
Qed.

Lemma get_trap_ordinary pr prop :
  String.eqb prop "__isReactive" = false ->
  (if p_root pr then createReactiveState_get pr prop else makeReactive_get pr prop)
  = if p_root pr
    then if String.eqb prop "__store" then ret VStore
         else wrap_on_read (p_target pr) prop
    else if p_isArray pr && is_mutating_method prop then unmodelled
         else wrap_on_read (p_target pr) prop.
Proof.
  intros H. unfold createReactiveState_get, makeReactive_get. rewrite H. reflexivity.
Qed.

Lemma Get_grows v prop : pres grows (Get v prop).
Proof.
  apply (pres_Get grows grows_refl grows_trans grows_heap grows_makeReactive).
Qed.

Lemma Get_keeps_cache v prop : pres keeps_cache (Get v prop).
Proof.
  apply (pres_Get keeps_cache keeps_cache_refl keeps_cache_trans keeps_cache_heap
           keeps_cache_makeReactive).
Qed.

Lemma Get_proxy_twice p prop w r w1 :
  cache_wf w ->
  Get (VProxy p) prop w = Ok r w1 ->
  exists w2, Get (VProxy p) prop w1 = Ok r w2 /\ proxies w2 = proxies w1.
Proof.
  intros Hwf Hget.
  pose proof (Get_grows (VProxy p) prop w) as Hg. rewrite Hget in Hg.
  destruct Hg as [[more Hmore] _].
  revert Hget. simpl. unfold bind at 1. unfold proxy_of.
  destruct (proxies w !! p) as [pr|] eqn:Hp; [|discriminate].
  assert (proxies w1 !! p = Some pr) as Hp1.
  { rewrite Hmore. by apply lookup_app_l_Some. }
  unfold bind at 1. rewrite Hp1.
  destruct (String.eqb prop "__isReactive") eqn:E1.
  { unfold createReactiveState_get, makeReactive_get. rewrite E1.
    destruct (p_root pr); intros [= <- <-]; by eexists. }
  rewrite (get_trap_ordinary pr prop E1).
  destruct (p_root pr).
  - destruct (String.eqb prop "__store").
    + intros [= <- <-]. by eexists.
    + by apply wrap_on_read_twice.
  - destruct (p_isArray pr && is_mutating_method prop); [discriminate|].
    by apply wrap_on_read_twice.
Qed.



(** Every operation on the reactive store keeps the cache well formed, and
    only adds to the proxy table and to the cache. *)
Lemma operations_keep_cache :
  (forall v prop, pres keeps_cache (Get v prop))
  /\ (forall v prop val, pres keeps_cache (Set_ v prop val))
  /\ (forall v prop, pres keeps_cache (Delete v prop))
  /\ (forall a b, pres keeps_cache (deepEqual a b))
  /\ (forall recv c,
        (forall f a b, c = sort (Some f) -> pres keeps_cache (f a b)) ->
        pres keeps_cache (call_method recv c))
  /\ (forall u : updater,
        (forall v, pres keeps_cache (u v)) ->
        pres keeps_cache (ReactiveStore.setState u)).
Proof.
  repeat split; intros.
  - apply Get_keeps_cache.
  - apply (pres_Set keeps_cache keeps_cache_refl keeps_cache_trans keeps_cache_heap
             keeps_cache_emit keeps_cache_makeReactive).
  - apply (pres_Delete keeps_cache keeps_cache_refl keeps_cache_trans keeps_cache_heap
             keeps_cache_emit keeps_cache_makeReactive).
  - apply (pres_deepEqual keeps_cache keeps_cache_refl keeps_cache_trans keeps_cache_heap
             keeps_cache_makeReactive).
  - by apply (pres_call_method keeps_cache keeps_cache_refl keeps_cache_trans
                keeps_cache_heap keeps_cache_emit keeps_cache_makeReactive).
  - by apply (pres_reactive_setState keeps_cache keeps_cache_refl keeps_cache_trans
                keeps_cache_heap keeps_cache_emit keeps_cache_makeReactive).
Qed.

Lemma operations_grow :
  (forall v prop, pres grows (Get v prop))
  /\ (forall v prop val, pres grows (Set_ v prop val))
  /\ (forall v prop, pres grows (Delete v prop))
  /\ (forall a b, pres grows (deepEqual a b))
  /\ (forall recv c,
        (forall f a b, c = sort (Some f) -> pres grows (f a b)) ->
        pres grows (call_method recv c))
  /\ (forall u : updater,
        (forall v, pres grows (u v)) ->
        pres grows (ReactiveStore.setState u)).
Proof.
  repeat split; intros.
  - apply Get_grows.
  - apply (pres_Set grows grows_refl grows_trans grows_heap grows_emit grows_makeReactive).
  - apply (pres_Delete grows grows_refl grows_trans grows_heap grows_emit
             grows_makeReactive).
  - apply (pres_deepEqual grows grows_refl grows_trans grows_heap grows_makeReactive).
  - by apply (pres_call_method grows grows_refl grows_trans grows_heap grows_emit
                grows_makeReactive).
  - by apply (pres_reactive_setState grows grows_refl grows_trans grows_heap grows_emit
                grows_makeReactive).
Qed.

(** ** Nested arrays

    What the Level-0 handler lacks, the handler of [makeReactive] has:
    an assignment to an index of a nested array always notifies, and a
    mutating method of a nested array runs on the target and is followed
    by one notification. *)

Lemma numeral_digits d :
  forallb is_digit (list_ascii_of_string (NilEmpty.string_of_uint d)) = true.
Proof. induction d; simpl; auto. Qed.

Lemma index_key_chars n :
  exists c cs,
    list_ascii_of_string (index_key n) = c :: cs
    /\ forallb is_digit (c :: cs) = true.
Proof.
  unfold index_key.
  pose proof (numeral_digits (N.to_uint (N.of_nat n))) as Hd.
  destruct (N.to_uint (N.of_nat n)) eqn:E; simpl in *;
    try (eexists _, _; split; [reflexivity | exact Hd]).
  exfalso. destruct (N.of_nat n) as [|p]; [discriminate|].
  by apply (Unsigned.to_uint_nonnil p).
Qed.

Lemma digit_not_space c : is_digit c = true -> is_space c = false.
Proof.
  unfold is_digit, is_space. intros H.
  apply andb_true_iff in H as [H1 H2].
  apply Nat.leb_le in H1. apply Nat.leb_le in H2.
  apply orb_false_iff. split.
  - apply andb_false_iff. right. apply Nat.leb_gt. lia.
  - apply Nat.eqb_neq. lia.
Qed.

Lemma drop_spaces_digit c cs : is_digit c = true -> drop_spaces (c :: cs) = c :: cs.
Proof. intros H. simpl. by rewrite (digit_not_space c H). Qed.

Lemma trim_digits l :
  l <> [] -> forallb is_digit l = true -> trim l = l.
Proof.
  intros Hne Hd. unfold trim.
  destruct l as [|c cs]; [done|]. simpl in Hd. apply andb_true_iff in Hd as [Hc Hcs].
  rewrite (drop_spaces_digit c cs Hc).
  destruct (rev (c :: cs)) as [|x xs] eqn:Er.
  - apply (f_equal (@length _)) in Er. rewrite length_rev in Er. discriminate.
  - assert (is_digit x = true) as Hx.
    { assert (In x (c :: cs)) as Hin.
      { apply in_rev. rewrite Er. by left. }
      assert (forallb is_digit (c :: cs) = true) as Hall by (simpl; by rewrite Hc, Hcs).
      rewrite forallb_forall in Hall. by apply Hall. }
    rewrite (drop_spaces_digit x xs Hx), <- Er. apply rev_involutive.
Qed.

Lemma span_digits l :
  forallb is_digit l = true -> span is_digit l = (length l, []).
Proof.
  induction l as [|c cs IH]; simpl; [done|].
  intros [Hc Hcs]%andb_true_iff. rewrite Hc, (IH Hcs). reflexivity.
Qed.

Lemma digit_cases c :
  is_digit c = true ->
  Ascii.eqb c "+" = false /\ Ascii.eqb c "-" = false
  /\ Ascii.eqb c "x" = false /\ Ascii.eqb c "X" = false
  /\ Ascii.eqb c "o" = false /\ Ascii.eqb c "O" = false
  /\ Ascii.eqb c "b" = false /\ Ascii.eqb c "B" = false
  /\ Ascii.eqb c "I" = false /\ Ascii.eqb c "N" = false.
Proof.
  intros H. repeat split; apply Ascii.eqb_neq; intros ->; discriminate.
Qed.

Lemma unsigned_decimal_digits c cs :
  forallb is_digit (c :: cs) = true -> unsigned_decimal (c :: cs) = true.
Proof.
  intros Hd. unfold unsigned_decimal.
  rewrite bool_decide_eq_false_2.
  - rewrite (span_digits _ Hd). reflexivity.
  - simpl. intros [= -> _]. discriminate.
Qed.

Lemma index_key_is_numeric n : isNumericIndex (index_key n) = true.
Proof.
  destruct (index_key_chars n) as (c & cs & Hl & Hd).
  unfold isNumericIndex. apply andb_true_iff. split.
  - unfold string_is_numeric. rewrite Hl, trim_digits by done.
    pose proof Hd as Hd'. simpl in Hd'. apply andb_true_iff in Hd' as [Hc Hcs].
    destruct (digit_cases c Hc) as (P1 & P2 & _).
    destruct cs as [|c2 rest].
    + unfold skip_sign. rewrite P1, P2. simpl. by apply unsigned_decimal_digits.
    + simpl in Hcs. apply andb_true_iff in Hcs as [Hc2 Hrest].
      destruct (digit_cases c2 Hc2) as (_ & _ & Q1 & Q2 & Q3 & Q4 & Q5 & Q6 & _).
      rewrite Q1, Q2, Q3, Q4, Q5, Q6. simpl. rewrite !andb_false_r.
      unfold skip_sign. rewrite P1, P2. simpl. by apply unsigned_decimal_digits.
  - apply negb_true_iff, String.eqb_neq. intros Heq.
    rewrite Heq in Hl. simpl in Hl. injection Hl as <- _. discriminate.
Qed.

Lemma notifyListeners_returns w w' :
  StoreCore.notifyListeners w = Ok tt w' ->
  w' = add_trace (map (fun l => ListenerCall (l_id l) (state w)) (listeners w)) w.
Proof.
  unfold StoreCore.notifyListeners. unfold bind at 1. unfold gets at 1.
  generalize (listeners w) as ls.
  assert (forall ls w0 w1,
            for_each ls
              (fun listener =>
                 s <- gets state ;;
                 call (ListenerCall (l_id listener) s) (l_body listener s) ;;; ret tt) w0
            = Ok tt w1 ->
            w1 = add_trace (map (fun l => ListenerCall (l_id l) (state w0)) ls) w0) as H.
  { induction ls as [|l ls IH]; intros w0 w1; simpl.
    - intros [= <-]. by rewrite add_trace_nil.
    - unfold bind at 1. unfold bind at 1. unfold gets at 1.
      unfold bind at 1. unfold call. unfold bind at 1. unfold modify at 1.
      destruct (l_body l (state w0)); simpl; [|discriminate].
      intros Hrest. apply IH in Hrest. rewrite Hrest. simpl.
      rewrite emit_add_trace, add_trace_app. reflexivity. }
  intros ls. apply H.
Qed.

Lemma listener_calls_of_calls s ls :
  listener_calls (map (fun l => ListenerCall (l_id l) s) ls)
  = map (fun l => ListenerCall (l_id l) s) ls.
Proof.
  induction ls as [|l ls IH]; simpl; [done|].
  unfold listener_calls in *. simpl. by rewrite IH.
Qed.

Lemma set_trap_prefix_quiet target prop val :
  pres quiet
    (oldValue <- raw_get target prop ;;
     wrap <- needs_wrap val ;;
     reactiveValue <- (if wrap then makeReactive val else ret val) ;;
     raw_set target prop reactiveValue ;;;
     ret oldValue).
Proof.
  repeat (first [ apply pres_ret, quiet_refl
                | apply pres_raw_get, quiet_refl
                | apply pres_raw_set; [apply quiet_refl|apply quiet_heap]
                | apply pres_needs_wrap; [apply quiet_refl|apply quiet_trans]
                | apply pres_makeReactive, quiet_makeReactive
                | apply pres_bind; [apply quiet_trans| |intros ?]
                | apply pres_if ]).
Qed.

Lemma nested_index_assignment_always_notifies pr n val w w' :
  p_isArray pr = true ->
  makeReactive_set pr (index_key n) val w = Ok true w' ->
  listener_calls (new_events w w')
  = map (fun l => ListenerCall (l_id l) (state w)) (listeners w).
Proof.
  intros Harr. unfold makeReactive_set. rewrite Harr, index_key_is_numeric.
  pose proof (set_trap_prefix_quiet (p_target pr) (index_key n) val w) as Hq.
  revert Hq. unfold bind, ret.
  destruct (raw_get (p_target pr) (index_key n) w) as [old w0|e w0|]; try discriminate.
  destruct (needs_wrap val w0) as [wrap wa|e wa|]; try discriminate.
  destruct ((if wrap then makeReactive val else fun w1 => Ok val w1) wa)
    as [rv wb|e wb|]; try discriminate.
  destruct (raw_set (p_target pr) (index_key n) rv wb) as [[] wc|e wc|]; try discriminate.
  intros Hq.
  destruct (StoreCore.notifyListeners wc) as [[] wd|e wd|] eqn:Hn; try discriminate.
  intros [= <-]. apply notifyListeners_returns in Hn. subst wd.
  destruct Hq as (Hst & _ & Hls & _ & _ & evs & Htr & Hevs).
  unfold new_events. simpl. rewrite Htr, <- app_assoc, drop_app_length.
  rewrite listener_calls_app, (listener_calls_console _ Hevs). simpl.
  rewrite Hst, Hls. apply listener_calls_of_calls.
Qed.

Lemma method_name_is_mutating c : is_mutating_method (method_name c) = true.
Proof. by destruct c. Qed.

Lemma nested_method_is_intercepted p pr c w :
  proxies w !! p = Some pr -> p_root pr = false -> p_isArray pr = true ->
  call_method (VProxy p) c w
  = (result <- apply_method c (VRef (p_target pr)) ;;
     StoreCore.notifyListeners ;;;
     ret result) w.
Proof.
  intros Hp Hroot Harr. simpl. unfold bind at 1. unfold proxy_of.
  rewrite Hp, Hroot, Harr, method_name_is_mutating. reflexivity.
Qed.

(** ** The earlier StoreCore on the same inputs *)

(** The earlier setState commits an equal-by-value object and calls the
    listener. *)
Lemma earlier_setState_commits_equal_value :
  exists w', EarlierStoreCore.setState (set_count 0) light_counter = Ok tt w'
    /\ state w' = VRef 1
    /\ listener_calls (new_events light_counter w') = [ListenerCall 1 (VRef 1)].
Proof.
  eexists. split; [vm_compute; reflexivity|]. split; vm_compute; reflexivity.
Qed.

(** In the earlier setState the exception of a listener leaves setState
    and the listener after it is not called. *)
Lemma earlier_setState_listener_exception_escapes :
  exists w', EarlierStoreCore.setState (set_count 1) light_counter_two
             = Throw (UserError 1) w'
    /\ listener_calls (new_events light_counter_two w') = [ListenerCall 1 (VRef 1)].
Proof.
  eexists. split; [vm_compute; reflexivity|]. vm_compute; reflexivity.
Qed.

(** * Further properties, read off the code *)

(** ** Subscribing and unsubscribing *)

Lemma subscribe_hooks_run lid ps w :
  (fix map_hooks (ps : list plugin) : M (list nat) :=
     match ps with
     | [] => ret []
     | plugin :: ps' =>
         r <- match onSubscribe plugin with
              | Some f => call (SubscribeCall (pl_id plugin) lid) (f lid)
              | None => ret VUndef
              end ;;
         rest <- map_hooks ps' ;;
         ret (if truthy r then pl_id plugin :: rest else rest)
     end) ps w
  = match subscribe_run ps lid with
    | (evs, inl ids) => Ok ids (add_trace evs w)
    | (evs, inr e) => Throw e (add_trace evs w)
    end.
Proof.
  revert w. induction ps as [|p ps IH]; intros w.
  - simpl. unfold ret. by rewrite add_trace_nil.
  - simpl. unfold bind at 1.
    destruct (onSubscribe p) as [f|].
    + unfold call, bind at 1, modify at 1.
      destruct (f lid) as [r|e]; simpl.
      * unfold ret at 1. unfold bind at 1. rewrite IH.
        destruct (subscribe_run ps lid) as [evs [ids|e]];
          rewrite emit_add_trace, add_trace_app; reflexivity.
      * unfold throw. rewrite emit_add_trace. reflexivity.
    + unfold ret at 1. unfold bind at 1. rewrite IH. simpl.
      destruct (subscribe_run ps lid) as [evs [ids|e]]; reflexivity.
Qed.

Lemma subscribe_run_spec l w :
  StoreCore.subscribe l w =
  match subscribe_run (plugins w) (l_id l) with
  | (evs, inl ids) => Ok ids (add_trace evs (add_listener l w))
  | (evs, inr e) => Throw e (add_trace evs (add_listener l w))
  end.
Proof.
  unfold StoreCore.subscribe. unfold bind at 1. unfold modify at 1.
  unfold bind at 1. unfold gets at 1. rewrite subscribe_hooks_run.
  fold (add_listener l w).
  replace (plugins (add_listener l w)) with (plugins w)
    by (unfold add_listener; destruct (existsb _ _); reflexivity).
  reflexivity.
Qed.

Lemma teardown_loop ids w :
  for_each ids (fun pid => modify (emit (TeardownCall pid))) w
  = Ok tt (add_trace (map TeardownCall ids) w).
Proof.
  revert w. induction ids as [|i ids IH]; intros w; simpl.
  - unfold ret. by rewrite add_trace_nil.
  - unfold bind, modify. rewrite IH, emit_add_trace, add_trace_app. reflexivity.
Qed.

Lemma filter_absent lid (ls : list listener) :
  existsb (fun l => Nat.eqb (l_id l) lid) ls = false ->
  List.filter (fun l => negb (Nat.eqb (l_id l) lid)) ls = ls.
Proof.
  induction ls as [|l ls IH]; simpl; [done|].
  intros [H1 H2]%orb_false_iff. rewrite H1. simpl. by rewrite IH.
Qed.

Lemma filter_removes lid (ls : list listener) :
  existsb (fun l => Nat.eqb (l_id l) lid)
          (List.filter (fun l => negb (Nat.eqb (l_id l) lid)) ls) = false.
Proof.
  induction ls as [|l ls IH]; simpl; [done|].
  destruct (Nat.eqb (l_id l) lid) eqn:E; simpl; [done|]. by rewrite E.
Qed.

Lemma subscribed_add_listener l w : subscribed (l_id l) (add_listener l w) = true.
Proof.
  unfold subscribed, add_listener.
  destruct (existsb _ (listeners w)) eqn:E; [done|].
  simpl. rewrite existsb_app. simpl. rewrite Nat.eqb_refl. apply orb_true_iff. right. done.
Qed.

(** X1.  The closure [subscribe] returns undoes the subscription:
    the listener is in the set after [subscribe] and out of it after the
    closure ran, the set of a store that did not hold the listener is back
    to what it was, and the teardowns the [onSubscribe] hooks returned are
    called, in the order of the plugins. *)
Theorem unsubscribe_undoes_subscribe
  (l : listener) (w : world) (evs : list event) (ids : list nat) :
  subscribe_run (plugins w) (l_id l) = (evs, inl ids) ->
  exists w1 w2,
    StoreCore.subscribe l w = Ok ids w1
    /\ subscribed (l_id l) w1 = true
    /\ StoreCore.unsubscribe l ids w1 = Ok tt w2
    /\ subscribed (l_id l) w2 = false
    /\ (subscribed (l_id l) w = false -> listeners w2 = listeners w)
    /\ state w2 = state w
    /\ new_events w w2 = evs ++ map TeardownCall ids.
Proof.
  intros Hrun. rewrite subscribe_run_spec, Hrun.
  eexists _, _. split; [reflexivity|].
  split; [apply subscribed_add_listener|].
  unfold StoreCore.unsubscribe. unfold bind, modify. rewrite teardown_loop.
  split; [reflexivity|].
  split; [apply filter_removes|].
  split.
  - intros Hnot. simpl. unfold add_listener. unfold subscribed in Hnot. rewrite Hnot.
    simpl. rewrite List.filter_app. simpl. rewrite Nat.eqb_refl. simpl.
    rewrite app_nil_r. by apply filter_absent.
  - split.
    + simpl. unfold add_listener. destruct (existsb _ _); reflexivity.
    + apply new_events_app. simpl.
      replace (trace (add_listener l w)) with (trace w)
        by (unfold add_listener; destruct (existsb _ _); reflexivity).
      by rewrite app_assoc.
Qed.

Lemma unsubscribe_undoes_subscribe_witness :
  exists w1 w2,
    StoreCore.subscribe (quiet_listener 2) light_counter = Ok [] w1
    /\ subscribed 2 w1 = true
    /\ StoreCore.unsubscribe (quiet_listener 2) [] w1 = Ok tt w2
    /\ subscribed 2 w2 = false
    /\ listeners w2 = listeners light_counter.
Proof.
  destruct (unsubscribe_undoes_subscribe (quiet_listener 2) light_counter [] [] eq_refl)
    as (w1 & w2 & H1 & H2 & H3 & H4 & H5 & _).
  exists w1, w2. repeat split; try assumption. apply H5. reflexivity.
Defined.

(** ** The listeners a [setState] calls *)

Lemma times_called_listener_calls id tr :
  times_called id tr = times_called id (listener_calls tr).
Proof.
  unfold times_called, listener_calls. f_equal.
  induction tr as [|e tr IH]; simpl; [done|].
  destruct e; simpl; rewrite ?IH; reflexivity.
Qed.

Lemma times_called_absent id s (ls : list listener) :
  existsb (fun l => Nat.eqb (l_id l) id) ls = false ->
  times_called id (map (fun l => ListenerCall (l_id l) s) ls) = 0.
Proof.
  unfold times_called. induction ls as [|l ls IH]; simpl; [done|].
  intros [H1 H2]%orb_false_iff. rewrite H1. by apply IH.
Qed.

Lemma heap_only_fields {A} (m : M A) w :
  heap_only m ->
  match m w with
  | Ok _ w' | Throw _ w' =>
      state w' = state w /\ listeners w' = listeners w /\ plugins w' = plugins w
      /\ trace w' = trace w /\ proxies w' = proxies w
  | Unmodelled => True
  end.
Proof.
  intros H. specialize (H w). destruct (m w); try done; destruct H as [h ->]; done.
Qed.

(** What a [setState] adds to the trace, whatever its outcome. *)
Lemma setState_listener_calls (u : updater) w :
  heap_only (u (state w)) ->
  match StoreCore.setState u w with
  | Ok _ w' =>
      listeners w' = listeners w
      /\ exists evs,
           trace w' = trace w ++ evs
           /\ ((state w' = state w /\ listener_calls evs = [])
               \/ listener_calls evs
                  = map (fun l => ListenerCall (l_id l) (state w')) (listeners w))
  | Throw _ w' =>
      listeners w' = listeners w /\ state w' = state w
      /\ exists evs, trace w' = trace w ++ evs /\ listener_calls evs = []
  | Unmodelled => True
  end.
Proof.
  intros Hu. pose proof (heap_only_fields _ w Hu) as Hf.
  destruct (u (state w) w) as [newState w1|e w1|] eqn:Eu.
  - destruct Hf as (Hs & Hl & Hp & Ht & _).
    destruct (is_nullish newState) eqn:Enn.
    + unfold StoreCore.setState. unfold try_catch, bind at 1, gets at 1.
      unfold bind at 1. rewrite Eu. rewrite Enn. run_monad.
      repeat split; try done.
      exists [ConsoleError "[StoreCore] Error in setState:"]. by rewrite Ht.
    + rewrite (setState_run u w newState w1 Eu Enn).
      pose proof (before_run_no_listener_calls (plugins w1) newState (state w)) as Hb.
      destruct (before_run (plugins w1) newState (state w)) as [evs [ns|e]]; simpl in Hb.
      * pose proof (hasChanged_quiet ns (state w) (add_trace evs w1)) as Hq.
        destruct (StoreCore.hasChanged ns (state w) (add_trace evs w1))
          as [[|] w3|e w3|]; try exact I;
          destruct Hq as (Q1 & Q2 & Q3 & Q4 & Q5 & qevs & Q6 & Q7); simpl in *.
        -- split; [congruence|].
           exists (evs ++ qevs ++ listener_events ns (listeners w3)
                       ++ after_events (plugins w3) ns (state w)).
           split; [rewrite Q6, Ht; by rewrite <- !app_assoc|]. right.
           rewrite !listener_calls_app, Hb, (listener_calls_console _ Q7).
           rewrite listener_calls_listener_events, listener_calls_after_events.
           simpl. rewrite app_nil_r. congruence.
        -- split; [congruence|]. exists (evs ++ qevs).
           split; [rewrite Q6, Ht; by rewrite <- !app_assoc|]. left.
           split; [congruence|].
           by rewrite !listener_calls_app, Hb, (listener_calls_console _ Q7).
        -- repeat split; try congruence.
           exists (evs ++ qevs ++ [ConsoleError "[StoreCore] Error in setState:"]).
           split; [rewrite Q6, Ht; by rewrite <- !app_assoc|].
           by rewrite !listener_calls_app, Hb, (listener_calls_console _ Q7).
      * simpl. repeat split; try done.
        exists (evs ++ [ConsoleError "[StoreCore] Error in setState:"]).
        split; [by rewrite Ht|]. by rewrite listener_calls_app, Hb.
  - destruct Hf as (Hs & Hl & Hp & Ht & _).
    unfold StoreCore.setState. unfold try_catch, bind at 1, gets at 1.
    unfold bind at 1. rewrite Eu. run_monad.
    repeat split; try done.
    exists [ConsoleError "[StoreCore] Error in setState:"]. by rewrite Ht.
  - unfold StoreCore.setState. unfold try_catch, bind at 1, gets at 1.
    unfold bind at 1. rewrite Eu. exact I.
Qed.

(** X2.  A [setState] of the base store whose updater does not call
    back into the store either commits and calls every subscribed listener
    exactly once, in the order of subscription and with the state it
    committed, or leaves the state as it was and calls no listener; when
    it throws, it has neither committed nor called a listener. *)
Theorem setState_notifies_all_or_none (u : updater) (w : world) :
  heap_only (u (state w)) ->
  match StoreCore.setState u w with
  | Ok _ w' =>
      listeners w' = listeners w
      /\ ((state w' = state w /\ listener_calls (new_events w w') = [])
          \/ listener_calls (new_events w w') = round (state w') (listeners w))
  | Throw _ w' =>
      listeners w' = listeners w /\ state w' = state w
      /\ listener_calls (new_events w w') = []
  | Unmodelled => True
  end.
Proof.
  intros Hu. pose proof (setState_listener_calls u w Hu) as H.
  destruct (StoreCore.setState u w) as [[] w'|e w'|]; [| |exact I].
  - destruct H as (Hl & evs & Htr & H). split; [exact Hl|].
    rewrite (new_events_app _ _ _ Htr).
    destruct H as [[Hs Hno]|Hall]; [left; by split|right; exact Hall].
  - destruct H as (Hl & Hs & evs & Htr & Hno). split; [exact Hl|]. split; [exact Hs|].
    by rewrite (new_events_app _ _ _ Htr).
Qed.

Lemma setState_notifies_all_or_none_witness :
  match StoreCore.setState (set_count 1) light_counter_two with
  | Ok _ w' =>
      listener_calls (new_events light_counter_two w')
      = [ListenerCall 1 (VRef 1); ListenerCall 2 (VRef 1)]
  | _ => False
  end.
Proof.
  pose proof (setState_notifies_all_or_none (set_count 1) light_counter_two
                (spread_with_heap_only 0 "count" (VNum 1))) as H.
  remember (StoreCore.setState (set_count 1) light_counter_two) as r eqn:E.
  vm_compute in E. subst r.
  destruct H as [_ [[Hs _]|H]].
  - vm_compute in Hs. discriminate.
  - rewrite H. reflexivity.
Defined.

(** X3.  Once the closure [subscribe] returned has run, no [setState]
    calls that listener, whether the update commits, is skipped or
    fails. *)
Theorem unsubscribed_listener_is_not_called
  (l : listener) (ids : list nat) (u : updater) (w : world) :
  heap_only (u (state w)) ->
  exists w1,
    StoreCore.unsubscribe l ids w = Ok tt w1
    /\ match StoreCore.setState u w1 with
       | Ok _ w' | Throw _ w' => times_called (l_id l) (new_events w1 w') = 0
       | Unmodelled => True
       end.
Proof.
  intros Hu. unfold StoreCore.unsubscribe. unfold bind, modify. rewrite teardown_loop.
  eexists. split; [reflexivity|].
  set (w1 := add_trace _ _).
  assert (Hs : state w1 = state w) by reflexivity.
  assert (Hl : subscribed (l_id l) w1 = false) by apply filter_removes.
  pose proof (setState_listener_calls u w1) as H. rewrite Hs in H. specialize (H Hu).
  destruct (StoreCore.setState u w1) as [[] w'|e w'|]; [| |exact I].
  - destruct H as (_ & evs & Htr & H). rewrite (new_events_app _ _ _ Htr).
    rewrite times_called_listener_calls. destruct H as [[_ ->]| ->]; [done|].
    by apply times_called_absent.
  - destruct H as (_ & _ & evs & Htr & Hno). rewrite (new_events_app _ _ _ Htr).
    by rewrite times_called_listener_calls, Hno.
Qed.

Lemma unsubscribed_listener_is_not_called_witness :
  exists w1 w',
    StoreCore.unsubscribe (quiet_listener 1) [] light_counter = Ok tt w1
    /\ StoreCore.setState (set_count 1) w1 = Ok tt w'
    /\ state w' = VRef 1
    /\ times_called 1 (new_events w1 w') = 0.
Proof.
  destruct (unsubscribed_listener_is_not_called (quiet_listener 1) [] (set_count 1)
              light_counter (spread_with_heap_only 0 "count" (VNum 1)))
    as (w1 & H1 & H2).
  vm_compute in H1. injection H1 as <-.
  eexists _, _. split; [reflexivity|].
  remember (StoreCore.setState (set_count 1) _) as r eqn:E in H2 |- *.
  vm_compute in E. subst r.
  split; [reflexivity|]. split; [reflexivity|]. exact H2.
Defined.

(** ** Subscribing twice, and a hook that fails *)

Lemma add_listener_present l w : subscribed (l_id l) w = true -> add_listener l w = w.
Proof. unfold subscribed, add_listener. by intros ->. Qed.

Lemma add_listener_fields l w :
  plugins (add_listener l w) = plugins w /\ trace (add_listener l w) = trace w
  /\ state (add_listener l w) = state w.
Proof. unfold add_listener. by destruct (existsb _ _). Qed.

(** X4.  The listeners are a set: subscribing a listener that is already
    subscribed leaves the set as it is, so that a commit calls the
    listener once, not twice; the [onSubscribe] hooks are called again all
    the same. *)
Theorem subscribe_twice_registers_once
  (l : listener) (w : world) (evs : list event) (ids : list nat) :
  subscribe_run (plugins w) (l_id l) = (evs, inl ids) ->
  subscribed (l_id l) w = false ->
  exists w1 w2,
    StoreCore.subscribe l w = Ok ids w1
    /\ listeners w1 = listeners w ++ [l]
    /\ StoreCore.subscribe l w1 = Ok ids w2
    /\ listeners w2 = listeners w1
    /\ new_events w1 w2 = evs.
Proof.
  intros Hrun Hnot. rewrite subscribe_run_spec, Hrun.
  set (w1 := add_trace evs (add_listener l w)).
  assert (Hsub : subscribed (l_id l) w1 = true) by apply subscribed_add_listener.
  assert (Hpl : plugins w1 = plugins w) by apply add_listener_fields.
  exists w1. eexists. split; [reflexivity|]. split.
  { simpl. unfold add_listener. unfold subscribed in Hnot. by rewrite Hnot. }
  rewrite subscribe_run_spec, Hpl, Hrun, (add_listener_present l w1 Hsub).
  split; [reflexivity|]. split; [reflexivity|]. by apply new_events_app.
Qed.

Lemma subscribe_twice_registers_once_witness :
  exists w1 w2,
    StoreCore.subscribe (quiet_listener 2) light_counter = Ok [] w1
    /\ StoreCore.subscribe (quiet_listener 2) w1 = Ok [] w2
    /\ map l_id (listeners w2) = [1; 2].
Proof.
  destruct (subscribe_twice_registers_once (quiet_listener 2) light_counter [] []
              eq_refl eq_refl) as (w1 & w2 & H1 & H2 & H3 & H4 & _).
  exists w1, w2. split; [exact H1|]. split; [exact H3|]. rewrite H4, H2. reflexivity.
Defined.

(** X5.  [subscribe] adds the listener before it calls the [onSubscribe]
    hooks: when a hook throws, [subscribe] throws and hands back no
    closure, the hooks of the plugins after it are not called, and the
    listener stays subscribed. *)
Theorem failing_onSubscribe_leaves_listener_subscribed
  (l : listener) (w : world) (pre post : list plugin) (p : plugin)
  (f : nat -> hook_result) (evs : list event) (ids : list nat) (e : exn) :
  plugins w = pre ++ p :: post ->
  subscribe_run pre (l_id l) = (evs, inl ids) ->
  onSubscribe p = Some f ->
  f (l_id l) = Throws e ->
  exists w',
    StoreCore.subscribe l w = Throw e w'
    /\ subscribed (l_id l) w' = true
    /\ new_events w w' = evs ++ [SubscribeCall (pl_id p) (l_id l)].
Proof.
  intros Hps Hpre Hf Hthrow. rewrite subscribe_run_spec, Hps.
  assert (Hrun : subscribe_run (pre ++ p :: post) (l_id l)
                 = (evs ++ [SubscribeCall (pl_id p) (l_id l)], inr e)).
  { clear Hps. revert evs ids Hpre. induction pre as [|q pre IH]; intros evs ids; simpl.
    - intros [= <- <-]. by rewrite Hf, Hthrow.
    - destruct (onSubscribe q) as [g|]; [|apply IH].
      destruct (g (l_id l)) as [r|e']; [|done].
      destruct (subscribe_run pre (l_id l)) as [evs' [ids'|e']] eqn:E; [|done].
      intros [= <- <-]. by rewrite (IH _ _ eq_refl). }
  rewrite Hrun. eexists. split; [reflexivity|].
  split; [apply subscribed_add_listener|].
  apply new_events_app. simpl. by destruct (add_listener_fields l w) as (_ & -> & _).
Qed.

Lemma failing_onSubscribe_leaves_listener_subscribed_witness :
  exists w',
    StoreCore.subscribe (quiet_listener 2) bouncer_counter = Throw (UserError 11) w'
    /\ subscribed 2 w' = true.
Proof.
  destruct (failing_onSubscribe_leaves_listener_subscribed
              (quiet_listener 2) bouncer_counter [] [watcher] bouncer
              (fun _ => Throws (UserError 11)) [] [] (UserError 11)
              eq_refl eq_refl eq_refl eq_refl) as (w' & H1 & H2 & _).
  exists w'. split; [exact H1|exact H2].
Defined.

(** ** The hooks of a [setState] *)

Lemma before_run_app pre rest newState oldState :
  before_run (pre ++ rest) newState oldState =
  match before_run pre newState oldState with
  | (evs, inl ns) =>
      let '(evs', out) := before_run rest ns oldState in (evs ++ evs', out)
  | (evs, inr e) => (evs, inr e)
  end.
Proof.
  revert newState. induction pre as [|p pre IH]; intros newState; simpl.
  - by destruct (before_run rest newState oldState).
  - destruct (onBeforeUpdate p) as [f|]; [|apply IH].
    destruct (f newState oldState) as [r|e]; [|done].
    rewrite IH.
    destruct (before_run pre _ oldState) as [evs [ns|e]]; [|done].
    by destruct (before_run rest ns oldState).
Qed.

Lemma before_run_no_after_calls ps newState oldState :
  List.filter is_after_call (fst (before_run ps newState oldState)) = [].
Proof.
  revert newState. induction ps as [|p ps IH]; intros newState; simpl; [done|].
  destruct (onBeforeUpdate p) as [f|]; [|apply IH].
  destruct (f newState oldState) as [r|e]; [|done].
  specialize (IH (if negb (strict_eq r VUndef) then r else newState)).
  destruct (before_run ps _ oldState). simpl in *. done.
Qed.

Lemma before_run_defined ps newState oldState evs ns :
  before_run ps newState oldState = (evs, inl ns) ->
  newState <> VUndef -> ns <> VUndef.
Proof.
  revert newState evs. induction ps as [|p ps IH]; intros newState evs; simpl.
  - by intros [= _ <-].
  - destruct (onBeforeUpdate p) as [f|]; [|apply IH].
    destruct (f newState oldState) as [r|e]; [|done].
    destruct (before_run ps _ oldState) as [evs' out] eqn:E.
    intros [= _ ->] Hn. eapply IH; [exact E|].
    destruct r; simpl; done.
Qed.

(** X6.  When an [onBeforeUpdate] hook throws, [setState] reports the
    exception twice on the console and throws it to its caller; the hooks
    of the plugins registered before it have run, with the state threaded
    through them, those of the plugins after it have not; the state is
    not assigned, and no listener and no [onAfterUpdate] is called. *)
Theorem failing_onBeforeUpdate_aborts
  (u : updater) (w w1 : world) (newState ns0 : value)
  (pre post : list plugin) (p : plugin) (f : value -> value -> hook_result)
  (evs0 : list event) (e : exn) :
  u (state w) w = Ok newState w1 ->
  is_nullish newState = false ->
  plugins w1 = pre ++ p :: post ->
  before_run pre newState (state w) = (evs0, inl ns0) ->
  onBeforeUpdate p = Some f ->
  f ns0 (state w) = Throws e ->
  exists w',
    StoreCore.setState u w = Throw e w'
    /\ new_events w1 w'
       = evs0 ++ [BeforeUpdateCall (pl_id p) ns0 (state w);
                  ConsoleError "[StoreCore] Error in plugin onBeforeUpdate:";
                  ConsoleError "[StoreCore] Error in setState:"]
    /\ state w' = state w1
    /\ listener_calls (new_events w1 w') = []
    /\ List.filter is_after_call (new_events w1 w') = [].
Proof.
  intros Hu Hnn Hps Hpre Hf Hthrow.
  rewrite (setState_run u w newState w1 Hu Hnn), Hps, before_run_app, Hpre.
  simpl. rewrite Hf, Hthrow. eexists. split; [reflexivity|].
  pose proof (before_run_no_listener_calls pre newState (state w)) as H1.
  pose proof (before_run_no_after_calls pre newState (state w)) as H2.
  rewrite Hpre in H1, H2. simpl in H1, H2.
  assert (Hev : new_events w1
                  (add_trace
                     ((evs0 ++ [BeforeUpdateCall (pl_id p) ns0 (state w);
                                ConsoleError "[StoreCore] Error in plugin onBeforeUpdate:"])
                      ++ [ConsoleError "[StoreCore] Error in setState:"]) w1)
                = evs0 ++ [BeforeUpdateCall (pl_id p) ns0 (state w);
                           ConsoleError "[StoreCore] Error in plugin onBeforeUpdate:";
                           ConsoleError "[StoreCore] Error in setState:"]).
  { apply new_events_app. simpl. by rewrite <- app_assoc. }
  rewrite Hev. split; [reflexivity|]. split; [reflexivity|].
  split.
  - by rewrite listener_calls_app, H1.
  - by rewrite List.filter_app, H2.
Qed.

Lemma failing_onBeforeUpdate_aborts_witness :
  exists w',
    StoreCore.setState (set_count 1) censored_counter = Throw (UserError 8) w'
    /\ new_events (world_of (set_count 1 (VRef 0) censored_counter)) w'
       = [BeforeUpdateCall 7 (VRef 1) (VRef 0);
          BeforeUpdateCall 8 (VRef 1) (VRef 0);
          ConsoleError "[StoreCore] Error in plugin onBeforeUpdate:";
          ConsoleError "[StoreCore] Error in setState:"]
    /\ state w' = VRef 0.
Proof.
  destruct (failing_onBeforeUpdate_aborts
              (set_count 1) censored_counter
              (world_of (set_count 1 (VRef 0) censored_counter))
              (VRef 1) (VRef 1) [watcher] [watcher] censor
              (fun _ _ => Throws (UserError 8))
              [BeforeUpdateCall 7 (VRef 1) (VRef 0)] (UserError 8))
    as (w' & H1 & H2 & H3 & _); try reflexivity.
  exists w'. split; [exact H1|]. split; [exact H2|]. rewrite H3. reflexivity.
Defined.

(** X7.  The check for null and undefined covers the result of the updater
    only: when the [onBeforeUpdate] hooks turn the new state into null,
    [setState] commits null and calls every listener with it. *)
Theorem onBeforeUpdate_can_commit_null
  (u : updater) (w w1 : world) (newState : value) (evs : list event) :
  u (state w) w = Ok newState w1 ->
  is_nullish newState = false ->
  before_run (plugins w1) newState (state w) = (evs, inl VNull) ->
  strict_eq VNull (state w) = false ->
  exists w',
    StoreCore.setState u w = Ok tt w'
    /\ StoreCore.getState w' = Ok VNull w'
    /\ listener_calls (new_events w1 w')
       = map (fun l => ListenerCall (l_id l) VNull) (listeners w1).
Proof.
  intros Hu Hnn Hrun Hne.
  rewrite (setState_run u w newState w1 Hu Hnn), Hrun.
  rewrite hasChanged_primitive by reflexivity. rewrite Hne. simpl.
  eexists. split; [reflexivity|]. split; [reflexivity|].
  rewrite (new_events_app w1 _
             (evs ++ listener_events VNull (listeners w1)
                  ++ after_events (plugins w1) VNull (state w))).
  - pose proof (before_run_no_listener_calls (plugins w1) newState (state w)) as Hb.
    rewrite Hrun in Hb. simpl in Hb.
    rewrite !listener_calls_app, Hb, listener_calls_listener_events,
      listener_calls_after_events.
    simpl. by rewrite app_nil_r.
  - simpl. by rewrite <- !app_assoc.
Qed.

Lemma onBeforeUpdate_can_commit_null_witness :
  exists w',
    StoreCore.setState (set_count 1) nulled_counter = Ok tt w'
    /\ StoreCore.getState w' = Ok VNull w'
    /\ listener_calls (new_events (world_of (set_count 1 (VRef 0) nulled_counter)) w')
       = [ListenerCall 1 VNull].
Proof.
  destruct (onBeforeUpdate_can_commit_null
              (set_count 1) nulled_counter
              (world_of (set_count 1 (VRef 0) nulled_counter))
              (VRef 1) [BeforeUpdateCall 9 (VRef 1) (VRef 0)])
    as (w' & H1 & H2 & H3); try reflexivity.
  exists w'. split; [exact H1|]. split; [exact H2|]. rewrite H3. reflexivity.
Defined.

(** X8.  No [setState] makes the state undefined: an updater that returns
    undefined is rejected and a hook that returns undefined leaves the new
    state as it is, so a store whose state is not undefined keeps one that
    is not, whether the call returns or throws. *)
Theorem setState_never_stores_undefined (u : updater) (w : world) :
  heap_only (u (state w)) ->
  state w <> VUndef ->
  match StoreCore.setState u w with
  | Ok _ w' | Throw _ w' => state w' <> VUndef
  | Unmodelled => True
  end.
Proof.
  intros Hu Hdef. pose proof (heap_only_fields _ w Hu) as Hf.
  pose proof (setState_listener_calls u w Hu) as Hcalls.
  destruct (u (state w) w) as [newState w1|e w1|] eqn:Eu.
  - destruct (is_nullish newState) eqn:Enn.
    + destruct (StoreCore.setState u w) as [[] w'|e w'|] eqn:E; [| |exact I].
      * unfold StoreCore.setState in E. unfold try_catch, bind at 1, gets at 1 in E.
        unfold bind at 1 in E. rewrite Eu, Enn in E. discriminate.
      * destruct Hcalls as (_ & -> & _). done.
    + rewrite (setState_run u w newState w1 Eu Enn) in *.
      destruct (before_run (plugins w1) newState (state w)) as [evs [ns|e]] eqn:Eb.
      * pose proof (hasChanged_quiet ns (state w) (add_trace evs w1)) as Hq.
        destruct (StoreCore.hasChanged ns (state w) (add_trace evs w1))
          as [[|] w3|e w3|]; try exact I.
        -- simpl. eapply before_run_defined; [exact Eb|].
           destruct newState; done.
        -- destruct Hq as (Q1 & _). destruct Hf as (Hs & _). simpl in *. congruence.
        -- destruct Hcalls as (_ & -> & _). done.
      * destruct Hcalls as (_ & -> & _). done.
  - destruct (StoreCore.setState u w) as [[] w'|e' w'|] eqn:E; [| |exact I].
    + unfold StoreCore.setState in E. unfold try_catch, bind at 1, gets at 1 in E.
      unfold bind at 1 in E. rewrite Eu in E. discriminate.
    + destruct Hcalls as (_ & -> & _). done.
  - unfold StoreCore.setState. unfold try_catch, bind at 1, gets at 1.
    unfold bind at 1. rewrite Eu. exact I.
Qed.

Lemma setState_never_stores_undefined_witness :
  match StoreCore.setState (fun _ => ret VUndef) light_counter with
  | Throw _ w' => state w' <> VUndef
  | _ => False
  end.
Proof.
  assert (H : heap_only (ret (A := value) VUndef)).
  { intros w. exists (heap w). by destruct w. }
  pose proof (setState_never_stores_undefined (fun _ => ret VUndef) light_counter H) as G.
  remember (StoreCore.setState (fun _ => ret VUndef) light_counter) as r eqn:E.
  vm_compute in E. subst r. apply G. discriminate.
Defined.

Lemma after_events_calls ps newState oldState :
  List.filter is_after_call (after_events ps newState oldState)
  = map (fun p => AfterUpdateCall (pl_id p) newState oldState) (List.filter has_after ps).
Proof.
  induction ps as [|p ps IH]; simpl; [done|]. unfold has_after at 1.
  destruct (onAfterUpdate p) as [f|]; [|exact IH].
  simpl. destruct (f newState oldState); simpl; by rewrite IH.
Qed.

Lemma after_events_errors ps newState oldState :
  length (List.filter is_after_error (after_events ps newState oldState))
  = length (throwing_after newState oldState ps).
Proof.
  unfold throwing_after. induction ps as [|p ps IH]; simpl; [done|].
  destruct (onAfterUpdate p) as [f|]; [|exact IH].
  simpl. destruct (f newState oldState); simpl; by rewrite IH.
Qed.

Lemma listener_events_no_after newState ls :
  List.filter is_after_call (listener_events newState ls) = []
  /\ List.filter is_after_error (listener_events newState ls) = [].
Proof.
  induction ls as [|l ls [IH1 IH2]]; simpl; [done|].
  destruct (l_body l newState); simpl; by rewrite ?IH1, ?IH2.
Qed.

(** X9.  On a commit every [onAfterUpdate] hook is called, in the order of
    the plugins and with the committed and the previous state, also after
    a hook that throws: each exception is reported on the console and
    [setState] returns normally with the new state stored. *)
Theorem onAfterUpdate_exception_is_isolated
  (u : updater) (w w1 w3 : world) (newState ns : value) (evs : list event) :
  u (state w) w = Ok newState w1 ->
  is_nullish newState = false ->
  before_run (plugins w1) newState (state w) = (evs, inl ns) ->
  StoreCore.hasChanged ns (state w) (add_trace evs w1) = Ok true w3 ->
  exists w',
    StoreCore.setState u w = Ok tt w'
    /\ state w' = ns
    /\ List.filter is_after_call (new_events w3 w')
       = map (fun p => AfterUpdateCall (pl_id p) ns (state w))
             (List.filter has_after (plugins w3))
    /\ length (List.filter is_after_error (new_events w3 w'))
       = length (throwing_after ns (state w) (plugins w3)).
Proof.
  intros Hu Hnn Hrun Hch.
  rewrite (setState_run u w newState w1 Hu Hnn), Hrun, Hch.
  eexists. split; [reflexivity|]. split; [reflexivity|].
  rewrite (new_events_app w3 _
             (listener_events ns (listeners w3) ++ after_events (plugins w3) ns (state w)))
    by reflexivity.
  destruct (listener_events_no_after ns (listeners w3)) as [H1 H2].
  rewrite !List.filter_app, H1, H2. simpl.
  split; [apply after_events_calls|apply after_events_errors].
Qed.

Lemma onAfterUpdate_exception_is_isolated_witness :
  exists w',
    StoreCore.setState (set_count 1) grumpy_counter = Ok tt w'
    /\ state w' = VRef 1
    /\ new_events grumpy_counter w'
       = [BeforeUpdateCall 7 (VRef 1) (VRef 0);
          ListenerCall 1 (VRef 1);
          AfterUpdateCall 10 (VRef 1) (VRef 0);
          ConsoleError "[StoreCore] Error in plugin onAfterUpdate:";
          AfterUpdateCall 7 (VRef 1) (VRef 0)].
Proof.
  destruct (onAfterUpdate_exception_is_isolated
              (set_count 1) grumpy_counter
              (world_of (set_count 1 (VRef 0) grumpy_counter))
              (add_trace [BeforeUpdateCall 7 (VRef 1) (VRef 0)]
                         (world_of (set_count 1 (VRef 0) grumpy_counter)))
              (VRef 1) (VRef 1) [BeforeUpdateCall 7 (VRef 1) (VRef 0)])
    as (w' & H1 & H2 & _); try reflexivity.
  exists w'. split; [exact H1|]. split; [exact H2|].
  remember (StoreCore.setState (set_count 1) grumpy_counter) as r eqn:E.
  vm_compute in E. subst r. injection H1 as <-. reflexivity.
Defined.

(** ** The constructor and [destroy] *)

Lemma destroy_run_throws ps evs e :
  destroy_run ps = (evs, Some e) ->
  exists pre p post,
    ps = pre ++ p :: post
    /\ onDestroy p = Some (Throws e)
    /\ evs = destroy_calls pre ++ [DestroyCall (pl_id p)].
Proof.
  revert evs. induction ps as [|p ps IH]; intros evs; simpl; [done|].
  destruct (onDestroy p) as [[r|e']|] eqn:Ed.
  - destruct (destroy_run ps) as [evs' out] eqn:E. intros [= <- ->].
    destruct (IH _ eq_refl) as (pre & q & post & -> & Hq & ->).
    exists (p :: pre), q, post. repeat split; [done|].
    simpl. unfold destroy_calls. simpl. by rewrite Ed.
  - intros [= <- <-]. by exists [], p, ps.
  - intros H. destruct (IH _ H) as (pre & q & post & -> & Hq & ->).
    exists (p :: pre), q, post. repeat split; [done|].
    unfold destroy_calls. simpl. by rewrite Ed.
Qed.

(** X10.  [destroy] clears the listener set before it calls the first
    [onDestroy], so the set is empty whether [destroy] returns or throws;
    the state and the plugins stay; the hooks are called in the order of
    the plugins, and a hook that throws ends the loop, so that the
    [onDestroy] of the plugins after it is not called. *)
Theorem destroy_always_clears_listeners (w : world) :
  match StoreCore.destroy w with
  | Ok _ w' =>
      listeners w' = [] /\ state w' = state w /\ plugins w' = plugins w
      /\ new_events w w' = destroy_calls (plugins w)
  | Throw e w' =>
      listeners w' = [] /\ state w' = state w /\ plugins w' = plugins w
      /\ exists pre p post,
           plugins w = pre ++ p :: post
           /\ onDestroy p = Some (Throws e)
           /\ new_events w w' = destroy_calls pre ++ [DestroyCall (pl_id p)]
  | Unmodelled => False
  end.
Proof.
  rewrite destroy_run_spec.
  destruct (destroy_run (plugins w)) as [evs [e|]] eqn:E.
  - repeat split.
    destruct (destroy_run_throws _ _ _ E) as (pre & p & post & H1 & H2 & ->).
    exists pre, p, post. repeat split; try done. by apply new_events_app.
  - repeat split. rewrite (new_events_app w _ evs) by reflexivity.
    pose proof (destroy_run_calls (plugins w)) as H. rewrite E in H. by apply H.
Qed.

Lemma init_loop_returns ps w :
  forallb init_returns ps = true ->
  for_each ps
    (fun plugin =>
       match onInit plugin with
       | Some r => call (InitCall (pl_id plugin)) r ;;; ret tt
       | None => ret tt
       end) w
  = Ok tt (add_trace (init_calls ps) w).
Proof.
  revert w. induction ps as [|p ps IH]; intros w; simpl.
  - intros _. unfold ret. by rewrite add_trace_nil.
  - intros [Hp Hps]%andb_true_iff. unfold init_returns in Hp.
    unfold bind at 1. destruct (onInit p) as [[r|e]|]; [|done|].
    + run_monad. rewrite (IH _ Hps), emit_add_trace, add_trace_app. reflexivity.
    + run_monad. rewrite (IH _ Hps). reflexivity.
Qed.

Lemma init_loop_throws pre p post e w :
  forallb init_returns pre = true ->
  onInit p = Some (Throws e) ->
  for_each (pre ++ p :: post)
    (fun plugin =>
       match onInit plugin with
       | Some r => call (InitCall (pl_id plugin)) r ;;; ret tt
       | None => ret tt
       end) w
  = Throw e (add_trace (init_calls pre ++ [InitCall (pl_id p)]) w).
Proof.
  revert w. induction pre as [|q pre IH]; intros w; simpl.
  - intros _ Hp. unfold bind at 1. rewrite Hp. run_monad. by rewrite emit_add_trace.
  - intros [Hq Hpre]%andb_true_iff Hp. unfold init_returns in Hq.
    unfold bind at 1. destruct (onInit q) as [[r|e']|]; [|done|].
    + run_monad. rewrite (IH _ Hpre Hp), emit_add_trace, add_trace_app. reflexivity.
    + run_monad. rewrite (IH _ Hpre Hp). reflexivity.
Qed.

(** X11.  The constructor stores the initial state and the plugins and calls
    every [onInit], in the order of the plugins, on a store that has no
    listener yet; an [onInit] that throws makes the constructor throw, and
    the [onInit] of the plugins after it is not called. *)
Theorem constructor_runs_onInit_in_order
  (h : list obj) (initialState : value) (ps : list plugin) (room : nat) :
  (forallb init_returns ps = true ->
   StoreCore.create h initialState ps room
   = Ok tt (World h [] ∅ initialState VUndef [] ps room (init_calls ps)))
  /\ (forall pre p post e,
        ps = pre ++ p :: post ->
        forallb init_returns pre = true ->
        onInit p = Some (Throws e) ->
        StoreCore.create h initialState ps room
        = Throw e (World h [] ∅ initialState VUndef [] ps room
                         (init_calls pre ++ [InitCall (pl_id p)]))).
Proof.
  split.
  - intros H. unfold StoreCore.create. by rewrite init_loop_returns.
  - intros pre p post e -> Hpre Hp. unfold StoreCore.create.
    by rewrite (init_loop_throws pre p post e _ Hpre Hp).
Qed.

(** ** deepEqual *)

Lemma deepEqual_depth_S depth' a b :
  deepEqual_depth (S depth') a b =
  (if strict_eq a b then ret true
   else if is_nullish a || is_nullish b then ret false
   else if negb (is_object_type a) || negb (is_object_type b) then ret false
   else
     arrA <- Array_isArray a ;;
     arrB <- Array_isArray b ;;
     if negb (Bool.eqb arrA arrB) then ret false
     else
       keysA <- Object_keys a ;;
       keysB <- Object_keys b ;;
       if negb (length keysA =? length keysB)%nat then ret false
       else
         (fix loop (keys : list string) : M bool :=
            match keys with
            | [] => ret true
            | key :: keys' =>
                if negb (includes keysB key) then ret false
                else
                  valueA <- Get a key ;;
                  valueB <- Get b key ;;
                  eq <- deepEqual_depth depth' valueA valueB ;;
                  if negb eq then ret false else loop keys'
            end) keysA).
Proof. reflexivity. Qed.

Lemma key_index_Some k i : key_index k = Some i -> index_key i = k.
Proof.
  unfold key_index, index_key.
  destruct (NilEmpty.uint_of_string k) as [d|]; [|done].
  destruct (String.eqb _ k) eqn:E; [|done].
  destruct (N.ltb _ _); [|done].
  intros [= <-]. rewrite N2Nat.id. by apply String.eqb_eq.
Qed.

Lemma insert_sorted_In x n l : In x (insert_sorted n l) <-> x = n \/ In x l.
Proof.
  induction l as [|m l IH]; simpl.
  - split; intros [H|[]]; left; congruence.
  - destruct (n <=? m)%nat; simpl.
    + split; (intros [H|H]; [left; congruence|by right]).
    + rewrite IH. tauto.
Qed.

Lemma insert_sorted_length n l : length (insert_sorted n l) = S (length l).
Proof.
  induction l as [|m l IH]; simpl; [done|].
  destruct (n <=? m)%nat; simpl; [done|]. by rewrite IH.
Qed.

Lemma sorted_In x (l : list nat) : In x (foldr insert_sorted [] l) <-> In x l.
Proof.
  induction l as [|n l IH]; simpl; [done|]. rewrite insert_sorted_In, IH.
  split; (intros [H|H]; [left; congruence|by right]).
Qed.

Lemma sorted_length (l : list nat) : length (foldr insert_sorted [] l) = length l.
Proof.
  induction l as [|n l IH]; simpl; [done|]. by rewrite insert_sorted_length, IH.
Qed.

Lemma own_keys_In o k : In k (own_keys o) <-> In k (map fst (o_props o)).
Proof.
  unfold own_keys. set (ks := map fst (o_props o)). clearbody ks.
  rewrite in_app_iff, in_map_iff, filter_In. split.
  - intros [(i & <- & Hi)|[H _]]; [|done].
    apply (proj1 (sorted_In _ _)) in Hi.
    apply list_elem_of_In, list_elem_of_omap in Hi.
    destruct Hi as (k' & Hk' & Hi). apply list_elem_of_In in Hk'.
    by rewrite (key_index_Some _ _ Hi).
  - intros Hk. destruct (key_index k) as [i|] eqn:E.
    + left. exists i. split; [by apply key_index_Some|].
      apply (proj2 (sorted_In _ _)), list_elem_of_In, list_elem_of_omap. exists k.
      split; [by apply list_elem_of_In|done].
    + right. split; [done|]. apply negb_true_iff, bool_decide_eq_false.
      intros [? ?]; congruence.
Qed.

Lemma own_keys_length o : length (own_keys o) = length (o_props o).
Proof.
  unfold own_keys. set (ks := map fst (o_props o)).
  rewrite length_app, length_map, sorted_length.
  replace (length (o_props o)) with (length ks) by (unfold ks; apply length_map).
  clearbody ks. induction ks as [|k ks IH]; simpl; [done|].
  destruct (key_index k); simpl.
  - f_equal. exact IH.
  - rewrite Nat.add_succ_r. f_equal. exact IH.
Qed.

Lemma includes_In keys key : In key keys -> includes keys key = true.
Proof.
  intros H. unfold includes. apply existsb_exists. exists key.
  split; [done|apply String.eqb_refl].
Qed.

Lemma alist_get_In k v ps :
  NoDup (map fst ps) -> (alist_get k ps = Some v <-> In (k, v) ps).
Proof.
  induction ps as [|[k' v'] ps IH]; simpl; [intros _; split; [done|intros []]|].
  intros [Hk' Hnd]%NoDup_cons. destruct (String.eqb k k') eqn:E.
  - apply String.eqb_eq in E. subst k'. split; [intros [= ->]; by left|].
    intros [[= ->]|Hin]; [done|].
    exfalso. apply Hk'. apply list_elem_of_In, in_map_iff. by exists (k, v).
  - apply String.eqb_neq in E. rewrite (IH Hnd). split; [by right|].
    intros [[= -> ->]|H]; [done|exact H].
Qed.

Lemma alist_get_None k ps : alist_get k ps = None <-> ~ In k (map fst ps).
Proof.
  induction ps as [|[k' v'] ps IH]; simpl; [split; [intros _ []|done]|].
  destruct (String.eqb k k') eqn:E.
  - apply String.eqb_eq in E. split; [done|]. intros H. exfalso. apply H. by left.
  - apply String.eqb_neq in E. rewrite IH. split.
    + intros H [H'|H']; [congruence|by apply H].
    + intros H H'. apply H. by right.
Qed.

Lemma alist_get_perm k ps ps' :
  NoDup (map fst ps) -> Permutation ps ps' -> alist_get k ps = alist_get k ps'.
Proof.
  intros Hnd Hp.
  assert (Hnd' : NoDup (map fst ps')).
  { assert (Hpm : map fst ps ≡ₚ map fst ps') by by apply Permutation_map.
    by rewrite <- Hpm. }
  destruct (alist_get k ps) as [v|] eqn:E.
  - symmetry. apply alist_get_In; [done|].
    eapply Permutation_in; [exact Hp|]. by apply alist_get_In.
  - symmetry. apply alist_get_None. intros Hin. apply alist_get_None in E. apply E.
    eapply Permutation_in; [|exact Hin]. apply Permutation_map. by symmetry.
Qed.

Lemma heap_obj_lookup w l o : heap w !! l = Some o -> heap_obj w l = o.
Proof. intros H. unfold heap_obj. by rewrite H. Qed.

(** The loop of deepEqual over keys whose values are the same on both
    sides. *)
Lemma deepEqual_loop_same depth' a b keysB keys w :
  0 < depth' ->
  (forall key, In key keys ->
     includes keysB key = true
     /\ exists v, Get a key w = Ok v w /\ Get b key w = Ok v w /\ strict_eq v v = true) ->
  (fix loop (keys : list string) : M bool :=
     match keys with
     | [] => ret true
     | key :: keys' =>
         if negb (includes keysB key) then ret false
         else
           valueA <- Get a key ;;
           valueB <- Get b key ;;
           eq <- deepEqual_depth depth' valueA valueB ;;
           if negb eq then ret false else loop keys'
     end) keys w = Ok true w.
Proof.
  intros Hd. destruct depth' as [|d]; [lia|].
  induction keys as [|key keys IH]; intros Hall; [reflexivity|].
  destruct (Hall key (or_introl eq_refl)) as (Hin & v & Ha & Hb & Hv).
  cbv beta iota fix. rewrite Hin. cbn [negb]. cbv beta iota.
  unfold bind at 1. rewrite Ha. unfold bind at 1. rewrite Hb.
  unfold bind at 1. rewrite deepEqual_depth_S, Hv. unfold ret at 1. cbn [negb]. cbv beta iota.
  apply IH. intros k Hk. apply Hall. by right.
Qed.

(** X12.  deepEqual compares the own enumerable keys and their values and
    nothing else: two objects of the same kind that hold identical values
    under the same keys are equal whatever the order in which the keys
    were added, and so are two arrays with the same elements and
    different lengths. *)
Theorem deepEqual_same_properties (w : world) (la lb : nat) (oa ob : obj) :
  2 <= stack w ->
  heap w !! la = Some oa ->
  heap w !! lb = Some ob ->
  o_isArray oa = o_isArray ob ->
  NoDup (map fst (o_props oa)) ->
  Permutation (o_props oa) (o_props ob) ->
  Forall (fun kv => strict_eq (snd kv) (snd kv) = true
                    /\ o_isArray oa && String.eqb (fst kv) "length" = false)
         (o_props oa) ->
  deepEqual (VRef la) (VRef lb) w = Ok true w.
Proof.
  intros Hstack Ha Hb Hkind Hnd Hperm Hvals.
  unfold deepEqual. unfold bind, gets.
  destruct (stack w) as [|[|d]] eqn:Es; [lia|lia|].
  rewrite deepEqual_depth_S.
  destruct (strict_eq (VRef la) (VRef lb)); [reflexivity|].
  cbn [is_nullish is_object_type typeof orb negb]. cbv beta iota.
  unfold bind at 1. unfold Array_isArray at 1, gets at 1.
  unfold bind at 1. unfold Array_isArray at 1, gets at 1.
  rewrite (heap_obj_lookup _ _ _ Ha), (heap_obj_lookup _ _ _ Hb), Hkind.
  rewrite Bool.eqb_reflx. cbn [negb]. cbv beta iota.
  unfold bind at 1. unfold Object_keys at 1, gets at 1.
  unfold bind at 1. unfold Object_keys at 1, gets at 1.
  rewrite (heap_obj_lookup _ _ _ Ha), (heap_obj_lookup _ _ _ Hb).
  rewrite !own_keys_length, (Permutation_length Hperm), Nat.eqb_refl.
  cbn [negb]. cbv beta iota.
  apply deepEqual_loop_same; [lia|].
  intros key Hkey. apply own_keys_In in Hkey. split.
  - apply includes_In, own_keys_In.
    eapply Permutation_in; [|exact Hkey]. by apply Permutation_map.
  - apply in_map_iff in Hkey. destruct Hkey as ([k v] & <- & Hin). simpl.
    rewrite Forall_forall in Hvals.
    destruct (Hvals (k, v) ltac:(by apply list_elem_of_In)) as [Hv Hlen]. simpl in Hv, Hlen.
    exists v. unfold raw_get, gets.
    rewrite (heap_obj_lookup _ _ _ Ha), (heap_obj_lookup _ _ _ Hb).
    unfold own_get. rewrite <- Hkind, Hlen.
    rewrite <- (alist_get_perm k _ _ Hnd Hperm).
    assert (alist_get k (o_props oa) = Some v) as -> by by apply alist_get_In.
    done.
Qed.

Lemma deepEqual_same_properties_witness :
  deepEqual (VRef 0) (VRef 1)
    (World [Obj false 0 [("a", VNum 1); ("b", VStr "x")] false;
            Obj false 0 [("b", VStr "x"); ("a", VNum 1)] false]
           [] ∅ (VRef 0) VUndef [] [] 16 [])
  = Ok true
      (World [Obj false 0 [("a", VNum 1); ("b", VStr "x")] false;
              Obj false 0 [("b", VStr "x"); ("a", VNum 1)] false]
             [] ∅ (VRef 0) VUndef [] [] 16 []).
Proof.
  eapply deepEqual_same_properties; try reflexivity.
  - simpl. lia.
  - simpl. apply NoDup_cons. split; [|apply NoDup_singleton].
    intros H. apply list_elem_of_In in H. simpl in H. destruct H as [H|[]]. discriminate.
  - simpl. apply perm_swap.
  - repeat constructor.
Defined.

Lemma own_keys_single o k v : o_props o = [(k, v)] -> own_keys o = [k].
Proof.
  intros H. unfold own_keys. rewrite H. simpl.
  destruct (key_index k) as [i|] eqn:E; simpl.
  - by rewrite (key_index_Some _ _ E).
  - reflexivity.
Qed.

Lemma deepEqual_depth_cycles depth (w : world) (la lb : nat) (k : string) (oa ob : obj) :
  la <> lb ->
  heap w !! la = Some oa ->
  heap w !! lb = Some ob ->
  o_isArray oa = o_isArray ob ->
  o_isArray oa && String.eqb k "length" = false ->
  o_props oa = [(k, VRef la)] ->
  o_props ob = [(k, VRef lb)] ->
  deepEqual_depth depth (VRef la) (VRef lb) w = Throw RangeError w.
Proof.
  intros Hne Ha Hb Hkind Hlen Hpa Hpb.
  induction depth as [|d IH]; [reflexivity|].
  rewrite deepEqual_depth_S.
  assert (strict_eq (VRef la) (VRef lb) = false) as ->
    by (simpl; by apply Nat.eqb_neq).
  cbn [is_nullish is_object_type typeof orb negb]. cbv beta iota.
  unfold bind at 1. unfold Array_isArray at 1, gets at 1.
  unfold bind at 1. unfold Array_isArray at 1, gets at 1.
  rewrite (heap_obj_lookup _ _ _ Ha), (heap_obj_lookup _ _ _ Hb), Hkind.
  rewrite Bool.eqb_reflx. cbn [negb]. cbv beta iota.
  unfold bind at 1. unfold Object_keys at 1, gets at 1.
  unfold bind at 1. unfold Object_keys at 1, gets at 1.
  rewrite (heap_obj_lookup _ _ _ Ha), (heap_obj_lookup _ _ _ Hb).
  rewrite (own_keys_single _ _ _ Hpa), (own_keys_single _ _ _ Hpb).
  cbn [length Nat.eqb negb]. cbv beta iota fix.
  unfold includes. cbn [existsb]. rewrite String.eqb_refl. cbn [orb negb]. cbv beta iota.
  unfold bind at 1. unfold Get at 1, raw_get, gets.
  rewrite (heap_obj_lookup _ _ _ Ha).
  unfold bind at 1. unfold Get at 1, raw_get, gets.
  rewrite (heap_obj_lookup _ _ _ Hb).
  unfold own_get. rewrite <- Hkind, Hlen, Hpa, Hpb. cbn [alist_get].
  rewrite String.eqb_refl. cbn [default from_option]. unfold id.
  unfold bind at 1. rewrite IH. reflexivity.
Qed.

(** X13.  deepEqual follows references without remembering where it has
    been: on two distinct objects that each refer to themselves under the
    same key it recurses until the call stack is exhausted, whatever the
    room on the stack, and the RangeError of the engine comes out of
    deepEqual and out of the [setState] that compared the two states,
    which reports it and leaves the state as it was. *)
Theorem deepEqual_of_cycles_overflows
  (w : world) (la lb : nat) (k : string) (oa ob : obj) :
  la <> lb ->
  heap w !! la = Some oa ->
  heap w !! lb = Some ob ->
  o_isArray oa = o_isArray ob ->
  o_isArray oa && String.eqb k "length" = false ->
  o_props oa = [(k, VRef la)] ->
  o_props ob = [(k, VRef lb)] ->
  deepEqual (VRef la) (VRef lb) w = Throw RangeError w
  /\ forall (u : updater) (w0 : world),
       state w0 = VRef lb ->
       u (VRef lb) w0 = Ok (VRef la) w ->
       plugins w = [] ->
       exists w',
         StoreCore.setState u w0 = Throw RangeError w'
         /\ state w' = state w
         /\ new_events w w' = [ConsoleError "[StoreCore] Error in setState:"].
Proof.
  intros Hne Ha Hb Hkind Hlen Hpa Hpb.
  assert (Hd : deepEqual (VRef la) (VRef lb) w = Throw RangeError w).
  { unfold deepEqual, bind, gets.
    by rewrite (deepEqual_depth_cycles (stack w) w la lb k oa ob). }
  split; [exact Hd|].
  intros u w0 Hs Hu Hps. rewrite <- Hs in Hu.
  rewrite (setState_run u w0 (VRef la) w Hu eq_refl), Hps. simpl before_run. cbv iota.
  rewrite add_trace_nil, hasChanged_object by reflexivity. rewrite Hs, Hd.
  eexists. split; [reflexivity|]. split; [reflexivity|].
  by apply new_events_app.
Qed.

Lemma deepEqual_of_cycles_overflows_witness :
  deepEqual (VRef 0) (VRef 1) two_cycles = Throw RangeError two_cycles.
Proof.
  refine (proj1 (deepEqual_of_cycles_overflows two_cycles 0 1 "self"
                   (Obj false 0 [("self", VRef 0)] false)
                   (Obj false 0 [("self", VRef 1)] false)
                   _ eq_refl eq_refl eq_refl eq_refl eq_refl eq_refl)).
  discriminate.
Defined.

(** X14.  A comparison never notifies and never assigns a field of the
    store: whatever deepEqual is given and however it ends, the state and
    the listeners are as before and no listener has been called; in a
    store that has created no proxy it changes nothing at all. *)
Theorem deepEqual_never_notifies (a b : value) (w : world) :
  match deepEqual a b w with
  | Ok _ w' | Throw _ w' =>
      state w' = state w /\ listeners w' = listeners w
      /\ listener_calls (trace w') = listener_calls (trace w)
      /\ (proxies w = [] -> w' = w)
  | Unmodelled => True
  end.
Proof.
  pose proof (deepEqual_quiet a b w) as Hq.
  pose proof (deepEqual_no_proxies a b w) as Hp.
  destruct (deepEqual a b w) as [r w'|e w'|]; [| |exact I];
    (split; [apply Hq|]; split; [apply Hq|]; split;
     [by apply quiet_listener_calls|exact Hp]).
Qed.

(** ** The constructor of the reactive store *)

(** X15.  The constructor of the reactive store wraps the root and nothing
    else: the initial object stays in the field of the base class, where
    the listeners get it from, [getState] and [reactive] return one and
    the same Level-0 proxy of it, which answers [__isReactive] with true
    and [__store] with the store; no nested object is wrapped yet, the
    cache is empty and the heap is as it was given. *)
Theorem reactive_constructor_wraps_lazily
  (h : list obj) (l : nat) (o : obj) (room : nat) :
  h !! l = Some o ->
  o_exotic o = false ->
  exists w,
    createReactiveStore h (VRef l) room = Ok tt w
    /\ w = World h [Proxy l true (o_isArray o)] ∅ (VRef l) (VProxy 0) [] [] room []
    /\ ReactiveStore.getState w = Ok (VProxy 0) w
    /\ ReactiveStore.reactive w = Ok (VProxy 0) w
    /\ StoreCore.getState w = Ok (VRef l) w
    /\ Get (VProxy 0) "__isReactive" w = Ok (VBool true) w
    /\ Get (VProxy 0) "__store" w = Ok VStore w.
Proof.
  intros Hl Hex. eexists. split.
  - unfold createReactiveStore, ReactiveStore.create, StoreCore.create. simpl for_each.
    unfold ret at 1. unfold bind at 1. rewrite createReactiveState_run.
    unfold heap_obj. simpl heap. rewrite Hl. simpl default. rewrite Hex. reflexivity.
  - repeat split.
Qed.

Lemma reactive_constructor_wraps_lazily_witness :
  createReactiveStore items_heap (VRef 0) 16
  = Ok tt (World items_heap [Proxy 0 true false] ∅ (VRef 0) (VProxy 0) [] [] 16 []).
Proof.
  destruct (reactive_constructor_wraps_lazily items_heap 0
              (Obj false 0 [("items", VRef 1)] false) 16 eq_refl eq_refl)
    as (w & H1 & H2 & _).
  rewrite H1, H2. reflexivity.
Defined.

(** ** Writes through a proxy *)

Lemma notify_loop ls w :
  for_each ls
    (fun listener =>
       s <- gets state ;;
       call (ListenerCall (l_id listener) s) (l_body listener s) ;;; ret tt) w
  = match notify_run (state w) ls with
    | (evs, None) => Ok tt (add_trace evs w)
    | (evs, Some e) => Throw e (add_trace evs w)
    end.
Proof.
  revert w. induction ls as [|l ls IH]; intros w; simpl.
  - unfold ret. by rewrite add_trace_nil.
  - unfold bind at 1. unfold bind at 1. unfold gets at 1.
    unfold bind at 1. unfold call. unfold bind at 1. unfold modify at 1.
    destruct (l_body l (state w)); simpl.
    + rewrite IH. simpl.
      destruct (notify_run (state w) ls) as [evs [e|]];
        rewrite emit_add_trace, add_trace_app; reflexivity.
    + unfold throw. by rewrite emit_add_trace.
Qed.

Lemma notifyListeners_run w :
  StoreCore.notifyListeners w =
  match notify_run (state w) (listeners w) with
  | (evs, None) => Ok tt (add_trace evs w)
  | (evs, Some e) => Throw e (add_trace evs w)
  end.
Proof.
  unfold StoreCore.notifyListeners. unfold bind at 1. unfold gets at 1.
  apply notify_loop.
Qed.

Lemma notify_run_returns s ls :
  listeners_return s ls = true -> notify_run s ls = (round s ls, None).
Proof.
  induction ls as [|l ls IH]; simpl; [done|].
  destruct (l_body l s); [|done]. intros H. by rewrite (IH H).
Qed.

Lemma notify_run_throws s pre l post e :
  listeners_return s pre = true ->
  l_body l s = Throws e ->
  notify_run s (pre ++ l :: post) = (round s (pre ++ [l]), Some e).
Proof.
  induction pre as [|q pre IH]; simpl.
  - intros _ ->. reflexivity.
  - destruct (l_body q s); [|done]. intros H Hl. by rewrite (IH H Hl).
Qed.

Lemma listener_calls_round s ls : listener_calls (round s ls) = round s ls.
Proof. apply listener_calls_of_calls. Qed.


Lemma needs_wrap_primitive v w : is_primitive v = true -> needs_wrap v w = Ok false w.
Proof. intros H. rewrite needs_wrap_run. by destruct v. Qed.

Lemma own_get_plain o prop :
  o_isArray o = false -> own_get o prop = default VUndef (alist_get prop (o_props o)).
Proof. intros H. unfold own_get. by rewrite H. Qed.


Lemma heap_obj_with w t o o' :
  heap w !! t = Some o -> heap_obj (set_heap (<[t := o']> (heap w)) w) t = o'.
Proof. intros H. apply heap_obj_stored. by eapply lookup_lt_Some. Qed.






(** ** Deleting through a proxy *)






(** ** Reads through a proxy *)

Lemma Get_ordinary p pr prop w :
  proxies w !! p = Some pr ->
  ordinary_key pr prop = true ->
  Get (VProxy p) prop w = wrap_on_read (p_target pr) prop w.
Proof.
  intros Hp [Hr Hk]%andb_true_iff. apply negb_true_iff in Hr.
  unfold Get. unfold bind at 1. unfold proxy_of. rewrite Hp.
  rewrite (get_trap_ordinary pr prop Hr).
  destruct (p_root pr); apply negb_true_iff in Hk; by rewrite Hk.
Qed.

(** X19.  Reading a property that holds a plain object through a proxy
    answers with a proxy of that object and stores this proxy in the
    property: the original object, the one the listeners are called with,
    holds the proxy from then on.  The proxy is the cached one when the
    object has been wrapped before, and a new one, entered in the cache,
    when it has not.  Nothing is notified. *)
Theorem reading_wraps_in_place
  (p : nat) (pr : proxy) (prop : string) (w : world) (o : obj) (l : nat) :
  proxies w !! p = Some pr ->
  heap w !! p_target pr = Some o ->
  ordinary_key pr prop = true ->
  own_get o prop = VRef l ->
  truthy (own_get (heap_obj w l) "__isReactive") = false ->
  o_exotic (heap_obj w l) = false ->
  exists q w',
    Get (VProxy p) prop w = Ok (VProxy q) w'
    /\ own_get (heap_obj w' (p_target pr)) prop = VProxy q
    /\ proxyCache w' !! l = Some q
    /\ trace w' = trace w
    /\ match proxyCache w !! l with
       | Some q0 => q = q0 /\ proxies w' = proxies w
       | None =>
           q = length (proxies w)
           /\ proxies w' = proxies w ++ [Proxy l false (o_isArray (heap_obj w l))]
       end.
Proof.
  intros Hp Ho Hkey Hv Hflag Hex.
  rewrite (Get_ordinary p pr prop w Hp Hkey).
  assert (Hv' : own_get (heap_obj w (p_target pr)) prop = VRef l)
    by by rewrite (heap_obj_lookup _ _ _ Ho).
  unfold wrap_on_read. unfold bind at 1. unfold raw_get at 1, gets at 1.
  unfold bind at 1. rewrite Hv', needs_wrap_run, Hflag. cbn [negb]. cbv beta iota.
  unfold bind at 1. rewrite makeReactive_ref.
  destruct (proxyCache w !! l) as [q0|] eqn:Hc.
  - destruct (raw_set_stored (p_target pr) prop (VProxy q0) w) as (o' & Hs & Hset);
      [by exists l|].
    unfold bind. rewrite Hset. exists q0. eexists. split; [reflexivity|].
    rewrite (heap_obj_with _ _ _ _ Ho).
    split; [eapply own_get_set_same, Hs|]. done.
  - rewrite Hex.
    set (wm := set_proxyCache _ _).
    destruct (raw_set_stored (p_target pr) prop (VProxy (length (proxies w))) wm)
      as (o' & Hs & Hset); [by exists l|].
    unfold bind. rewrite Hset. eexists _, _. split; [reflexivity|].
    split.
    + change (heap wm) with (heap w).
      change (heap_obj (set_heap ?h wm) ?t) with (heap_obj (set_heap h w) t).
      rewrite (heap_obj_with _ _ _ _ Ho). eapply own_get_set_same, Hs.
    + split; [simpl; apply lookup_insert_eq|]. done.
Qed.

Lemma reading_wraps_in_place_witness :
  exists w',
    Get (VProxy 0) "items" fresh_items = Ok (VProxy 1) w'
    /\ own_get (heap_obj w' 0) "items" = VProxy 1
    /\ proxies w' = [Proxy 0 true false; Proxy 1 false true].
Proof.
  destruct (reading_wraps_in_place 0 (Proxy 0 true false) "items" fresh_items
              (Obj false 0 [("items", VRef 1)] false) 1)
    as (q & w' & H1 & H2 & _ & _ & H3); try reflexivity.
  change (proxyCache fresh_items !! 1) with (@None nat) in H3.
  destruct H3 as [-> H3].
  exists w'. split; [exact H1|]. split; [exact H2|]. rewrite H3. reflexivity.
Defined.



(** ** [ReactiveStore.setState] on what is not an object *)

(** X21.  [ReactiveStore.setState] has no check of its own for what the
    updater returns.  When that is null or undefined, [Object.keys] throws
    a TypeError, which is reported and thrown on, and nothing has been
    written; when it is a number or a boolean there are no keys to copy,
    and the call returns without a write and without a notification. *)
Theorem reactive_setState_of_non_object (u : updater) (w w1 : world) (v : value) :
  u (reactiveState w) w = Ok v w1 ->
  (is_nullish v = true ->
   ReactiveStore.setState u w
   = Throw TypeError (add_trace [ConsoleError "[ReactiveStore] Error in setState:"] w1))
  /\ (is_primitive v = true -> is_nullish v = false -> typeof v <> TString ->
      ReactiveStore.setState u w = Ok tt w1).
Proof.
  intros Hu. split.
  - intros Hn. unfold ReactiveStore.setState.
    unfold try_catch, bind at 1, gets at 1. unfold bind at 1. rewrite Hu.
    unfold bind at 1.
    destruct v; try discriminate; simpl; unfold throw, bind, console_error, modify;
      by rewrite emit_add_trace.
  - intros Hp Hn Hs. unfold ReactiveStore.setState.
    unfold try_catch, bind at 1, gets at 1. unfold bind at 1. rewrite Hu.
    unfold bind at 1.
    destruct v; try discriminate; try (by exfalso; apply Hs); reflexivity.
Qed.

Lemma reactive_setState_of_non_object_witness :
  ReactiveStore.setState (fun _ => ret VNull) reactive_counter
  = Throw TypeError
      (add_trace [ConsoleError "[ReactiveStore] Error in setState:"] reactive_counter)
  /\ ReactiveStore.setState (fun _ => ret (VNum 5)) reactive_counter
     = Ok tt reactive_counter.
Proof.
  split.
  - apply (reactive_setState_of_non_object (fun _ => ret VNull) reactive_counter
             reactive_counter VNull eq_refl). reflexivity.
  - apply (reactive_setState_of_non_object (fun _ => ret (VNum 5)) reactive_counter
             reactive_counter (VNum 5) eq_refl); [reflexivity|reflexivity|discriminate].
Defined.

(** ** The fields of a reactive store *)

Lemma same_store_refl w : same_store w w.
Proof. by repeat split. Qed.

Lemma same_store_trans a b c : same_store a b -> same_store b c -> same_store a c.
Proof.
  intros (H1 & H2 & H3 & H4) (G1 & G2 & G3 & G4). repeat split; congruence.
Qed.

Lemma same_store_heap w h : same_store w (set_heap h w).
Proof. by repeat split. Qed.

Lemma same_store_emit w e : same_store w (emit e w).
Proof. by repeat split. Qed.

Lemma same_store_makeReactive obj w :
  match makeReactive obj w with
  | Ok _ w' | Throw _ w' => same_store w w'
  | Unmodelled => True
  end.
Proof.
  pose proof (quiet_makeReactive obj w) as H.
  destruct (makeReactive obj w); try exact I;
    destruct H as (H1 & H2 & H3 & H4 & _); by repeat split.
Qed.

(** X22.  The reactive store never assigns its fields after construction:
    no read, write or deletion through a proxy, no array method, no
    comparison and no [setState] changes [this.state], the proxy that
    [getState] and [reactive] return, the listener set or the plugins.
    The listeners are therefore always called with the object the store
    was created with, never with a new one. *)
Theorem reactive_operations_keep_the_fields :
  (forall v prop, pres same_store (Get v prop))
  /\ (forall v prop val, pres same_store (Set_ v prop val))
  /\ (forall v prop, pres same_store (Delete v prop))
  /\ (forall a b, pres same_store (deepEqual a b))
  /\ (forall recv c,
        (forall f a b, c = sort (Some f) -> pres same_store (f a b)) ->
        pres same_store (call_method recv c))
  /\ (forall u : updater,
        (forall v, pres same_store (u v)) ->
        pres same_store (ReactiveStore.setState u))
  /\ (forall key val, pres same_store (ReactiveStore.setProperty key val))
  /\ (forall key, pres same_store (ReactiveStore.getProperty key)).
Proof.
  repeat split.
  - apply (pres_Get same_store same_store_refl same_store_trans same_store_heap
             same_store_makeReactive).
  - apply (pres_Set same_store same_store_refl same_store_trans same_store_heap
             same_store_emit same_store_makeReactive).
  - apply (pres_Delete same_store same_store_refl same_store_trans same_store_heap
             same_store_emit same_store_makeReactive).
  - apply (pres_deepEqual same_store same_store_refl same_store_trans same_store_heap
             same_store_makeReactive).
  - apply (pres_call_method same_store same_store_refl same_store_trans same_store_heap
             same_store_emit same_store_makeReactive).
  - apply (pres_reactive_setState same_store same_store_refl same_store_trans
             same_store_heap same_store_emit same_store_makeReactive).
  - apply (pres_setProperty same_store same_store_refl same_store_trans same_store_heap
             same_store_emit same_store_makeReactive).
  - apply (pres_getProperty same_store same_store_refl same_store_trans same_store_heap
             same_store_makeReactive).
Qed.

(** ** Nested arrays: writes and methods *)

Lemma index_key_not_length n : String.eqb (index_key n) "length" = false.
Proof.
  destruct (index_key_chars n) as (c & cs & Hk & Hd).
  apply String.eqb_neq. intros H. rewrite H in Hk. simpl in Hk.
  injection Hk as <- _. simpl in Hd. discriminate.
Qed.

(** X23.  An assignment to an index of an array through its nested proxy
    always notifies: the value is stored and every listener is called
    once, also when the value is the one the index held before and
    whatever the room on the stack, since the two values are not
    compared. *)
Theorem nested_index_write_always_notifies
  (p : nat) (pr : proxy) (n : nat) (val : value) (w : world) (o : obj) :
  proxies w !! p = Some pr ->
  p_root pr = false ->
  p_isArray pr = true ->
  heap w !! p_target pr = Some o ->
  o_isArray o = true ->
  is_primitive val = true ->
  listeners_return (state w) (listeners w) = true ->
  exists w',
    Set_ (VProxy p) (index_key n) val w = Ok tt w'
    /\ own_get (heap_obj w' (p_target pr)) (index_key n) = val
    /\ new_events w w' = round (state w) (listeners w).
Proof.
  intros Hp Hroot Harr Ho Hoarr Hprim Hret.
  destruct (own_set o (index_key n) val) as [o'|] eqn:Hs.
  2: { unfold own_set in Hs. rewrite Hoarr, index_key_not_length in Hs.
       destruct (key_index (index_key n)); discriminate. }
  unfold Set_. unfold bind at 1. unfold proxy_of. rewrite Hp, Hroot.
  unfold bind at 1. unfold makeReactive_set. rewrite Harr, index_key_is_numeric.
  unfold bind at 1. unfold raw_get at 1, gets at 1.
  unfold bind at 1. rewrite needs_wrap_primitive by done.
  unfold bind at 1. unfold ret at 1.
  unfold bind at 1. unfold raw_set at 1.
  rewrite (heap_obj_lookup _ _ _ Ho), Hoarr, index_key_not_length, Hs. simpl andb. cbv iota.
  unfold bind at 1. unfold ret at 1.
  unfold bind at 1. rewrite notifyListeners_run. simpl state. simpl listeners.
  rewrite (notify_run_returns _ _ Hret).
  eexists. split; [reflexivity|]. split.
  - change (heap_obj (add_trace ?evs ?w0) ?t) with (heap_obj w0 t).
    rewrite (heap_obj_with _ _ _ _ Ho). eapply own_get_set_same, Hs.
  - by apply new_events_app.
Qed.

Lemma nested_index_write_always_notifies_witness :
  exists w1 w',
    Get (VProxy 0) "items" reactive_items = Ok (VProxy 1) w1
    /\ Set_ (VProxy 1) (index_key 0) (VNum 1) w1 = Ok tt w'
    /\ own_get (heap_obj w' 1) (index_key 0) = VNum 1
    /\ new_events w1 w' = [ListenerCall 1 (VRef 0)].
Proof.
  exists (world_of (Get (VProxy 0) "items" reactive_items)).
  destruct (nested_index_write_always_notifies
              1 (Proxy 1 false true) 0 (VNum 1)
              (world_of (Get (VProxy 0) "items" reactive_items))
              (Obj true 3 [("0", VNum 1); ("1", VNum 2); ("2", VNum 3)] false))
    as (w' & H1 & H2 & H3); try reflexivity.
  exists w'. split; [reflexivity|]. split; [exact H1|]. split; [exact H2|].
  rewrite H3. reflexivity.
Defined.

Lemma heap_step_refl w : heap_step w w.
Proof. exists (heap w). by destruct w. Qed.

Lemma heap_step_trans a b c : heap_step a b -> heap_step b c -> heap_step a c.
Proof. intros [h1 ->] [h2 ->]. by exists h2. Qed.

Lemma heap_step_heap w h : heap_step w (set_heap h w).
Proof. by exists h. Qed.

Ltac heap_step_tac :=
  repeat first
    [ apply (pres_ret heap_step heap_step_refl)
    | apply (pres_throw heap_step heap_step_refl)
    | apply (pres_unmodelled heap_step)
    | apply (pres_gets heap_step heap_step_refl)
    | apply (pres_raw_get heap_step heap_step_refl)
    | apply (pres_raw_has heap_step heap_step_refl)
    | apply (pres_raw_set heap_step heap_step_refl heap_step_heap)
    | apply (pres_raw_delete heap_step heap_step_refl heap_step_heap)
    | apply (pres_alloc heap_step heap_step_heap)
    | apply (pres_ToLength heap_step heap_step_refl)
    | apply (pres_ToString heap_step heap_step_refl)
    | assumption
    | apply (pres_bind heap_step heap_step_trans); [|intros ?]
    | apply (pres_for_each heap_step heap_step_refl heap_step_trans); intros ?
    | apply pres_if ].

Lemma heap_step_Get l prop : pres heap_step (Get (VRef l) prop).
Proof. simpl. heap_step_tac. Qed.

Lemma heap_step_Set l prop val : pres heap_step (Set_ (VRef l) prop val).
Proof. simpl. heap_step_tac. Qed.

Lemma heap_step_Delete l prop : pres heap_step (Delete (VRef l) prop).
Proof. simpl. heap_step_tac. Qed.

Lemma heap_step_Has l prop : pres heap_step (Has (VRef l) prop).
Proof. simpl. heap_step_tac. Qed.

Lemma heap_step_LengthOfArrayLike l : pres heap_step (LengthOfArrayLike (VRef l)).
Proof.
  unfold LengthOfArrayLike.
  apply (pres_bind heap_step heap_step_trans); [apply heap_step_Get|intros ?].
  heap_step_tac.
Qed.

Lemma heap_step_set_length l n : pres heap_step (set_length (VRef l) n).
Proof. apply heap_step_Set. Qed.

Lemma heap_step_set_items l k items : pres heap_step (set_items (VRef l) k items).
Proof.
  revert k. induction items as [|E items IH]; intros k; simpl; [heap_step_tac|].
  apply (pres_bind heap_step heap_step_trans); [apply heap_step_Set|intros ?]. apply IH.
Qed.

Lemma heap_step_move l from to : pres heap_step (move (VRef l) from to).
Proof.
  unfold move.
  apply (pres_bind heap_step heap_step_trans); [apply heap_step_Has|intros present].
  destruct present.
  - apply (pres_bind heap_step heap_step_trans); [apply heap_step_Get|intros ?].
    apply heap_step_Set.
  - apply heap_step_Delete.
Qed.

Lemma heap_step_collect l ks : pres heap_step (collect (VRef l) ks).
Proof.
  induction ks as [|k ks IH]; simpl; [heap_step_tac|].
  apply (pres_bind heap_step heap_step_trans); [apply heap_step_Has|intros present].
  destruct present; [|exact IH].
  apply (pres_bind heap_step heap_step_trans); [apply heap_step_Get|intros ?].
  apply (pres_bind heap_step heap_step_trans); [exact IH|intros ?]. heap_step_tac.
Qed.

Ltac heap_step_array :=
  repeat first
    [ apply heap_step_Get | apply heap_step_Set | apply heap_step_Delete
    | apply heap_step_Has | apply heap_step_LengthOfArrayLike
    | apply heap_step_set_length | apply heap_step_set_items | apply heap_step_move
    | apply heap_step_collect
    | apply (pres_ret heap_step heap_step_refl)
    | apply (pres_bind heap_step heap_step_trans); [|intros ?]
    | apply (pres_for_each heap_step heap_step_refl heap_step_trans); intros ?
    | match goal with |- pres _ (match ?x with _ => _ end) => destruct x end ].

Lemma heap_step_apply_method c l :
  (forall f a b, c = sort (Some f) -> pres heap_step (f a b)) ->
  pres heap_step (apply_method c (VRef l)).
Proof.
  intros Hcmp. destruct c as [items| | |items|start deleteCount items|comparefn|]; simpl.
  - unfold Array_push. heap_step_array.
  - unfold Array_pop. heap_step_array.
  - unfold Array_shift. heap_step_array.
  - unfold Array_unshift. heap_step_array.
  - unfold Array_splice.
    apply (pres_bind heap_step heap_step_trans); [apply heap_step_LengthOfArrayLike|intros len].
    cbv zeta. intros w. unfold bind at 1. unfold alloc at 1.
    match goal with
    | |- match ?k ?A ?w1 with _ => _ end =>
        assert (Hk : pres heap_step (k A)); [|specialize (Hk w1); destruct (k A w1)]
    end.
    + heap_step_array.
    + eapply heap_step_trans; [apply heap_step_heap|exact Hk].
    + eapply heap_step_trans; [apply heap_step_heap|exact Hk].
    + exact I.
  - unfold Array_sort.
    apply (pres_bind heap_step heap_step_trans); [apply heap_step_LengthOfArrayLike|intros len].
    apply (pres_bind heap_step heap_step_trans); [apply heap_step_collect|intros items].
    apply (pres_bind heap_step heap_step_trans).
    + apply (pres_sort_list heap_step heap_step_refl heap_step_trans).
      intros f a b ->. by eapply Hcmp.
    + intros sorted. heap_step_array.
  - unfold Array_reverse. heap_step_array.
Qed.

(** X24.  A mutating method called on an array through its nested proxy runs
    on the array itself, where no trap sees its writes, and is followed
    by one notification: every listener is called exactly once, after the
    method has returned, however many elements the method moved; a method
    that throws notifies nobody. *)
Theorem nested_method_notifies_once
  (p : nat) (pr : proxy) (c : array_call) (w : world) :
  proxies w !! p = Some pr ->
  p_root pr = false ->
  p_isArray pr = true ->
  (forall f a b, c = sort (Some f) -> heap_only (f a b)) ->
  listeners_return (state w) (listeners w) = true ->
  match apply_method c (VRef (p_target pr)) w with
  | Ok result w1 =>
      exists w',
        call_method (VProxy p) c w = Ok result w'
        /\ heap w' = heap w1
        /\ new_events w w' = round (state w) (listeners w)
  | Throw e w1 =>
      call_method (VProxy p) c w = Throw e w1 /\ new_events w w1 = []
  | Unmodelled => call_method (VProxy p) c w = Unmodelled
  end.
Proof.
  intros Hp Hroot Harr Hcmp Hret.
  assert (Hcall : call_method (VProxy p) c w
                  = match apply_method c (VRef (p_target pr)) w with
                    | Ok result w1 => (StoreCore.notifyListeners ;;; ret result) w1
                    | Throw e w1 => Throw e w1
                    | Unmodelled => Unmodelled
                    end)
    by (by rewrite (nested_method_is_intercepted p pr c w Hp Hroot Harr)).
  rewrite Hcall. clear Hcall.
  pose proof (heap_step_apply_method c (p_target pr) Hcmp w) as Hstep.
  destruct (apply_method c (VRef (p_target pr)) w) as [result w1|e w1|].
  - destruct Hstep as [h ->].
    unfold bind at 1. rewrite notifyListeners_run. simpl state. simpl listeners.
    rewrite (notify_run_returns _ _ Hret).
    eexists. split; [reflexivity|]. split; [reflexivity|]. by apply new_events_app.
  - destruct Hstep as [h ->]. split; [reflexivity|].
    apply new_events_app. simpl. by rewrite app_nil_r.
  - reflexivity.
Qed.

Lemma nested_method_notifies_once_witness :
  exists w',
    call_method (VProxy 1) (push [VNum 4; VNum 5])
                (world_of (Get (VProxy 0) "items" reactive_items))
    = Ok (VNum 5) w'
    /\ new_events (world_of (Get (VProxy 0) "items" reactive_items)) w'
       = [ListenerCall 1 (VRef 0)].
Proof.
  pose proof (nested_method_notifies_once 1 (Proxy 1 false true) (push [VNum 4; VNum 5])
                (world_of (Get (VProxy 0) "items" reactive_items))
                eq_refl eq_refl eq_refl ltac:(discriminate) eq_refl) as H.
  remember (apply_method (push [VNum 4; VNum 5]) (VRef (p_target (Proxy 1 false true)))
              (world_of (Get (VProxy 0) "items" reactive_items))) as r eqn:E.
  vm_compute in E. subst r.
  destruct H as (w' & H1 & _ & H2). exists w'. split; [exact H1|]. rewrite H2. reflexivity.
Defined.

(** ** An update that changes nothing *)

Lemma own_get_set_other o k v o' k' :
  own_set o k v = Some o' ->
  is_primitive v = false ->
  String.eqb k' k = false ->
  own_get o' k' = own_get o k' \/ exists n, own_get o' k' = VNum n.
Proof.
  intros Hs Hv Hk. unfold own_set in Hs. destruct (o_isArray o) eqn:Harr.
  - destruct (String.eqb k "length").
    { destruct v; try discriminate. }
    destruct (String.eqb k' "length") eqn:Hlen.
    + right. destruct (key_index k); injection Hs as <-; unfold own_get; simpl;
        rewrite Hlen; simpl; by eexists.
    + left. destruct (key_index k); injection Hs as <-; unfold own_get; simpl;
        rewrite Harr, Hlen; simpl; by rewrite alist_get_set_other.
  - left. injection Hs as <-. unfold own_get. simpl. rewrite Harr. simpl.
    by rewrite alist_get_set_other.
Qed.

Lemma strict_eq_refl v : v <> VNaN -> strict_eq v v = true.
Proof.
  destruct v; simpl; try done; intros _.
  - by destruct b.
  - apply Z.eqb_refl.
  - apply String.eqb_refl.
  - apply Nat.eqb_refl.
  - apply Nat.eqb_refl.
Qed.

Lemma deepEqual_identical a b w :
  0 < stack w -> strict_eq a b = true -> deepEqual a b w = Ok true w.
Proof.
  intros Hs H. unfold deepEqual, bind, gets. destruct (stack w); [lia|].
  by rewrite deepEqual_depth_S, H.
Qed.

Lemma Get_quiet v prop : pres quiet (Get v prop).
Proof. apply (pres_Get quiet quiet_refl quiet_trans quiet_heap quiet_makeReactive). Qed.

Lemma readable_after_set w wm t key r o' :
  heap wm = heap w ->
  (forall q, is_Some (proxies w !! q) -> is_Some (proxies wm !! q)) ->
  readable w t ->
  own_set (heap_obj w t) key r = Some o' ->
  t < length (heap w) ->
  match r with
  | VProxy q => is_Some (proxies wm !! q)
  | VRef _ => True
  | _ => False
  end ->
  readable (set_heap (<[t := o']> (heap wm)) wm) t.
Proof.
  intros Hh Hmono Hrd Hs Ht Hr key'.
  rewrite heap_obj_stored by (by rewrite Hh).
  destruct (String.eqb key' key) eqn:E.
  - apply String.eqb_eq in E. subst key'. rewrite (own_get_set_same _ _ _ _ Hs).
    destruct r; try done.
  - assert (Hprim : is_primitive r = false) by (by destruct r).
    destruct (own_get_set_other _ _ _ _ key' Hs Hprim E) as [->|[n ->]]; [|done].
    specialize (Hrd key'). destruct (own_get (heap_obj w t) key'); try done.
    by apply Hmono.
Qed.

Lemma root_read_step p pr key w :
  steady p pr w ->
  p_root pr = true ->
  exists r w1,
    Get (VProxy p) key w = Ok r w1
    /\ strict_eq r r = true
    /\ steady p pr w1
    /\ quiet w w1.
Proof.
  intros (Hwf & Hp & Hrs & Hst & Hrd) Hroot.
  assert (Hgen : forall r w1,
            Get (VProxy p) key w = Ok r w1 -> readable w1 (p_target pr) ->
            steady p pr w1 /\ quiet w w1).
  { intros r w1 HG Hrd1.
    pose proof (Get_quiet (VProxy p) key w) as Hq.
    pose proof (Get_keeps_cache (VProxy p) key w) as Hk.
    pose proof (Get_grows (VProxy p) key w) as Hg.
    rewrite HG in Hq, Hk, Hg. split; [|exact Hq].
    destruct Hq as (_ & Q2 & _ & _ & Q5 & _). destruct Hg as [[more Hm] _].
    split; [by apply Hk|]. split.
    - rewrite Hm. apply lookup_app_l_Some, Hp.
    - split; [congruence|]. split; [lia|exact Hrd1]. }
  assert (Hsame : forall r, r <> VNaN ->
            Get (VProxy p) key w = Ok r w ->
            exists r w1, Get (VProxy p) key w = Ok r w1 /\ strict_eq r r = true
                         /\ steady p pr w1 /\ quiet w w1).
  { intros r Hr HG. exists r, w. split; [exact HG|].
    split; [by apply strict_eq_refl|]. by apply (Hgen r w HG). }
  assert (HGet : Get (VProxy p) key w = createReactiveState_get pr key w).
  { unfold Get. unfold bind at 1. unfold proxy_of. by rewrite Hp, Hroot. }
  destruct (String.eqb key "__isReactive") eqn:E1.
  { apply (Hsame (VBool true)); [done|]. rewrite HGet.
    unfold createReactiveState_get. by rewrite E1. }
  destruct (String.eqb key "__store") eqn:E2.
  { apply (Hsame VStore); [done|]. rewrite HGet.
    unfold createReactiveState_get. by rewrite E1, E2. }
  assert (HGet' : Get (VProxy p) key w = wrap_on_read (p_target pr) key w).
  { rewrite HGet. unfold createReactiveState_get. by rewrite E1, E2. }
  set (t := p_target pr) in *.
  pose proof (Hrd key) as Hv.
  destruct (own_get (heap_obj w t) key) as [| |b|n| |s|l|q|] eqn:Ev; try done.
  1-5: (eapply Hsame; [|rewrite HGet'; unfold wrap_on_read, bind, raw_get, gets;
                         rewrite Ev, needs_wrap_run; reflexivity]; done).
  - (* an object *)
    pose proof (own_get_allocated _ _ _ _ Ev) as Ht.
    destruct (truthy (own_get (heap_obj w l) "__isReactive")) eqn:Hflag.
    { eapply Hsame; [|rewrite HGet'; unfold wrap_on_read, bind, raw_get, gets;
                       rewrite Ev, needs_wrap_run, Hflag; reflexivity]. done. }
    assert (Hrun : wrap_on_read t key w
                   = (reactiveValue <- makeReactive (VRef l) ;;
                      raw_set t key reactiveValue ;;; ret reactiveValue) w).
    { unfold wrap_on_read. unfold bind at 1. unfold raw_get at 1, gets at 1.
      unfold bind at 1. by rewrite Ev, needs_wrap_run, Hflag. }
    rewrite HGet', Hrun in *. clear Hrun.
    unfold bind at 1. rewrite makeReactive_ref.
    unfold bind at 1 in Hgen. rewrite makeReactive_ref in Hgen.
    destruct (proxyCache w !! l) as [q|] eqn:Hc.
    + destruct (raw_set_stored t key (VProxy q) w) as (o' & Hs & Hset); [by exists l|].
      unfold bind in *. rewrite Hset in *.
      eexists _, _. split; [reflexivity|]. split; [apply Nat.eqb_refl|].
      apply (Hgen _ _ eq_refl).
      apply (readable_after_set w w t key (VProxy q) o'); try done.
      destruct Hwf as [H1 _]. destruct (H1 _ _ Hc) as [a Ha]. by eexists.
    + destruct (o_exotic (heap_obj w l)) eqn:Hex.
      * set (wm := add_trace _ w) in *.
        destruct (raw_set_stored t key (VRef l) wm) as (o' & Hs & Hset); [by exists l|].
        unfold bind in *. rewrite Hset in *.
        eexists _, _. split; [reflexivity|]. split; [apply Nat.eqb_refl|].
        apply (Hgen _ _ eq_refl).
        by apply (readable_after_set w wm t key (VRef l) o').
      * set (wm := set_proxyCache _ _) in *.
        destruct (raw_set_stored t key (VProxy (length (proxies w))) wm)
          as (o' & Hs & Hset); [by exists l|].
        unfold bind in *. rewrite Hset in *.
        eexists _, _. split; [reflexivity|]. split; [apply Nat.eqb_refl|].
        apply (Hgen _ _ eq_refl).
        apply (readable_after_set w wm t key (VProxy (length (proxies w))) o'); try done.
        -- intros q' [x Hx]. exists x. simpl. by apply lookup_app_l_Some.
        -- simpl. rewrite lookup_app_r by lia. rewrite Nat.sub_diag. by eexists.
  - (* a proxy *)
    destruct Hv as [x Hx].
    eapply Hsame; [|rewrite HGet'; unfold wrap_on_read, bind, raw_get, gets;
                     rewrite Ev, needs_wrap_run, Hx; reflexivity]. done.
Qed.

Lemma identity_loop p pr keys hasChanges w :
  steady p pr w ->
  p_root pr = true ->
  exists w',
    ReactiveStore.write_keys keys (VProxy p) hasChanges w = Ok hasChanges w'
    /\ steady p pr w' /\ quiet w w'.
Proof.
  intros Hsteady Hroot. revert w Hsteady.
  induction keys as [|key keys IH]; intros w Hsteady.
  - exists w. split; [reflexivity|]. split; [exact Hsteady|apply quiet_refl].
  - destruct (root_read_step p pr key w Hsteady Hroot) as (r & w1 & HG1 & Hr & Hs1 & Hq1).
    destruct (root_read_step p pr key w1 Hs1 Hroot) as (r' & w2 & HG2 & _ & Hs2 & Hq2).
    assert (r' = r) as ->.
    { destruct Hsteady as (Hwf & _).
      destruct (Get_proxy_twice p key w r w1 Hwf HG1) as (w2' & HG2' & _). congruence. }
    destruct (IH w2 Hs2) as (w' & Hrest & Hs' & Hq').
    exists w'. split; [|split; [exact Hs'|]].
    + cbn [ReactiveStore.write_keys]. unfold bind at 1. unfold gets at 1.
      destruct Hsteady as (_ & _ & -> & _).
      unfold bind at 1. rewrite HG1.
      unfold bind at 1. rewrite HG2.
      unfold bind at 1. rewrite deepEqual_identical; [|apply Hs2|exact Hr].
      cbn [negb]. cbv beta iota. unfold bind at 1. unfold ret at 1. exact Hrest.
    + eapply quiet_trans; [exact Hq1|]. eapply quiet_trans; [exact Hq2|exact Hq'].
Qed.

(** X25.  [setState(s => s)] on a reactive store changes nothing and calls
    no listener: every key is read twice through the Level-0 proxy, the
    two reads give the same value or the same proxy, and nothing is
    written back.  The reads wrap the nested objects they meet.  The
    state must not hold NaN, which is not identical to itself. *)
Theorem reactive_identity_update_is_silent (p : nat) (pr : proxy) (w : world) :
  steady p pr w ->
  p_root pr = true ->
  exists w',
    ReactiveStore.setState (fun s => ret s) w = Ok tt w'
    /\ quiet w w'
    /\ listener_calls (new_events w w') = [].
Proof.
  intros Hsteady Hroot.
  destruct (identity_loop p pr (own_keys (heap_obj w (p_target pr))) false w Hsteady Hroot)
    as (w' & Hloop & _ & Hq).
  exists w'. split; [|split; [exact Hq|]].
  - destruct Hsteady as (_ & Hp & Hrs & _).
    unfold ReactiveStore.setState. unfold try_catch. unfold bind at 1. unfold gets at 1.
    rewrite Hrs. unfold bind at 1. unfold ret at 1.
    unfold bind at 1. unfold Object_keys. unfold bind at 1. unfold proxy_of. rewrite Hp.
    unfold gets at 1. unfold bind at 1. rewrite Hloop. reflexivity.
  - destruct Hq as (_ & _ & _ & _ & _ & evs & Htr & Hevs).
    rewrite (new_events_app _ _ _ Htr). by apply listener_calls_console.
Qed.

Lemma reactive_identity_update_is_silent_witness :
  exists w',
    ReactiveStore.setState (fun s => ret s) reactive_items = Ok tt w'
    /\ own_get (heap_obj w' 0) "items" = VProxy 1
    /\ listener_calls (new_events reactive_items w') = [].
Proof.
  destruct (reactive_identity_update_is_silent 0 (Proxy 0 true false) reactive_items)
    as (w' & H1 & _ & H2).
  - split; [|split; [reflexivity|split; [reflexivity|split; [simpl; lia|]]]].
    + apply cache_wf_no_nested; [reflexivity|].
      intros p pr Hp. destruct p as [|p]; simpl in Hp; [by injection Hp as <-|].
      by rewrite lookup_nil in Hp.
    + intros key. unfold own_get, heap_obj. simpl.
      destruct (String.eqb key "items"); done.
  - reflexivity.
  - exists w'. split; [exact H1|]. split; [|exact H2].
    remember (ReactiveStore.setState (fun s => ret s) reactive_items) as r eqn:E.
    vm_compute in E. subst r. injection H1 as <-. reflexivity.
Defined.

(** ** [ReactiveStore.setState] on a flat state *)








(** ** The order of the middlewares *)

Lemma use_all_middlewares mws s :
  StoreFull.middlewares (use_all mws s) = StoreFull.middlewares s ++ mws
  /\ StoreFull.core (use_all mws s) = StoreFull.core s.
Proof.
  revert s. induction mws as [|mw mws IH]; intros s; simpl.
  - by rewrite app_nil_r.
  - destruct (IH (StoreFull.use mw s)) as [-> ->]. simpl. by rewrite <- app_assoc.
Qed.

Lemma log_chain (tags : list (string * string)) (base : NextFn) (u : updater) w :
  foldr (fun (mw : MiddlewareFn) next => mw next) base
        (map bind_store (map (fun t => log_around (fst t) (snd t)) tags)) u w
  = match base u (add_trace (map (fun t => ConsoleLog (fst t) (state w)) tags) w) with
    | Ok _ w' =>
        Ok tt (add_trace (map (fun t => ConsoleLog (snd t) (state w')) (rev tags)) w')
    | Throw e w' => Throw e w'
    | Unmodelled => Unmodelled
    end.
Proof.
  revert w. induction tags as [|[pre post] tags IH]; intros w.
  - simpl. rewrite add_trace_nil. destruct (base u w) as [[] w'|e w'|]; try reflexivity.
    by rewrite add_trace_nil.
  - simpl foldr. unfold bind_store at 1. unfold log_around at 1. simpl run_script.
    unfold bind at 1. unfold StoreCore.getState at 1, gets at 1.
    unfold bind at 1. unfold console_log at 1, modify at 1.
    unfold bind at 1. rewrite IH. simpl state. simpl map.
    rewrite emit_add_trace, add_trace_app. simpl app.
    destruct (base u _) as [[] w'|e w'|]; try reflexivity.
    unfold bind at 1. unfold StoreCore.getState at 1, gets at 1.
    unfold bind at 1. unfold console_log at 1, modify at 1. unfold ret.
    simpl state. rewrite emit_add_trace, add_trace_app.
    simpl rev. by rewrite map_app.
Qed.

(** X27.  The middlewares wrap the update in the order of their
    registration: the one given to [use] first runs first and finishes
    last, the base [setState] runs once, innermost, with the updater it
    was handed, and when it throws the exception passes through every
    middleware, whose second half is skipped.  Shown on middlewares of
    the shape of [loggerMiddleware]. *)
Theorem middlewares_wrap_the_update :
  loggerMiddleware = log_around "Previous state:" "Next state:"
  /\ forall (tags : list (string * string)) (w : world) (u : updater),
       StoreFull.setState u
         (use_all (map (fun t => log_around (fst t) (snd t)) tags) (StoreFull.Make w []))
       = match StoreCore.setState u
                 (add_trace (map (fun t => ConsoleLog (fst t) (state w)) tags) w) with
         | Ok _ w' =>
             Ok tt (add_trace (map (fun t => ConsoleLog (snd t) (state w')) (rev tags)) w')
         | Throw e w' => Throw e w'
         | Unmodelled => Unmodelled
         end.
Proof.
  split; [reflexivity|]. intros tags w u.
  unfold StoreFull.setState.
  destruct (use_all_middlewares (map (fun t => log_around (fst t) (snd t)) tags)
              (StoreFull.Make w [])) as [-> ->].
  simpl app. simpl StoreFull.core.
  destruct tags as [|t tags].
  - simpl. rewrite add_trace_nil.
    destruct (StoreCore.setState u w) as [[] w'|e w'|]; try reflexivity.
    by rewrite add_trace_nil.
  - simpl length. simpl Nat.eqb. cbv iota zeta. apply log_chain.
Qed.

(** ** The proxy cache in every reachable state *)

Lemma keeps_cache_same_tables w w' :
  proxies w' = proxies w -> proxyCache w' = proxyCache w -> keeps_cache w w'.
Proof. intros Hp Hc [H1 H2]. split; rewrite ?Hp, ?Hc; assumption. Qed.

Lemma run_op_keeps_cache op : callbacks_keep_cache op -> pres keeps_cache (run_op op).
Proof.
  destruct operations_keep_cache as (HGet & HSet & HDel & _ & HCall & HState).
  intros Hcb. destruct op; simpl.
  - apply (pres_bind keeps_cache keeps_cache_trans); [apply HGet|intros ?].
    apply pres_ret, keeps_cache_refl.
  - apply HSet.
  - apply HDel.
  - apply (pres_bind keeps_cache keeps_cache_trans).
    + apply HCall. intros f a b ->. apply Hcb.
    + intros ?. apply pres_ret, keeps_cache_refl.
  - apply HState, Hcb.
  - apply (pres_setProperty keeps_cache keeps_cache_refl keeps_cache_trans keeps_cache_heap
             keeps_cache_emit keeps_cache_makeReactive).
  - apply (pres_bind keeps_cache keeps_cache_trans).
    + apply (pres_getProperty keeps_cache keeps_cache_refl keeps_cache_trans
               keeps_cache_heap keeps_cache_makeReactive).
    + intros ?. apply pres_ret, keeps_cache_refl.
  - intros w. unfold bind. rewrite subscribe_run_spec.
    destruct (subscribe_run (plugins w) (l_id l)) as [evs [ids|e]]; simpl;
      apply keeps_cache_same_tables; simpl; unfold add_listener;
      destruct (existsb _ _); reflexivity.
  - intros w. rewrite destroy_run_spec.
    destruct (destroy_run (plugins w)) as [evs [e|]];
      by apply keeps_cache_same_tables.
Qed.

(** X28.  In every state a reactive store reaches, by whatever sequence of
    reads, writes, deletions, array methods, [setState], [setProperty],
    [getProperty], [subscribe] and [destroy], returning or throwing, the
    proxy cache is as the store needs it: an entry of the cache is a
    nested proxy of its key, every nested proxy is the entry of its
    target, and no object has two nested proxies. *)
Theorem reachable_cache_is_consistent
  (h : list obj) (initialState : value) (room : nat) (w0 w : world) :
  ReactiveStore.create h initialState room = Ok tt w0 ->
  reachable w0 w ->
  cache_wf w
  /\ forall p q pr qr,
       proxies w !! p = Some pr -> proxies w !! q = Some qr ->
       p_root pr = false -> p_root qr = false ->
       p_target pr = p_target qr -> p = q.
Proof.
  intros Hcreate Hreach.
  assert (Hwf : cache_wf w).
  { induction Hreach as [|w op w' _ IH Hcb Hrun|w op e w' _ IH Hcb Hrun].
    - eapply create_cache_wf, Hcreate.
    - pose proof (run_op_keeps_cache op Hcb w) as H. rewrite Hrun in H. by apply H.
    - pose proof (run_op_keeps_cache op Hcb w) as H. rewrite Hrun in H. by apply H. }
  split; [exact Hwf|].
  intros p q pr qr Hp Hq Hrp Hrq Ht. destruct Hwf as [_ H2].
  pose proof (H2 p pr Hp Hrp) as Hcp. pose proof (H2 q qr Hq Hrq) as Hcq.
  rewrite Ht in Hcp. congruence.
Qed.

Lemma reachable_cache_is_consistent_witness :
  cache_wf (world_of (Get (VProxy 0) "items" fresh_items)).
Proof.
  refine (proj1 (reachable_cache_is_consistent items_heap (VRef 0) 16 fresh_items _
                   eq_refl _)).
  eapply (reach_return fresh_items fresh_items (op_read (VProxy 0) "items"));
    [apply reach_start|exact I|reflexivity].
Defined.

(** ** The earlier StoreCore in general *)

Lemma earlier_listeners_loop newState ls w :
  for_each ls
    (fun listener =>
       call (ListenerCall (l_id listener) newState) (l_body listener newState) ;;;
       ret tt) w
  = match notify_run newState ls with
    | (evs, None) => Ok tt (add_trace evs w)
    | (evs, Some e) => Throw e (add_trace evs w)
    end.
Proof.
  revert w. induction ls as [|l ls IH]; intros w; simpl.
  - unfold ret. by rewrite add_trace_nil.
  - unfold bind at 1. unfold bind at 1. unfold call. unfold bind at 1. unfold modify at 1.
    destruct (l_body l newState); simpl.
    + rewrite IH.
      destruct (notify_run newState ls) as [evs [e|]];
        rewrite emit_add_trace, add_trace_app; reflexivity.
    + unfold throw. by rewrite emit_add_trace.
Qed.

Lemma earlier_setState_run (u : updater) w w1 newState :
  u (state w) w = Ok newState w1 ->
  plugins w1 = [] ->
  EarlierStoreCore.setState u w =
  if strict_eq newState (state w) then Ok tt w1
  else match notify_run newState (listeners w1) with
       | (evs, None) => Ok tt (add_trace evs (set_state newState w1))
       | (evs, Some e) => Throw e (add_trace evs (set_state newState w1))
       end.
Proof.
  intros Hu Hps. unfold EarlierStoreCore.setState.
  unfold bind at 1. unfold gets at 1. unfold bind at 1. rewrite Hu.
  unfold bind at 1. unfold gets at 1. rewrite Hps.
  unfold bind at 1. cbn [EarlierStoreCore.before_update]. unfold ret at 1.
  destruct (strict_eq newState (state w)); cbn [negb]; cbv beta iota; [reflexivity|].
  unfold bind at 1. unfold modify at 1.
  unfold bind at 1. unfold gets at 1.
  unfold bind at 1. rewrite earlier_listeners_loop. simpl listeners.
  destruct (notify_run newState (listeners w1)) as [evs [e|]]; [reflexivity|].
  unfold bind at 1. unfold gets at 1. simpl plugins. rewrite Hps. reflexivity.
Qed.

(** X29.  The earlier [setState], in a store without plugins, commits
    whatever the updater returns that is not identical to the state: a
    copy that is equal by value, and null and undefined as well, since
    nothing is validated.  The listeners are called without a try/catch:
    when one throws, the state is already assigned, the listeners after
    it are not called, nothing is logged and the exception reaches the
    caller. *)
Theorem earlier_setState_commits_by_reference
  (u : updater) (w w1 : world) (newState : value) :
  u (state w) w = Ok newState w1 ->
  plugins w1 = [] ->
  strict_eq newState (state w) = false ->
  (listeners_return newState (listeners w1) = true ->
   exists w',
     EarlierStoreCore.setState u w = Ok tt w'
     /\ state w' = newState
     /\ new_events w1 w' = round newState (listeners w1))
  /\ (forall pre l post e,
        listeners w1 = pre ++ l :: post ->
        listeners_return newState pre = true ->
        l_body l newState = Throws e ->
        exists w',
          EarlierStoreCore.setState u w = Throw e w'
          /\ state w' = newState
          /\ new_events w1 w' = round newState (pre ++ [l])).
Proof.
  intros Hu Hps Hne. rewrite (earlier_setState_run u w w1 newState Hu Hps), Hne. split.
  - intros Hret. rewrite (notify_run_returns _ _ Hret).
    eexists. split; [reflexivity|]. split; [reflexivity|]. by apply new_events_app.
  - intros pre l post e Hls Hpre Hl. rewrite Hls, (notify_run_throws _ _ _ _ _ Hpre Hl).
    eexists. split; [reflexivity|]. split; [reflexivity|]. by apply new_events_app.
Qed.

Lemma earlier_setState_commits_by_reference_witness :
  exists w',
    EarlierStoreCore.setState (fun _ => ret VNull) light_counter = Ok tt w'
    /\ state w' = VNull
    /\ new_events light_counter w' = [ListenerCall 1 VNull].
Proof.
  destruct (earlier_setState_commits_by_reference
              (fun _ => ret VNull) light_counter light_counter VNull
              eq_refl eq_refl eq_refl) as [H _].
  destruct (H eq_refl) as (w' & H1 & H2 & H3).
  exists w'. split; [exact H1|]. split; [exact H2|]. rewrite H3. reflexivity.
Defined.
